(** * DisTube: the command layer ([DisTube.ts]) over the queue engine

    A shallow embedding of the [DisTube] class: [play], [createCustomPlaylist],
    [search], [getQueue] and the queue-scoped commands.  Asynchronous code is
    written in a state-and-exception monad; one run of a method is one
    linearised execution, and whatever other tasks do in between is part of
    what the external calls may do to the world, or, while the method waits
    for the lock of a queue, of what the tasks ahead of it do. *)

From Stdlib Require Import ZArith List Bool Floats.SpecFloat.
From stdpp Require Import base gmap strings list.
From Equations Require Import Equations.

Local Open Scope string_scope.
Local Open Scope list_scope.

(** ** JavaScript values *)

Module JS.

(** A JS [number] is an IEEE-754 binary64. *)
Definition number := spec_float.

Definition NaN : number := S754_nan.

(** The number denoted by an integer literal. *)
Definition num (z : Z) : number := binary_normalize 53 1024 z 0 false.

(** [a < b] on numbers; any comparison with [NaN] is [false]. *)
Definition num_lt (a b : number) : bool := SFltb a b.

(** [a === b] on numbers. *)
Definition num_eq (a b : number) : bool := SFeqb a b.

(** Host objects are known by their identity only. *)
Definition Handle := positive.

Inductive Value :=
| VUndefined
| VNull
| VBool (b : bool)
| VNumber (x : number)
| VString (s : string)
| VObject (h : Handle).

(** [Boolean(x)] for a number: [+0], [-0] and [NaN] are falsy. *)
Definition number_truthy (x : number) : bool :=
  match x with
  | S754_zero _ | S754_nan => false
  | _ => true
  end.

(** [Boolean(v)], the test of [if (v)], [v && ...], [v || ...], [!v]. *)
Definition truthy (v : Value) : bool :=
  match v with
  | VUndefined | VNull => false
  | VBool b => b
  | VNumber x => number_truthy x
  | VString s => negb (String.eqb s "")
  | VObject _ => true
  end.

(** An object property that may be missing: [None] is "no such key". *)
Definition prop := option Value.

(** Reading [o.key]. *)
Definition get (p : prop) : Value := default VUndefined p.

(** [{ key: d, ...o }.key]: the object's own key wins, even when its value
    is [undefined]. *)
Definition spread_over (d : Value) (p : prop) : Value := default d p.

(** [v ?? undefined]. *)
Definition nullish_to_undefined (v : Value) : Value :=
  match v with
  | VNull => VUndefined
  | _ => v
  end.

End JS.
Import JS.

(** ** Errors *)

(** The [DisTubeError] codes raised in [DisTube.ts]. *)
Inductive ErrorCode :=
| INVALID_TYPE
| NUMBER_COMPARE
| EMPTY_ARRAY
| NO_VALID_SONG
| NO_RESULT
| NO_QUEUE.

(** What a [throw] (or a rejected promise) carries. *)
Inductive Thrown :=
| DisTubeError (code : ErrorCode) (name : string)
    (* [new DisTubeError(code, ...)]; [name] is the argument it blames. *)
| JSError (name message : string)
    (* any other [Error] object, with writable [name] and [message]. *)
| ThrownValue (v : Value).
    (* anything else: a primitive or a frozen object. *)

(** Modelled from the spec: the error taxonomy's "invalid-argument (wrong
    type/shape for any parameter)"; the class that maps codes to kinds is not
    part of the sources. *)
Definition is_invalid_argument (e : Thrown) : bool :=
  match e with
  | DisTubeError INVALID_TYPE _ | DisTubeError NUMBER_COMPARE _ => true
  | _ => false
  end.

(** ** The monad of methods *)

Inductive Outcome (A : Type) :=
| Return (a : A)
| Throw (e : Thrown).
Arguments Return {A} a.
Arguments Throw {A} e.

Definition M (S A : Type) : Type := S -> Outcome A * S.

Definition ret {S A} (a : A) : M S A := fun s => (Return a, s).

Definition throw {S A} (e : Thrown) : M S A := fun s => (Throw e, s).

Definition bind {S A B} (m : M S A) (k : A -> M S B) : M S B :=
  fun s =>
    match m s with
    | (Return a, s') => k a s'
    | (Throw e, s') => (Throw e, s')
    end.

Declare Scope js_scope.
Delimit Scope js_scope with js.
Notation "x <- m ;; k" := (bind m (fun x => k))
  (at level 100, m at next level, right associativity) : js_scope.
Notation "m ;; k" := (bind m (fun _ => k))
  (at level 100, right associativity) : js_scope.
Local Open Scope js_scope.

(** [try { m } catch (e) { h e }]. *)
Definition try_catch {S A} (m : M S A) (h : Thrown -> M S A) : M S A :=
  fun s =>
    match m s with
    | (Return a, s') => (Return a, s')
    | (Throw e, s') => h e s'
    end.

(** [try { m } finally { f }]: [f] runs on every way out of [m]; a [throw]
    from [f] replaces the outcome of [m]. *)
Definition try_finally {S A} (m : M S A) (f : M S unit) : M S A :=
  fun s =>
    let '(r, s') := m s in
    match f s' with
    | (Return _, s'') => (r, s'')
    | (Throw e, s'') => (Throw e, s'')
    end.

(** A block with a local [let] variable of type [L]. *)
Definition get_local {S L} : M (S * L) L := fun s => (Return (snd s), s).

Definition set_local {S L} (l : L) : M (S * L) unit :=
  fun s => (Return tt, (fst s, l)).

Definition lift {S L A} (m : M S A) : M (S * L) A :=
  fun s => let '(r, s') := m (fst s) in (r, (s', snd s)).

Definition with_local {S L A} (l : L) (m : M (S * L) A) : M S A :=
  fun s => let '(r, s') := m (s, l) in (r, fst s').

(** ** Data of the command layer *)

(** [enum SearchResultType { VIDEO = "video", PLAYLIST = "playlist" }]. *)
Inductive SearchResultType :=
| VIDEO
| PLAYLIST.

Definition SearchResultType_value (t : SearchResultType) : string :=
  match t with
  | VIDEO => "video"
  | PLAYLIST => "playlist"
  end.

(** [enum RepeatMode { DISABLED, SONG, QUEUE }]: numeric, counted from 0. *)
Inductive RepeatMode :=
| DISABLED
| SONG
| QUEUE.

Definition RepeatMode_value (m : RepeatMode) : Z :=
  match m with
  | DISABLED => 0
  | SONG => 1
  | QUEUE => 2
  end.

(** The classes [Song], [SearchResult] and [Playlist] are imported, not
    defined, by [DisTube.ts]; only the members that file reads are kept. *)
Record Song := { song_url : string }.

Record SearchResult := { result_type : SearchResultType; result_url : string }.

Record Playlist := { playlist_url : string; playlist_songs : list Song }.

(** What [handler.resolve] gives back, [Song | Playlist]. *)
Inductive Resolved :=
| RSong (s : Song)
| RPlaylist (p : Playlist).

(** The [song] parameter of [play], [string | Song | SearchResult | Playlist];
    [SUndefined] is the value of [results[0]] on an empty array. *)
Inductive SongArg :=
| SString (s : string)
| SSong (s : Song)
| SSearchResult (r : SearchResult)
| SPlaylist (p : Playlist)
| SUndefined.

Definition of_resolved (r : Resolved) : SongArg :=
  match r with
  | RSong s => SSong s
  | RPlaylist p => SPlaylist p
  end.

(** An item of [search.items] as [ytsr] returns it. *)
Record YtsrItem := { item_type : string; item_url : string }.

(** [i => i.type === "video" ? new SearchResultVideo(i) : new SearchResultPlaylist(i)]. *)
Definition to_SearchResult (i : YtsrItem) : SearchResult :=
  if String.eqb (item_type i) "video"
  then {| result_type := VIDEO; result_url := item_url i |}
  else {| result_type := PLAYLIST; result_url := item_url i |}.

(** [PlayOptions], as a caller passes it: any key may be missing and any
    value may be of the wrong type. *)
Record PlayOptions := {
  opt_member : prop;
  opt_textChannel : prop;
  opt_skip : prop;
  opt_position : prop;
  opt_message : prop;
  opt_metadata : prop }.

Definition empty_PlayOptions : PlayOptions :=
  {| opt_member := None; opt_textChannel := None; opt_skip := None;
     opt_position := None; opt_message := None; opt_metadata := None |}.

(** The [options] argument of [play]: a plain object, or any other value
    (which is what [isObject] turns down). *)
Inductive OptionsArg :=
| OptionsObject (o : PlayOptions)
| OptionsOther (v : Value).

(** [options: PlayOptions = {}]: the default replaces [undefined] only. *)
Definition default_options (options : OptionsArg) : OptionsArg :=
  match options with
  | OptionsOther VUndefined => OptionsObject empty_PlayOptions
  | _ => options
  end.

Record PlayHandlerOptions := {
  h_textChannel : Value;
  h_skip : Value;
  h_position : number }.

Record ResolveOptions := { r_member : Value; r_metadata : Value }.

(** The [options] argument of [search]. *)
Record SearchOptions := {
  s_type : prop;
  s_limit : prop;
  s_safeSearch : prop;
  s_retried : prop }.

(** [{ type: SearchResultType.VIDEO, limit: 10, safeSearch: false, ...options }]. *)
Record SearchOpts := {
  o_type : Value;
  o_limit : Value;
  o_safeSearch : Value;
  o_retried : prop }.

Definition search_opts (options : SearchOptions) : SearchOpts :=
  {| o_type := spread_over (VString (SearchResultType_value VIDEO)) (s_type options);
     o_limit := spread_over (VNumber (num 10)) (s_limit options);
     o_safeSearch := spread_over (VBool false) (s_safeSearch options);
     o_retried := s_retried options |}.

(** [options.retried = true]. *)
Definition set_retried (options : SearchOptions) : SearchOptions :=
  {| s_type := s_type options; s_limit := s_limit options;
     s_safeSearch := s_safeSearch options; s_retried := Some (VBool true) |}.

(** The four argument checks at the head of [search]; [None] when all pass. *)
Definition search_invalid (opts : SearchOpts) : option Thrown :=
  if negb (match o_type opts with
           | VString s => bool_decide (s ∈ ["video"; "playlist"])
           | _ => false
           end)
  then Some (DisTubeError INVALID_TYPE "options.type")
  else match o_limit opts with
       | VNumber limit =>
           if num_lt limit (num 1) then Some (DisTubeError NUMBER_COMPARE "option.limit")
           else match o_safeSearch opts with
                | VBool _ => None
                | _ => Some (DisTubeError INVALID_TYPE "options.safeSearch")
                end
       | _ => Some (DisTubeError INVALID_TYPE "options.limit")
       end.

(** ** The queue engine, as far as the command layer touches it *)

(** Modelled from the spec: the [TaskQueue] class is not part of the sources.
    "Per-Queue FIFO of pending asynchronous tasks plus a flag distinguishing
    resolve-class tasks"; [queuing] "enqueues a waiter and suspends the caller
    until it is the head of the queue", [resolve] "signals completion of the
    current task, allowing the next waiter to proceed", [hasResolveTask]
    "reports whether a resolve-class task is currently queued or running".
    The head of the list is the running task.  Here are the three as they act
    on the list; the suspension of the caller is [await_head] below. *)
Module TaskQueue.

Definition t := list bool.

(** The waiter that [queuing] enqueues. *)
Definition queuing (isResolveTask : bool) (tasks : t) : t :=
  tasks ++ [isResolveTask].

Definition resolve (tasks : t) : t := tail tasks.

Definition hasResolveTask (tasks : t) : bool := existsb id tasks.

End TaskQueue.

(** Modelled from the spec: the [Queue] class is not part of the sources.  Of
    its attributes the task queue, the volume ("integer percent, default
    100"), the volume of the stream of its bound voice handle, the repeat mode
    and the autoplay flag are kept. *)
Record Queue := {
  q_taskQueue : TaskQueue.t;
  q_volume : number;
  q_stream_volume : number;
  q_repeatMode : RepeatMode;
  q_autoplay : bool }.

(** Queues are objects: [play] holds on to the one it looked up, whatever
    happens to the registry meanwhile. *)
Definition QueueRef := positive.

Definition Snowflake := string.

(** What a method does that others can see. *)
Inductive Event :=
| EQueuing (q : QueueRef) (isResolveTask : bool)
| EResolve (q : QueueRef)
| ECall (callee : string).

Definition is_call (e : Event) : bool :=
  match e with
  | ECall _ => true
  | _ => false
  end.

(** [m] shows nothing but calls: whatever it adds to the trace [tr], read off
    its state, is calls. *)
Definition only_calls {S A} (tr : S -> list Event) (m : M S A) : Prop :=
  forall s, exists calls,
    tr (snd (m s)) = tr s ++ calls /\ Forall (fun e => is_call e = true) calls.

(** ** The world a method runs in *)

Section World.

(** Whatever lies outside the registry: voice connections, the network. *)
Context {Env : Type}.

(** [queues] is the [QueueManager]'s collection (guild id to queue), [heap]
    holds the queue objects themselves. *)
Record World := {
  queues : gmap Snowflake QueueRef;
  heap : gmap QueueRef Queue;
  env : Env }.

Record St := { world : World; trace : list Event }.

Definition set_heap (h : gmap QueueRef Queue) (st : St) : St :=
  {| world := {| queues := queues (world st); heap := h; env := env (world st) |};
     trace := trace st |}.

Definition emit (e : Event) : M St unit :=
  fun st => (Return tt, {| world := world st; trace := trace st ++ [e] |}).

(** A call into a collaborator (and the [await] of its promise): it may change
    the world in any way, and it returns or throws. *)
Definition call {A} (callee : string) (f : World -> Outcome A * World) : M St A :=
  fun st =>
    let '(r, w) := f (world st) in
    (r, {| world := w; trace := trace st ++ [ECall callee] |}).

(** Reading and updating a queue object. *)
Definition read_queue {A} (q : QueueRef) (f : Queue -> A) (d : A) : M St A :=
  fun st => (Return (default d (f <$> heap (world st) !! q)), st).

Definition update_queue (q : QueueRef) (f : Queue -> Queue) : M St unit :=
  fun st => (Return tt, set_heap (alter f q (heap (world st))) st).

Definition with_taskQueue (f : TaskQueue.t -> TaskQueue.t) (Q : Queue) : Queue :=
  {| q_taskQueue := f (q_taskQueue Q); q_volume := q_volume Q;
     q_stream_volume := q_stream_volume Q; q_repeatMode := q_repeatMode Q;
     q_autoplay := q_autoplay Q |}.

(** [queue._taskQueue.hasResolveTask]. *)
Definition hasResolveTask (q : QueueRef) : M St bool :=
  read_queue q (fun Q => TaskQueue.hasResolveTask (q_taskQueue Q)) false.

(** [queue?._taskQueue.resolve()]. *)
Definition TaskQueue_resolve (queue : option QueueRef) : M St unit :=
  match queue with
  | Some q =>
      update_queue q (with_taskQueue TaskQueue.resolve) ;;
      emit (EResolve q)
  | None => ret tt
  end.

End World.
Arguments World : clear implicits.
Arguments St : clear implicits.

(** A custom plugin, as [play] uses it. *)
Record CustomPlugin {Env : Type} := {
  plugin_validate : string -> World Env -> Outcome bool * World Env;
  plugin_play : Value -> string -> OptionsArg -> World Env -> Outcome unit * World Env }.
Arguments CustomPlugin : clear implicits.

(** ** Collaborators

    Imported by [DisTube.ts] and defined elsewhere: the type guards, the
    handler, the search library, the plugins, the [Playlist] constructor and
    the methods of [Queue] of which the spec fixes too little to write them
    down.  The development is parametric in them. *)

Class Collaborators (Env : Type) := {
  isSupportedVoiceChannel : Value -> bool;
  isMessageInstance : Value -> bool;
  isTextChannelInstance : Value -> bool;
  isMemberInstance : Value -> bool;
  isURL : SongArg -> bool;
  (* [voiceChannel.guild.members.me] and [message.channel] *)
  guild_me : Value -> Value;
  channel_of : Value -> Value;
  (* [Number(v)] on strings and on objects *)
  StringToNumber : string -> number;
  ObjectToNumber : Handle -> number;
  (* the guild id of a [GuildIdResolvable]; by the spec "a pure lookup, not
     stateful" *)
  resolveGuildId : Value -> Snowflake;
  customPlugins : list (CustomPlugin Env);
  (* [ytsr(string, { ...opts, requestOptions: { headers: { cookie } } })] *)
  ytCookie : Value;
  ytsr : string -> SearchOpts -> Value -> World Env -> Outcome (list YtsrItem) * World Env;
  handler_searchSong :
    Value -> string -> World Env -> Outcome (option SearchResult) * World Env;
  handler_resolve : SongArg -> ResolveOptions -> World Env -> Outcome Resolved * World Env;
  handler_playPlaylist :
    Value -> Playlist -> PlayHandlerOptions -> World Env -> Outcome unit * World Env;
  handler_playSong :
    Value -> Song -> PlayHandlerOptions -> World Env -> Outcome unit * World Env;
  (* [new Playlist(resolvedSongs, { member, properties, metadata })] *)
  Playlist_new : list Resolved -> Value -> Value -> Value -> Outcome Playlist;
  (* the order in which the event loop lets pending promises settle: at each
     step, which of the promises still pending comes next *)
  scheduler : list nat;
  Queue_pause : QueueRef -> World Env -> Outcome QueueRef * World Env;
  Queue_resume : QueueRef -> World Env -> Outcome QueueRef * World Env;
  Queue_shuffle : QueueRef -> World Env -> Outcome QueueRef * World Env;
  Queue_stop : QueueRef -> World Env -> Outcome unit * World Env;
  Queue_skip : QueueRef -> World Env -> Outcome Song * World Env;
  Queue_previous : QueueRef -> World Env -> Outcome Song * World Env;
  Queue_addRelatedSong : QueueRef -> World Env -> Outcome Song * World Env;
  Queue_jump : QueueRef -> number -> World Env -> Outcome Song * World Env;
  Queue_seek : QueueRef -> number -> World Env -> Outcome QueueRef * World Env;
  (* what the task at the head of a queue's task queue does, from the moment
     a caller starts to wait behind it, until it is complete *)
  task_runs : QueueRef -> World Env -> World Env }.

(** ** The [DisTube] class *)

Section DisTube.

Context {Env : Type} {collaborators : Collaborators Env}.

Abbreviation World := (World Env).
Abbreviation St := (St Env).

(** *** [search] *)

(** The body of the [try] block: one request to [ytsr]. *)
Definition search_try (query : string) (opts : SearchOpts) : M St (list SearchResult) :=
  search <- call "ytsr" (ytsr query opts ytCookie) ;;
  let results := map to_SearchResult search in
  if (length results =? 0)%nat then throw (DisTubeError NO_RESULT "") else ret results.

Definition retried (options : SearchOptions) : bool := truthy (get (s_retried options)).

Definition retries_left (options : SearchOptions) : nat :=
  if retried options then 0 else 1.

Equations? search (query : string) (options : SearchOptions) : M St (list SearchResult)
  by wf (retries_left options) lt :=
search query options :=
  let opts := search_opts options in
  match search_invalid opts with
  | Some e => throw e
  | None =>
      try_catch (search_try query opts)
        (fun e =>
           match retried options as b return retried options = b -> _ with
           | true => fun _ => throw e
           | false => fun _ => search query (set_retried options)
           end eq_refl)
  end.
Proof. unfold retries_left. rewrite e0. cbn. lia. Qed.

(** *** [getQueue] and [#getQueue] *)

(** Modelled from the spec: [QueueManager.get], which is not part of the
    sources, "resolves any of several guild-identifying inputs to the
    registered Queue or undefined". *)
Definition QueueManager_get (guild : Value) : M St (option QueueRef) :=
  fun st => (Return (queues (world st) !! resolveGuildId guild), st).

Definition getQueue (guild : Value) : M St (option QueueRef) :=
  QueueManager_get guild.

(** [#getQueue]. *)
Definition getQueue' (guild : Value) : M St QueueRef :=
  queue <- getQueue guild ;;
  match queue with
  | None => throw (DisTubeError NO_QUEUE "")
  | Some q => ret q
  end.

(** *** The lock of a queue *)

(** Modelled from the spec: [queuing] "suspends the caller until it is the
    head of the queue".  While the caller is suspended the [ahead] tasks before
    it run, one after the other ("at most one task executes at a time per
    queue"), and each signals its completion with [resolve()], which takes it
    off the queue ("tasks complete (success or failure) before the next
    dequeues").  What they do is theirs and not the caller's, so the caller's
    trace does not grow.  As for every [await] here, what is awaited arrives:
    by the spec a queued task "runs to completion". *)
Fixpoint await_head (q : QueueRef) (ahead : nat) : M St unit :=
  match ahead with
  | O => ret tt
  | S ahead =>
      (fun st => (Return tt, {| world := task_runs q (world st); trace := trace st |})) ;;
      update_queue q (with_taskQueue TaskQueue.resolve) ;;
      await_head q ahead
  end.

(** [await queue?._taskQueue.queuing(isResolveTask)]: the call enqueues the
    waiter at once, behind the tasks that are there; the [await] suspends the
    caller until these are complete. *)
Definition TaskQueue_queuing (queue : option QueueRef) (isResolveTask : bool) : M St unit :=
  match queue with
  | Some q =>
      ahead <- read_queue q (fun Q => length (q_taskQueue Q)) 0%nat ;;
      update_queue q (with_taskQueue (TaskQueue.queuing isResolveTask)) ;;
      emit (EQueuing q isResolveTask) ;;
      await_head q ahead
  | None => ret tt
  end.

(** *** [play] *)

(** [Number(v)]. *)
Definition Number (v : Value) : number :=
  match v with
  | VUndefined => NaN
  | VNull => num 0
  | VBool b => if b then num 1 else num 0
  | VNumber x => x
  | VString s => StringToNumber s
  | VObject h => ObjectToNumber h
  end.

(** [options?.message?.channel]. *)
Definition message_channel (message : Value) : Value :=
  match message with
  | VUndefined | VNull => VUndefined
  | _ => channel_of message
  end.

(** [Number(options.position) || (skip ? 1 : 0)]. *)
Definition play_position (o : PlayOptions) (skip : Value) : number :=
  let n := Number (get (opt_position o)) in
  if number_truthy n then n else if truthy skip then num 1 else num 0.

(** [for (const plugin of this.customPlugins) ...]; [true] when the loop
    left the method by its [return]. *)
Fixpoint play_plugins (plugins : list (CustomPlugin Env))
    (voiceChannel : Value) (song : string) (options : OptionsArg) : M St bool :=
  match plugins with
  | [] => ret false
  | plugin :: rest =>
      valid <- call "plugin.validate" (plugin_validate plugin song) ;;
      if (valid : bool)
      then call "plugin.play" (plugin_play plugin voiceChannel song options) ;; ret true
      else play_plugins rest voiceChannel song options
  end.

(** [results[0]]. *)
Definition first_result (results : list SearchResult) : SongArg :=
  match results with
  | r :: _ => SSearchResult r
  | [] => SUndefined
  end.

(** [{ limit: 1 }]. *)
Definition limit_1 : SearchOptions :=
  {| s_type := None; s_limit := Some (VNumber (num 1)); s_safeSearch := None;
     s_retried := None |}.

(** The body of the [try] block; [song] is the local variable. *)
Definition play_try (voiceChannel : Value) (options : OptionsArg)
    (message member metadata textChannel skip : Value) (position : number)
    : M (St * SongArg) unit :=
  song <- get_local ;;
  returned <- match song with
              | SString s => lift (play_plugins customPlugins voiceChannel s options)
              | _ => ret false
              end ;;
  if (returned : bool) then ret tt else
  returned <- match song with
              | SString s =>
                  if negb (isURL song) then
                    if negb (truthy message) then
                      results <- lift (search s limit_1) ;;
                      set_local (first_result results) ;;
                      ret false
                    else
                      result <- lift (call "handler.searchSong" (handler_searchSong message s)) ;;
                      match result with
                      | None => ret true
                      | Some r => set_local (SSearchResult r) ;; ret false
                      end
                  else ret false
              | _ => ret false
              end ;;
  if (returned : bool) then ret tt else
  song <- get_local ;;
  resolved <- lift (call "handler.resolve"
                      (handler_resolve song {| r_member := member; r_metadata := metadata |})) ;;
  set_local (of_resolved resolved) ;;
  let opts := {| h_textChannel := textChannel; h_skip := skip; h_position := position |} in
  match resolved with
  | RPlaylist p => lift (call "handler.playPlaylist" (handler_playPlaylist voiceChannel p opts))
  | RSong s => lift (call "handler.playSong" (handler_playSong voiceChannel s opts))
  end.

Definition newline : string := String (Ascii.ascii_of_nat 10) EmptyString.

(** [typeof song === "string" ? song : song.url]; [None] when reading [url]
    is a [TypeError]. *)
Definition song_label (song : SongArg) : option string :=
  match song with
  | SString s => Some s
  | SSong s => Some (song_url s)
  | SSearchResult r => Some (result_url r)
  | SPlaylist p => Some (playlist_url p)
  | SUndefined => None
  end.

(** The [catch] clause up to its [throw e]: an error that is no
    [DisTubeError] is renamed and its message prefixed, as far as the
    assignments go through. *)
Definition PlayError (song : SongArg) (e : Thrown) : Thrown :=
  match e with
  | DisTubeError _ _ => e
  | JSError _ message =>
      match song_label song with
      | Some label => JSError "PlayError" (label +:+ newline +:+ message)
      | None => JSError "PlayError" message
      end
  | ThrownValue _ => e
  end.

(** [try { ... } catch (e) { ...; throw e } finally { if (queuing) queue?._taskQueue.resolve() }]. *)
Definition play_guarded (queue : option QueueRef) (queuing : bool)
    (body : M (St * SongArg) unit) : M (St * SongArg) unit :=
  try_finally
    (try_catch body (fun e => song <- get_local ;; throw (PlayError song e)))
    (if queuing then lift (TaskQueue_resolve queue) else ret tt).

(** The three keys of [{ member: ..., textChannel: ..., skip: false, ...options }]
    that have a default. *)
Definition play_member (voiceChannel : Value) (o : PlayOptions) : Value :=
  spread_over (nullish_to_undefined (guild_me voiceChannel)) (opt_member o).

Definition play_textChannel (o : PlayOptions) : Value :=
  spread_over (message_channel (get (opt_message o))) (opt_textChannel o).

Definition play_skip (o : PlayOptions) : Value :=
  spread_over (VBool false) (opt_skip o).

Definition play (voiceChannel : Value) (song : SongArg) (options : OptionsArg) : M St unit :=
  let options := default_options options in
  if negb (isSupportedVoiceChannel voiceChannel)
  then throw (DisTubeError INVALID_TYPE "voiceChannel") else
  match options with
  | OptionsOther _ => throw (DisTubeError INVALID_TYPE "options")
  | OptionsObject o =>
      let member := play_member voiceChannel o in
      let textChannel := play_textChannel o in
      let skip := play_skip o in
      let message := get (opt_message o) in
      let metadata := get (opt_metadata o) in
      let position := play_position o skip in
      if truthy message && negb (isMessageInstance message)
      then throw (DisTubeError INVALID_TYPE "options.message") else
      if truthy textChannel && negb (isTextChannelInstance textChannel)
      then throw (DisTubeError INVALID_TYPE "options.textChannel") else
      if truthy member && negb (isMemberInstance member)
      then throw (DisTubeError INVALID_TYPE "options.member") else
      queue <- getQueue voiceChannel ;;
      queuing <- match queue with
                 | Some q => busy <- hasResolveTask q ;; ret (negb busy)
                 | None => ret false
                 end ;;
      (if (queuing : bool) then TaskQueue_queuing queue true else ret tt) ;;
      with_local song
        (play_guarded queue queuing
           (play_try voiceChannel options message member metadata textChannel skip position))
  end.

(** *** [createCustomPlaylist] *)

(** An element of [songs], [string | Song | SearchResult]. *)
Inductive PlaylistItem :=
| IString (s : string)
| ISong (s : Song)
| IResult (r : SearchResult).

Definition item_arg (song : PlaylistItem) : SongArg :=
  match song with
  | IString s => SString s
  | ISong s => SSong s
  | IResult r => SSearchResult r
  end.

(** The [songs] argument: an array, or anything else. *)
Inductive SongsArg :=
| SongsArray (songs : list PlaylistItem)
| SongsOther (v : Value).

Record CustomPlaylistOptions := {
  c_member : prop;
  c_properties : prop;
  c_parallel : prop;
  c_metadata : prop }.

(** [song instanceof Song]. *)
Definition instanceof_Song (song : PlaylistItem) : bool :=
  match song with
  | ISong _ => true
  | _ => false
  end.

(** [typeof song !== "string" && song.type === SearchResultType.VIDEO]. *)
Definition is_video_result (song : PlaylistItem) : bool :=
  match song with
  | IString _ => false
  | ISong _ => false
  | IResult r => match result_type r with VIDEO => true | PLAYLIST => false end
  end.

(** The predicate of [songs.filter(...)]. *)
Definition valid_song (song : PlaylistItem) : bool :=
  instanceof_Song song || isURL (item_arg song) || is_video_result song.

(** A call is made at once; its promise settles later. *)
Definition invoke (callee : string) : M St unit := emit (ECall callee).

Definition settles {A} (f : World -> Outcome A * World) : M St A :=
  fun st => let '(r, w) := f (world st) in (r, {| world := w; trace := trace st |}).

(** [promise.catch(() => undefined)], once [promise] settles. *)
Definition catch_undefined (promise : M St Resolved) : M St (option Resolved) :=
  try_catch (r <- promise ;; ret (Some r)) (fun _ => ret None).

(** [.filter((s: any): s is Song => Boolean(s))]: [undefined] goes, objects stay. *)
Definition filter_Boolean (resolved : list (option Resolved)) : list Resolved :=
  omap id resolved.

(** The sequential branch: [for (const song of filteredSongs) resolved.push(await ...)]. *)
Fixpoint resolve_each (o : ResolveOptions) (filteredSongs : list PlaylistItem)
    (resolved : list (option Resolved)) : M St (list (option Resolved)) :=
  match filteredSongs with
  | [] => ret resolved
  | song :: rest =>
      invoke "handler.resolve" ;;
      r <- catch_undefined (settles (handler_resolve (item_arg song) o)) ;;
      resolve_each o rest (resolved ++ [r])
  end.

(** The parallel branch, first half: [filteredSongs.map(...)] makes every
    call, in the order of the array. *)
Fixpoint invoke_each (filteredSongs : list PlaylistItem) : M St unit :=
  match filteredSongs with
  | [] => ret tt
  | _ :: rest => invoke "handler.resolve" ;; invoke_each rest
  end.

(** The parallel branch, second half: [await Promise.all(promises)].  The
    promises settle one by one in the scheduler's order; each result goes to
    the place of its promise in the array. *)
Equations? Promise_all (o : ResolveOptions) (picks : list nat)
    (pending : list (nat * PlaylistItem)) (results : list (option Resolved))
    : M St (list (option Resolved)) by wf (length pending) lt :=
Promise_all o picks [] results := ret results;
Promise_all o picks (p :: rest) results :=
  let k := (hd 0 picks mod length (p :: rest))%nat in
  let next := nth k (p :: rest) p in
  r <- catch_undefined (settles (handler_resolve (item_arg (snd next)) o)) ;;
  Promise_all o (tl picks) (delete k (p :: rest)) (<[fst next := r]> results).
Proof.
  rewrite length_delete; [cbn [length]; lia|].
  apply lookup_lt_is_Some_2. subst k. cbn [length]. lia.
Qed.

Definition createCustomPlaylist (songs : SongsArg) (options : CustomPlaylistOptions)
    : M St Playlist :=
  let member := get (c_member options) in
  let properties := get (c_properties options) in
  let parallel := spread_over (VBool true) (c_parallel options) in
  let metadata := get (c_metadata options) in
  match songs with
  | SongsOther _ => throw (DisTubeError INVALID_TYPE "songs")
  | SongsArray songs =>
      if (length songs =? 0)%nat then throw (DisTubeError EMPTY_ARRAY "songs") else
      let filteredSongs := List.filter valid_song songs in
      if (length filteredSongs =? 0)%nat then throw (DisTubeError NO_VALID_SONG "") else
      if truthy member && negb (isMemberInstance member)
      then throw (DisTubeError INVALID_TYPE "options.member") else
      let o := {| r_member := member; r_metadata := metadata |} in
      resolvedSongs <-
        (if truthy parallel then
           invoke_each filteredSongs ;;
           settled <- Promise_all o scheduler (imap pair filteredSongs)
                        (replicate (length filteredSongs) None) ;;
           ret (filter_Boolean settled)
         else
           resolved <- resolve_each o filteredSongs [] ;;
           ret (filter_Boolean resolved)) ;;
      fun st => (Playlist_new resolvedSongs member properties metadata, st)
  end.

(** *** The queue-scoped commands *)

Definition with_volume (percent : number) (Q : Queue) : Queue :=
  {| q_taskQueue := q_taskQueue Q; q_volume := percent; q_stream_volume := percent;
     q_repeatMode := q_repeatMode Q; q_autoplay := q_autoplay Q |}.

Definition with_repeatMode (mode : RepeatMode) (Q : Queue) : Queue :=
  {| q_taskQueue := q_taskQueue Q; q_volume := q_volume Q;
     q_stream_volume := q_stream_volume Q; q_repeatMode := mode;
     q_autoplay := q_autoplay Q |}.

Definition with_autoplay (autoplay : bool) (Q : Queue) : Queue :=
  {| q_taskQueue := q_taskQueue Q; q_volume := q_volume Q;
     q_stream_volume := q_stream_volume Q; q_repeatMode := q_repeatMode Q;
     q_autoplay := autoplay |}.

(** Modelled from the spec: [Queue.setVolume], which is not part of the
    sources, "validates percent > 0; applies immediately to the active
    stream" and fails with an invalid-argument error otherwise. *)
Definition Queue_setVolume (q : QueueRef) (percent : number) : M St QueueRef :=
  if num_lt (num 0) percent
  then update_queue q (with_volume percent) ;; ret q
  else throw (DisTubeError NUMBER_COMPARE "percent").

(** The member of [RepeatMode] with a given numeric value. *)
Definition RepeatMode_of (x : number) : option RepeatMode :=
  if num_eq x (num 0) then Some DISABLED
  else if num_eq x (num 1) then Some SONG
  else if num_eq x (num 2) then Some QUEUE
  else None.

(** [DISABLED → SONG → QUEUE → DISABLED]. *)
Definition next_RepeatMode (m : RepeatMode) : RepeatMode :=
  match m with
  | DISABLED => SONG
  | SONG => QUEUE
  | QUEUE => DISABLED
  end.

(** Modelled from the spec: [Queue.setRepeatMode], which is not part of the
    sources: "explicit set if mode given and valid, otherwise cycles
    DISABLED → SONG → QUEUE → DISABLED; returns the resulting mode". *)
Definition Queue_setRepeatMode (q : QueueRef) (mode : option number) : M St number :=
  current <- read_queue q q_repeatMode DISABLED ;;
  let result := match mode ≫= RepeatMode_of with
                | Some m => m
                | None => next_RepeatMode current
                end in
  update_queue q (with_repeatMode result) ;;
  ret (num (RepeatMode_value result)).

Definition pause (guild : Value) : M St QueueRef :=
  queue <- getQueue' guild ;; call "Queue.pause" (Queue_pause queue).

Definition resume (guild : Value) : M St QueueRef :=
  queue <- getQueue' guild ;; call "Queue.resume" (Queue_resume queue).

Definition stop (guild : Value) : M St unit :=
  queue <- getQueue' guild ;; call "Queue.stop" (Queue_stop queue).

Definition setVolume (guild : Value) (percent : number) : M St QueueRef :=
  queue <- getQueue' guild ;; Queue_setVolume queue percent.

Definition skip (guild : Value) : M St Song :=
  queue <- getQueue' guild ;; call "Queue.skip" (Queue_skip queue).

Definition previous (guild : Value) : M St Song :=
  queue <- getQueue' guild ;; call "Queue.previous" (Queue_previous queue).

Definition shuffle (guild : Value) : M St QueueRef :=
  queue <- getQueue' guild ;; call "Queue.shuffle" (Queue_shuffle queue).

Definition jump (guild : Value) (n : number) : M St Song :=
  queue <- getQueue' guild ;; call "Queue.jump" (Queue_jump queue n).

Definition setRepeatMode (guild : Value) (mode : option number) : M St number :=
  queue <- getQueue' guild ;; Queue_setRepeatMode queue mode.

Definition toggleAutoplay (guild : Value) : M St bool :=
  queue <- getQueue' guild ;;
  autoplay <- read_queue queue q_autoplay false ;;
  update_queue queue (with_autoplay (negb autoplay)) ;;
  read_queue queue q_autoplay false.

Definition addRelatedSong (guild : Value) : M St Song :=
  queue <- getQueue' guild ;; call "Queue.addRelatedSong" (Queue_addRelatedSong queue).

Definition seek (guild : Value) (time : number) : M St QueueRef :=
  queue <- getQueue' guild ;; call "Queue.seek" (Queue_seek queue time).

(** *** The playlist, as the specification speaks of it *)

(** A resolution that fails is replaced with nothing. *)
Definition resolved_or_nothing (resolve : SongArg -> ResolveOptions -> Outcome Resolved)
    (o : ResolveOptions) (song : PlaylistItem) : option Resolved :=
  match resolve (item_arg song) o with
  | Return r => Some r
  | Throw _ => None
  end.

(** The filtered songs, resolved in the order of the input, less the
    failures. *)
Definition resolved_in_order (resolve : SongArg -> ResolveOptions -> Outcome Resolved)
    (o : ResolveOptions) (songs : list PlaylistItem) : list Resolved :=
  omap (resolved_or_nothing resolve o) (List.filter valid_song songs).

(** The array [Promise.all] ends with once every pending promise has settled,
    each at its own place. *)
Fixpoint fill (resolve : SongArg -> ResolveOptions -> Outcome Resolved)
    (o : ResolveOptions) (pending : list (nat * PlaylistItem))
    (results : list (option Resolved)) : list (option Resolved) :=
  match pending with
  | [] => results
  | p :: rest => <[fst p := resolved_or_nothing resolve o (snd p)]> (fill resolve o rest results)
  end.

(** [{ ...options, parallel }]. *)
Definition with_parallel (parallel : Value) (options : CustomPlaylistOptions)
    : CustomPlaylistOptions :=
  {| c_member := c_member options; c_properties := c_properties options;
     c_parallel := Some parallel; c_metadata := c_metadata options |}.

(** *** Arguments, as the specification speaks of them *)

(** A key that is given and holds something of the wrong type. *)
Definition wrong_type (guard : Value -> bool) (p : prop) : Prop :=
  exists v, p = Some v /\ truthy v = true /\ guard v = false.

(** An invalid-argument input of [play]. *)
Definition play_invalid_argument (voiceChannel : Value) (options : OptionsArg) : Prop :=
  isSupportedVoiceChannel voiceChannel = false \/
  (exists v, default_options options = OptionsOther v) \/
  (exists o, default_options options = OptionsObject o /\
     (wrong_type isMessageInstance (opt_message o) \/
      wrong_type isTextChannelInstance (opt_textChannel o) \/
      wrong_type isMemberInstance (opt_member o))).

(** Arguments that every check of [play] lets through; [o] is the options
    object. *)
Definition play_accepts (voiceChannel : Value) (options : OptionsArg) (o : PlayOptions) : Prop :=
  isSupportedVoiceChannel voiceChannel = true /\
  default_options options = OptionsObject o /\
  (truthy (get (opt_message o)) = true -> isMessageInstance (get (opt_message o)) = true) /\
  (truthy (play_textChannel o) = true -> isTextChannelInstance (play_textChannel o) = true) /\
  (truthy (play_member voiceChannel o) = true ->
   isMemberInstance (play_member voiceChannel o) = true).

(** The [try] block of [play] on accepted arguments. *)
Definition play_block (voiceChannel : Value) (o : PlayOptions) : M (St * SongArg) unit :=
  play_try voiceChannel (OptionsObject o) (get (opt_message o)) (play_member voiceChannel o)
    (get (opt_metadata o)) (play_textChannel o) (play_skip o)
    (play_position o (play_skip o)).

(** *** Calls one after the other *)


(** What a promise of [handler.resolve(...).catch(() => undefined)] settles
    to. *)
Definition settled (r : Outcome Resolved) : option Resolved :=
  match r with
  | Return resolved => Some resolved
  | Throw _ => None
  end.

(** The resolver is called for the songs of [songs], one after the other,
    from the world [w] on: what each call settles to, and the world that the
    last one leaves. *)
Fixpoint resolve_in_turn (o : ResolveOptions) (songs : list PlaylistItem) (w : World)
    : list (option Resolved) * World :=
  match songs with
  | [] => ([], w)
  | song :: rest =>
      let '(r, w1) := handler_resolve (item_arg song) o w in
      let '(results, w2) := resolve_in_turn o rest w1 in
      (settled r :: results, w2)
  end.

(** *** The task queue, as the specification speaks of it *)

(** From the world [w] to the world [w'] the tasks that [q] holds are left
    alone: each is still queued, at its place, and more may have been enqueued
    behind them ("tasks are served strictly in arrival order"). *)
Definition tasks_kept (q : QueueRef) (w w' : World) : Prop :=
  forall Q, heap w !! q = Some Q ->
    exists Q', heap w' !! q = Some Q' /\ q_taskQueue Q `prefix_of` q_taskQueue Q'.

(** A collaborator that leaves them alone, whatever the world it is called
    in. *)
Definition leaves_tasks {A} (q : QueueRef) (f : World -> Outcome A * World) : Prop :=
  forall w, tasks_kept q w (snd (f w)).

(** All that [play] calls leaves them alone. *)
Definition play_leaves_tasks (q : QueueRef) : Prop :=
  (forall plugin, plugin ∈ customPlugins ->
     forall song, leaves_tasks q (plugin_validate plugin song)) /\
  (forall plugin, plugin ∈ customPlugins ->
     forall voiceChannel song options,
       leaves_tasks q (plugin_play plugin voiceChannel song options)) /\
  (forall query opts, leaves_tasks q (ytsr query opts ytCookie)) /\
  (forall message song, leaves_tasks q (handler_searchSong message song)) /\
  (forall song o, leaves_tasks q (handler_resolve song o)) /\
  (forall voiceChannel playlist o,
     leaves_tasks q (handler_playPlaylist voiceChannel playlist o)) /\
  (forall voiceChannel song o, leaves_tasks q (handler_playSong voiceChannel song o)).

(** The same, from a state to another: from the world of the one to the
    world of the other. *)
Definition tasks_kept_in (q : QueueRef) (st st' : St) : Prop :=
  tasks_kept q (world st) (world st').

(** A task at the head of [q] leaves alone the tasks behind it. *)
Definition task_leaves_tasks (q : QueueRef) : Prop :=
  forall w, tasks_kept q w (task_runs q w).

End DisTube.

(** ** What a run keeps, in general *)

(** Every run of [m] ends in a state that [R] relates to the one it started
    in. *)
Definition keeps {S A} (R : S -> S -> Prop) (m : M S A) : Prop :=
  forall s, R s (snd (m s)).

(** ** What a run shows, in general *)

(** Whatever [m] adds to the trace satisfies [P]. *)
Definition shows {S A} (P : Event -> Prop) (tr : S -> list Event) (m : M S A) : Prop :=
  forall s, exists events, tr (snd (m s)) = tr s ++ events /\ Forall P events.

(** An event that is no call of one of [callees]. *)
Definition calls_none_of (callees : list string) (e : Event) : Prop :=
  match e with
  | ECall callee => callee ∉ callees
  | _ => True
  end.

(** The calls into the handler that resolve and play. *)
Definition handler_calls : list string :=
  ["handler.resolve"; "handler.playSong"; "handler.playPlaylist"].

(** What [play] can ask of the handler at its end: nothing, the resolution,
    or the resolution and then one of the two ways to play. *)
Definition resolve_then_play (post : list Event) : Prop :=
  post = [] \/
  post = [ECall "handler.resolve"] \/
  post = [ECall "handler.resolve"; ECall "handler.playSong"] \/
  post = [ECall "handler.resolve"; ECall "handler.playPlaylist"].

Section Ending.

Context {Env : Type} {collaborators : Collaborators Env}.

(** How the block of [play] can end, when started in [s]: before it plays
    anything; or with the call that plays what the handler has just resolved,
    a song or a playlist, and that call is handed [handed] for its options. *)
Definition ends_playing (voiceChannel member metadata : Value) (handed : PlayHandlerOptions)
    (s : St Env * SongArg) (ending : Outcome unit * (St Env * SongArg)) : Prop :=
  (exists events,
     trace (fst (snd ending)) = trace (fst s) ++ events /\
     Forall (calls_none_of ["handler.playSong"; "handler.playPlaylist"]) events) \/
  (exists song w resolved w',
     handler_resolve song {| r_member := member; r_metadata := metadata |} w
     = (Return resolved, w') /\
     (fst ending, world (fst (snd ending)))
     = match resolved with
       | RSong track => handler_playSong voiceChannel track handed w'
       | RPlaylist list => handler_playPlaylist voiceChannel list handed w'
       end /\
     exists events,
       trace (fst (snd ending))
       = trace (fst s) ++ events
           ++ [ECall "handler.resolve";
               ECall match resolved with
                     | RSong _ => "handler.playSong"
                     | RPlaylist _ => "handler.playPlaylist"
                     end] /\
       Forall (calls_none_of handler_calls) events).

End Ending.

(** ** The constructor *)

(** [enum PluginType { CUSTOM = "custom", EXTRACTOR = "extractor" }]. *)
Inductive PluginType :=
| CUSTOM
| EXTRACTOR.

Definition PluginType_value (t : PluginType) : string :=
  match t with
  | CUSTOM => "custom"
  | EXTRACTOR => "extractor"
  end.

(** A plugin, as the constructor uses it: [p.type] and [p.init(this)]. *)
Record Plugin {Env : Type} := {
  plugin_type : string;
  plugin_init : World Env -> Outcome unit * World Env }.
Arguments Plugin : clear implicits.

(** [Filters = Record<string, string>]. *)
Abbreviation Filters := (gmap string string).

(** The members of [Options] that the constructor reads; the class itself is
    imported. *)
Record Options {Env : Type} := {
  options_plugins : list (Plugin Env);
  options_directLink : Value;
  options_customFilters : option Filters }.
Arguments Options : clear implicits.

(** The fields the constructor fills in, less the three managers, which are
    objects of imported classes. *)
Record DisTube {Env : Type} := {
  d_client : Value;
  d_options : Options Env;
  d_filters : Filters;
  d_extractorPlugins : list (Plugin Env);
  d_customPlugins : list (Plugin Env) }.
Arguments DisTube : clear implicits.

(** What the constructor imports: the guard of its argument, the check of the
    client's intents, the constructors of the options and of the three
    managers, the default filters and the direct-link plugin. *)
Class Construction (Env : Type) := {
  isClientInstance : Value -> bool;
  (* [client.options] *)
  client_options : Value -> Value;
  checkIntents : Value -> World Env -> Outcome unit * World Env;
  (* [new Options(otp)]; [None] is the default argument [{}] *)
  Options_new : option Value -> World Env -> Outcome (Options Env) * World Env;
  DisTubeVoiceManager_new : World Env -> Outcome unit * World Env;
  DisTubeHandler_new : World Env -> Outcome unit * World Env;
  QueueManager_new : World Env -> Outcome unit * World Env;
  defaultFilters : Filters;
  (* [new DirectLinkPlugin()] *)
  DirectLinkPlugin_new : Plugin Env }.

Section Constructor.

Context {Env : Type} {construction : Construction Env}.

(** [this.options.plugins.forEach(p => p.init(this))]. *)
Fixpoint init_each (plugins : list (Plugin Env)) : M (St Env) unit :=
  match plugins with
  | [] => ret tt
  | p :: rest => call "plugin.init" (plugin_init p) ;; init_each rest
  end.

(** [p.type === t]. *)
Definition has_type (t : PluginType) (p : Plugin Env) : bool :=
  String.eqb (plugin_type p) (PluginType_value t).

(** [{ ...defaultFilters, ...this.options.customFilters }]: a later key wins. *)
Definition merge_filters (customFilters : option Filters) : Filters :=
  default ∅ customFilters ∪ defaultFilters.

(** [if (this.options.directLink) this.options.plugins.push(new DirectLinkPlugin())];
    the array is the one [this.options] holds. *)
Definition push_directLink (options : Options Env) : Options Env :=
  {| options_plugins :=
       if truthy (options_directLink options)
       then options_plugins options ++ [DirectLinkPlugin_new]
       else options_plugins options;
     options_directLink := options_directLink options;
     options_customFilters := options_customFilters options |}.

(** The plugins of [plugins] are initialised one after the other, from the
    world [w] on; the first that throws ends it. *)
Fixpoint init_in_turn (plugins : list (Plugin Env)) (w : World Env)
    : Outcome unit * World Env :=
  match plugins with
  | [] => (Return tt, w)
  | p :: rest =>
      match plugin_init p w with
      | (Return _, w') => init_in_turn rest w'
      | (Throw e, w') => (Throw e, w')
      end
  end.

(** [constructor(client: Client, otp: DisTubeOptions = {})].  [super()] and
    [setMaxListeners(1)] concern the emitter alone and leave no mark here. *)
Definition constructor (client otp : Value) : M (St Env) (DisTube Env) :=
  if negb (isClientInstance client)
  then throw (DisTubeError INVALID_TYPE "client") else
  call "checkIntents" (checkIntents (client_options client)) ;;
  options <- call "new Options"
               (Options_new (match otp with VUndefined => None | _ => Some otp end)) ;;
  call "new DisTubeVoiceManager" DisTubeVoiceManager_new ;;
  call "new DisTubeHandler" DisTubeHandler_new ;;
  call "new QueueManager" QueueManager_new ;;
  let filters := merge_filters (options_customFilters options) in
  let options := push_directLink options in
  init_each (options_plugins options) ;;
  ret {| d_client := client;
         d_options := options;
         d_filters := filters;
         d_extractorPlugins := List.filter (has_type EXTRACTOR) (options_plugins options);
         d_customPlugins := List.filter (has_type CUSTOM) (options_plugins options) |}.

End Constructor.

(** ** A small installation

    One guild, one queue, and collaborators simple enough to run: the
    search library is offline for as many requests as the environment says. *)

Module Sample.

Definition is_object (v : Value) : bool :=
  match v with
  | VObject _ => true
  | _ => false
  end.

Definition is_http (song : SongArg) : bool :=
  match song with
  | SString s => String.prefix "http" s
  | _ => false
  end.

Definition offline : Thrown := JSError "Error" "offline".

Definition search_library (query : string) (opts : SearchOpts) (cookie : Value)
    (w : World nat) : Outcome (list YtsrItem) * World nat :=
  match env w with
  | O => (Return [{| item_type := "video"; item_url := "https://a/" +:+ query |}], w)
  | S n => (Throw offline, {| queues := queues w; heap := heap w; env := n |})
  end.

Definition resolver (song : SongArg) (o : ResolveOptions) (w : World nat)
    : Outcome Resolved * World nat :=
  match song with
  | SString s =>
      if String.eqb s "https://gone" then (Throw (JSError "Error" "gone"), w)
      else (Return (RSong {| song_url := s |}), w)
  | SSong s => (Return (RSong s), w)
  | SSearchResult r => (Return (RSong {| song_url := result_url r |}), w)
  | SPlaylist p => (Return (RPlaylist p), w)
  | SUndefined => (Throw (JSError "TypeError" "no song"), w)
  end.

Definition songs_of (resolved : list Resolved) : list Song :=
  omap (fun r => match r with RSong s => Some s | RPlaylist _ => None end) resolved.

Definition done {A} (a : A) (w : World nat) : Outcome A * World nat := (Return a, w).

(** A task that sets the volume of its queue to 50 and leaves the rest. *)
Definition halve_volume (q : QueueRef) (w : World nat) : World nat :=
  {| queues := queues w;
     heap := alter (fun Q => {| q_taskQueue := q_taskQueue Q; q_volume := num 50;
                                q_stream_volume := num 50;
                                q_repeatMode := q_repeatMode Q;
                                q_autoplay := q_autoplay Q |}) q (heap w);
     env := env w |}.

Definition installation_with (plugins : list (CustomPlugin nat))
    (playSong : Value -> Song -> PlayHandlerOptions -> World nat -> Outcome unit * World nat)
    (resolve : SongArg -> ResolveOptions -> World nat -> Outcome Resolved * World nat)
    : Collaborators nat := {|
  isSupportedVoiceChannel := is_object;
  isMessageInstance := is_object;
  isTextChannelInstance := is_object;
  isMemberInstance := is_object;
  isURL := is_http;
  guild_me := fun _ => VObject 2%positive;
  channel_of := fun _ => VObject 3%positive;
  StringToNumber := fun _ => NaN;
  ObjectToNumber := fun _ => NaN;
  resolveGuildId := fun v => match v with VString s => s | _ => "guild" end;
  customPlugins := plugins;
  ytCookie := VUndefined;
  ytsr := search_library;
  handler_searchSong := fun _ _ => done None;
  handler_resolve := resolve;
  handler_playPlaylist := fun _ _ _ => done tt;
  handler_playSong := playSong;
  Playlist_new := fun resolved _ _ _ =>
    Return {| playlist_url := ""; playlist_songs := songs_of resolved |};
  scheduler := [2; 0; 1]%nat;
  Queue_pause := fun q => done q;
  Queue_resume := fun q => done q;
  Queue_shuffle := fun q => done q;
  Queue_stop := fun _ => done tt;
  Queue_skip := fun _ => done {| song_url := "next" |};
  Queue_previous := fun _ => done {| song_url := "previous" |};
  Queue_addRelatedSong := fun _ => done {| song_url := "related" |};
  Queue_jump := fun _ _ => done {| song_url := "jumped" |};
  Queue_seek := fun q _ => done q;
  task_runs := halve_volume |}.

(** No plugins, and a handler that plays without a trace. *)
Definition installation
    (resolve : SongArg -> ResolveOptions -> World nat -> Outcome Resolved * World nat)
    : Collaborators nat :=
  installation_with [] (fun _ _ _ => done tt) resolve.

Definition collaborators : Collaborators nat := installation resolver.

(** A handler that leaves a note of the position it is given: the
    environment becomes [1] for the position 1, and [0] for any other. *)
Definition note_position (o : PlayHandlerOptions) (w : World nat) : Outcome unit * World nat :=
  (Return tt,
   {| queues := queues w; heap := heap w;
      env := if num_eq (h_position o) (num 1) then 1%nat else 0%nat |}).

Definition noting : Collaborators nat :=
  installation_with [] (fun _ _ o => note_position o) resolver.

(** A plugin that takes the strings with a given prefix, and leaves its mark
    in the environment when it plays. *)
Definition a_plugin (prefix : string) (mark : nat) : CustomPlugin nat :=
  {| plugin_validate := fun song => done (String.prefix prefix song);
     plugin_play := fun _ _ _ w =>
       (Return tt, {| queues := queues w; heap := heap w; env := mark |}) |}.

(** Three plugins; the last would take any string. *)
Definition three_plugins : list (CustomPlugin nat) :=
  [a_plugin "radio:" 1; a_plugin "file:" 2; a_plugin "" 3].

Definition with_plugins : Collaborators nat :=
  installation_with three_plugins (fun _ _ _ => done tt) resolver.

(** A resolver that is not deterministic: it answers as long as the
    environment's budget lasts. *)
Definition rationed_resolver (song : SongArg) (o : ResolveOptions) (w : World nat)
    : Outcome Resolved * World nat :=
  match env w with
  | O => (Throw (JSError "Error" "rate limit"), w)
  | S n => resolver song o {| queues := queues w; heap := heap w; env := n |}
  end.

Definition rationed : Collaborators nat := installation rationed_resolver.

Definition voiceChannel : Value := VObject 1%positive.

Definition three_songs : SongsArg :=
  SongsArray [IString "https://a/1"; IString "https://a/2"; IString "https://a/3"].

Definition with_message : PlayOptions :=
  {| opt_member := None; opt_textChannel := None; opt_skip := None;
     opt_position := None; opt_message := Some (VObject 5%positive);
     opt_metadata := None |}.

(** [{ skip: true, position: 0 }]. *)
Definition skip_at_0 : PlayOptions :=
  {| opt_member := None; opt_textChannel := None; opt_skip := Some (VBool true);
     opt_position := Some (VNumber (num 0)); opt_message := None;
     opt_metadata := None |}.

Definition queue : QueueRef := 1%positive.

(** A queue whose task queue holds [tasks]. *)
Definition a_queue (tasks : TaskQueue.t) : Queue :=
  {| q_taskQueue := tasks; q_volume := num 100; q_stream_volume := num 100;
     q_repeatMode := DISABLED; q_autoplay := false |}.

(** The guild's queue is registered; [failures] requests to [ytsr] will fail. *)
Definition registered (tasks : TaskQueue.t) (failures : nat) : St nat :=
  {| world := {| queues := {[ "guild" := queue ]};
                 heap := {[ queue := a_queue tasks ]};
                 env := failures |};
     trace := [] |}.

(** No queue at all. *)
Definition unregistered (failures : nat) : St nat :=
  {| world := {| queues := ∅; heap := ∅; env := failures |}; trace := [] |}.

Definition a_song : SongArg := SSong {| song_url := "https://a/1" |}.

Definition no_options : CustomPlaylistOptions :=
  {| c_member := None; c_properties := None; c_parallel := None; c_metadata := None |}.

Definition no_search_options : SearchOptions :=
  {| s_type := None; s_limit := None; s_safeSearch := None; s_retried := None |}.

End Sample.

(** A client with plugins to construct a [DisTube] from. *)
Module SampleSetup.

Definition plugin (type : string) : Plugin nat :=
  {| plugin_type := type; plugin_init := Sample.done tt |}.

Definition some_plugins : list (Plugin nat) :=
  [plugin "custom"; plugin "extractor"; plugin "other"; plugin "custom"].

Definition some_options : Options nat :=
  {| options_plugins := some_plugins;
     options_directLink := VBool true;
     options_customFilters := Some {[ "bassboost" := "bass=g=20" ]} |}.

Definition construction : Construction nat := {|
  isClientInstance := Sample.is_object;
  client_options := fun _ => VObject 7%positive;
  checkIntents := fun _ => Sample.done tt;
  Options_new := fun _ => Sample.done some_options;
  DisTubeVoiceManager_new := Sample.done tt;
  DisTubeHandler_new := Sample.done tt;
  QueueManager_new := Sample.done tt;
  defaultFilters := {[ "bassboost" := "bass=g=10"; "nightcore" := "asetrate=48000*1.25" ]};
  DirectLinkPlugin_new := plugin "extractor" |}.

Definition client : Value := VObject 6%positive.

(** The instance the constructor builds from them. *)
Definition built : DisTube nat :=
  {| d_client := client;
     d_options :=
       {| options_plugins := some_plugins ++ [plugin "extractor"];
          options_directLink := VBool true;
          options_customFilters := Some {[ "bassboost" := "bass=g=20" ]} |};
     d_filters :=
       {[ "bassboost" := "bass=g=20"; "nightcore" := "asetrate=48000*1.25" ]};
     d_extractorPlugins := [plugin "extractor"; plugin "extractor"];
     d_customPlugins := [plugin "custom"; plugin "custom"] |}.

End SampleSetup.

(** * Properties *)

Section Properties.

Context {Env : Type} {collaborators : Collaborators Env}.

Abbreviation State := (St Env).

(** Runs the monad's plumbing. *)
Ltac run :=
  unfold bind, ret, throw, try_catch, try_finally, get_local, set_local, lift,
    with_local, emit, call, invoke, settles, read_queue, update_queue; cbn.

(** ** The registry *)

Lemma getQueue_lookup (guild : Value) (st : State) :
  getQueue guild st = (Return (queues (world st) !! resolveGuildId guild), st).
Proof. reflexivity. Qed.

Lemma getQueue'_registered (guild : Value) (st : State) (q : QueueRef) :
  queues (world st) !! resolveGuildId guild = Some q ->
  getQueue' guild st = (Return q, st).
Proof. intros H. unfold getQueue', getQueue, QueueManager_get. run. now rewrite H. Qed.

Lemma getQueue'_missing (guild : Value) (st : State) :
  queues (world st) !! resolveGuildId guild = None ->
  getQueue' guild st = (Throw (DisTubeError NO_QUEUE ""), st).
Proof. intros H. unfold getQueue', getQueue, QueueManager_get. run. now rewrite H. Qed.

(** ** Waiting for the lock *)

(** The wait ends, and it adds nothing to the caller's trace. *)
Lemma await_head_returns (q : QueueRef) (ahead : nat) (st : State) :
  await_head q ahead st = (Return tt, snd (await_head q ahead st)) /\
  trace (snd (await_head q ahead st)) = trace st.
Proof.
  revert st. induction ahead as [|ahead IH]; intros st; [now split|].
  cbn [await_head]. unfold bind, update_queue. cbn [fst snd].
  match goal with |- context [await_head q ahead ?s] => destruct (IH s) as [Hr Ht] end.
  split; [now rewrite Hr at 1|]. now rewrite Ht.
Qed.

Lemma TaskQueue_queuing_returns (queue : option QueueRef) (isResolveTask : bool)
    (st : State) :
  TaskQueue_queuing queue isResolveTask st
  = (Return tt, snd (TaskQueue_queuing queue isResolveTask st)).
Proof.
  destruct queue as [q|]; [|reflexivity]. unfold TaskQueue_queuing.
  unfold bind, read_queue, update_queue, emit. cbn [fst snd].
  match goal with |- context [await_head q ?n ?s] => now destruct (await_head_returns q n s) end.
Qed.

Lemma TaskQueue_queuing_trace (q : QueueRef) (isResolveTask : bool) (st : State) :
  trace (snd (TaskQueue_queuing (Some q) isResolveTask st))
  = trace st ++ [EQueuing q isResolveTask].
Proof.
  unfold TaskQueue_queuing. unfold bind, read_queue, update_queue, emit. cbn [fst snd].
  match goal with |- context [await_head q ?n ?s] =>
    destruct (await_head_returns q n s) as [_ Ht] end.
  now rewrite Ht.
Qed.

Lemma TaskQueue_resolve_trace (q : QueueRef) (st : State) :
  trace (snd (TaskQueue_resolve (Some q) st)) = trace st ++ [EResolve q].
Proof. reflexivity. Qed.

(** C8: for a guild with no registered queue, [getQueue] returns [undefined]
    and throws nothing, while each of the twelve queue-scoped commands throws
    the not-found error [NO_QUEUE] (and does nothing else). *)
Theorem no_queue_is_not_found (guild : Value) (st : State) :
  queues (world st) !! resolveGuildId guild = None ->
  let not_found {A} : Outcome A * State := (Throw (DisTubeError NO_QUEUE ""), st) in
  getQueue guild st = (Return None, st) /\
  pause guild st = not_found /\
  resume guild st = not_found /\
  stop guild st = not_found /\
  (forall percent, setVolume guild percent st = not_found) /\
  skip guild st = not_found /\
  previous guild st = not_found /\
  shuffle guild st = not_found /\
  (forall n, jump guild n st = not_found) /\
  (forall mode, setRepeatMode guild mode st = not_found) /\
  toggleAutoplay guild st = not_found /\
  addRelatedSong guild st = not_found /\
  (forall time, seek guild time st = not_found).
Proof.
  intros H not_found. split.
  - rewrite getQueue_lookup. now rewrite H.
  - unfold pause, resume, stop, setVolume, skip, previous, shuffle, jump,
      setRepeatMode, toggleAutoplay, addRelatedSong, seek, bind.
    rewrite (getQueue'_missing _ _ H). repeat split.
Qed.

(** ** Volume and repeat mode *)

Lemma not_positive (percent : number) :
  percent = num 0 \/ num_lt percent (num 0) = true -> num_lt (num 0) percent = false.
Proof.
  intros [-> | H]; [reflexivity|].
  destruct percent as [s | s | | s m e]; try destruct s; try reflexivity; discriminate H.
Qed.

(** C6: with a queue registered for the guild, [setVolume] asks for
    [percent > 0]: for [0] and for a negative percent it fails with an
    invalid-argument error and changes nothing, while [setVolume(150)]
    succeeds and sets the volume of the queue and of its stream to 150. *)
Theorem setVolume_validates_percent (guild : Value) (st : State) (q : QueueRef) (Q : Queue) :
  queues (world st) !! resolveGuildId guild = Some q ->
  heap (world st) !! q = Some Q ->
  (forall percent, percent = num 0 \/ num_lt percent (num 0) = true ->
     exists e, setVolume guild percent st = (Throw e, st) /\ is_invalid_argument e = true) /\
  (exists st', setVolume guild (num 150) st = (Return q, st') /\
     heap (world st') !! q = Some (with_volume (num 150) Q) /\
     q_volume (with_volume (num 150) Q) = num 150 /\
     q_stream_volume (with_volume (num 150) Q) = num 150).
Proof.
  intros Hq HQ. unfold setVolume, bind. rewrite (getQueue'_registered _ _ _ Hq). split.
  - intros percent Hp. unfold Queue_setVolume. rewrite (not_positive _ Hp).
    eexists. split; reflexivity.
  - eexists. split; [reflexivity|]. cbn. rewrite lookup_alter_eq, HQ. auto.
Qed.

Lemma set_heap_same (st : State) (h : gmap QueueRef Queue) :
  h = heap (world st) -> set_heap h st = st.
Proof. intros ->. now destruct st as [[] ?]. Qed.

Lemma setRepeatMode_toggle (guild : Value) (st : State) (q : QueueRef) (Q : Queue) :
  queues (world st) !! resolveGuildId guild = Some q ->
  heap (world st) !! q = Some Q ->
  setRepeatMode guild None st =
    (Return (num (RepeatMode_value (next_RepeatMode (q_repeatMode Q)))),
     set_heap (<[q := with_repeatMode (next_RepeatMode (q_repeatMode Q)) Q]> (heap (world st))) st).
Proof.
  intros Hq HQ. unfold setRepeatMode, bind. rewrite (getQueue'_registered _ _ _ Hq).
  unfold Queue_setRepeatMode. run. rewrite HQ. cbn. do 2 f_equal.
  apply map_eq. intros i. destruct (decide (q = i)) as [<- | Hne].
  - now rewrite lookup_alter_eq, lookup_insert_eq, HQ.
  - now rewrite lookup_alter_ne, lookup_insert_ne.
Qed.

(** C7: with a queue registered for the guild, [setRepeatMode] without a
    mode steps along DISABLED → SONG → QUEUE → DISABLED and returns the mode it
    arrives at; three such calls in a row bring the queue back to where it
    started. *)
Theorem setRepeatMode_cycles (guild : Value) (st : State) (q : QueueRef) (Q : Queue) :
  queues (world st) !! resolveGuildId guild = Some q ->
  heap (world st) !! q = Some Q ->
  let after := match q_repeatMode Q with
               | DISABLED => SONG
               | SONG => QUEUE
               | QUEUE => DISABLED
               end in
  (exists st', setRepeatMode guild None st = (Return (num (RepeatMode_value after)), st') /\
     q_repeatMode <$> heap (world st') !! q = Some after) /\
  (setRepeatMode guild None ;; setRepeatMode guild None ;; setRepeatMode guild None) st =
    (Return (num (RepeatMode_value (q_repeatMode Q))), st).
Proof.
  intros Hq HQ after. split.
  - eexists. split; [apply (setRepeatMode_toggle _ _ _ _ Hq HQ)|].
    cbn. rewrite lookup_insert_eq. reflexivity.
  - unfold bind.
    rewrite (setRepeatMode_toggle _ _ _ _ Hq HQ).
    erewrite setRepeatMode_toggle; [|exact Hq|cbn; apply lookup_insert_eq].
    erewrite setRepeatMode_toggle; [|exact Hq|cbn; apply lookup_insert_eq].
    cbn. rewrite !insert_insert_eq.
    assert (forall m, next_RepeatMode (next_RepeatMode (next_RepeatMode m)) = m) as ->
      by now intros [].
    f_equal. destruct st as [[qs h e] tr]. cbn in *. unfold set_heap. cbn.
    do 2 f_equal. apply insert_id. rewrite HQ. now destruct Q.
Qed.

(** ** Arguments are checked first *)

(** C3: on an invalid-argument input ([voiceChannel] no supported voice
    channel, [options] no object, or a [message], [textChannel] or [member]
    that is given and of the wrong type) [play] throws an [INVALID_TYPE] error
    at once: nothing was queued, nothing called, and the world, with every
    queue and task queue in it, is as it was. *)
Theorem play_checks_arguments_first
    (voiceChannel : Value) (song : SongArg) (options : OptionsArg) (st : State) :
  play_invalid_argument voiceChannel options ->
  exists name,
    play voiceChannel song options st = (Throw (DisTubeError INVALID_TYPE name), st) /\
    is_invalid_argument (DisTubeError INVALID_TYPE name) = true.
Proof.
  unfold play_invalid_argument, play. intros H.
  destruct (isSupportedVoiceChannel voiceChannel) eqn:Hvc; cbn [negb];
    [|eexists; split; reflexivity].
  destruct (default_options options) as [o | v] eqn:Ho;
    [|eexists; split; reflexivity].
  destruct (truthy (get (opt_message o)) && negb (isMessageInstance (get (opt_message o))))
    eqn:Hmessage; [eexists; split; reflexivity|].
  destruct (truthy (play_textChannel o) && negb (isTextChannelInstance (play_textChannel o)))
    eqn:Hchannel; [eexists; split; reflexivity|].
  destruct (truthy (play_member voiceChannel o)
            && negb (isMemberInstance (play_member voiceChannel o)))
    eqn:Hmember; [eexists; split; reflexivity|].
  exfalso. destruct H as [H | [[v H] | (o' & Heq & H)]]; try discriminate.
  injection Heq as <-.
  destruct H as [(v & Hv & Ht & Hg) | [(v & Hv & Ht & Hg) | (v & Hv & Ht & Hg)]].
  - rewrite Hv in Hmessage. cbn in Hmessage. now rewrite Ht, Hg in Hmessage.
  - unfold play_textChannel in Hchannel. rewrite Hv in Hchannel. cbn in Hchannel.
    now rewrite Ht, Hg in Hchannel.
  - unfold play_member in Hmember. rewrite Hv in Hmember. cbn in Hmember.
    now rewrite Ht, Hg in Hmember.
Qed.

(** C5: [createCustomPlaylist] turns down an empty array with
    [EMPTY_ARRAY], and a non-empty array none of whose elements is a [Song], is
    accepted by [isURL] or is a search result of type video with
    [NO_VALID_SONG]; either way before anything is resolved: no call is made
    and the world is as it was. *)
Theorem createCustomPlaylist_turns_down
    (songs : list PlaylistItem) (options : CustomPlaylistOptions) (st : State) :
  (songs = [] ->
   createCustomPlaylist (SongsArray songs) options st
   = (Throw (DisTubeError EMPTY_ARRAY "songs"), st)) /\
  (songs <> [] ->
   Forall (fun song => instanceof_Song song = false /\ isURL (item_arg song) = false
                       /\ is_video_result song = false) songs ->
   createCustomPlaylist (SongsArray songs) options st
   = (Throw (DisTubeError NO_VALID_SONG ""), st)).
Proof.
  split.
  - now intros ->.
  - intros Hne Hall. unfold createCustomPlaylist.
    destruct songs as [|song songs]; [congruence|]. cbn [length Nat.eqb].
    replace (List.filter valid_song (song :: songs)) with (@nil PlaylistItem); [reflexivity|].
    symmetry. revert Hall. generalize (song :: songs). clear.
    induction 1 as [|x l (Hs & Hu & Hv) _ IH]; [reflexivity|].
    cbn. unfold valid_song at 1. now rewrite Hs, Hu, Hv.
Qed.

(** ** [search] *)

Lemma search_step (query : string) (options : SearchOptions) (st : State) :
  search query options st =
    match search_invalid (search_opts options) with
    | Some e => throw e st
    | None =>
        try_catch (search_try query (search_opts options))
          (fun e => if retried options then throw e
                    else search query (set_retried options)) st
    end.
Proof.
  rewrite search_equation_1. cbv zeta.
  destruct (search_invalid (search_opts options)); [reflexivity|].
  unfold try_catch. destruct (search_try query (search_opts options) st) as [[results | e] st1];
    [reflexivity|].
  now destruct (retried options).
Qed.

Lemma search_invalid_set_retried (options : SearchOptions) :
  search_invalid (search_opts (set_retried options)) = search_invalid (search_opts options).
Proof. reflexivity. Qed.

Lemma search_try_trace (query : string) (opts : SearchOpts) (st : State) :
  trace (snd (search_try query opts st)) = trace st ++ [ECall "ytsr"].
Proof.
  unfold search_try. run. destruct (ytsr query opts ytCookie (world st)) as [[items | e] w];
    [|reflexivity].
  cbn. now destruct (length (map to_SearchResult items) =? 0)%nat.
Qed.

Lemma search_try_not_empty (query : string) (opts : SearchOpts) (st st' : State)
    (results : list SearchResult) :
  search_try query opts st = (Return results, st') -> results <> [].
Proof.
  unfold search_try. run. destruct (ytsr query opts ytCookie (world st)) as [[items | e] w];
    [|discriminate].
  cbn. destruct (length (map to_SearchResult items) =? 0)%nat eqn:Hlen; [discriminate|].
  intros [= <- _] Heq. now rewrite Heq in Hlen.
Qed.

(** A call that is marked as retried is one request and its outcome. *)
Lemma search_retried (query : string) (options : SearchOptions) (st : State) :
  search_invalid (search_opts options) = None ->
  retried options = true ->
  search query options st = search_try query (search_opts options) st.
Proof.
  intros Hvalid Hretried. rewrite search_step, Hvalid, Hretried. unfold try_catch.
  now destruct (search_try query (search_opts options) st) as [[results | e] st1].
Qed.

(** C4, as amended: a call of [search] returns a non-empty array or it
    throws.  Let its arguments pass the checks.  When the first request
    succeeds, its results are returned after that one request; zero items count
    as a failure, [NO_RESULT].  When it fails and [options.retried] is not yet
    set, the request is repeated once, with the query, type, limit and
    safe-search setting of the first, and the outcome of the repetition, result
    or error, is the outcome of the call: two requests, never a third.  When it
    fails and the caller had set [options.retried], the error goes to the caller
    at once, after one request. *)
Theorem search_retries_once (query : string) (options : SearchOptions) (st : State) :
  (forall results st', search query options st = (Return results, st') -> results <> []) /\
  (search_invalid (search_opts options) = None ->
   (forall w, ytsr query (search_opts options) ytCookie (world st) = (Return [], w) ->
      fst (search_try query (search_opts options) st) = Throw (DisTubeError NO_RESULT "")) /\
   (forall results st1, search_try query (search_opts options) st = (Return results, st1) ->
      search query options st = (Return results, st1) /\
      trace st1 = trace st ++ [ECall "ytsr"]) /\
   (forall e st1, search_try query (search_opts options) st = (Throw e, st1) ->
      if retried options
      then search query options st = (Throw e, st1) /\
           trace st1 = trace st ++ [ECall "ytsr"]
      else let again := search_opts (set_retried options) in
           search query options st = search_try query again st1 /\
           trace (snd (search query options st)) = trace st ++ [ECall "ytsr"; ECall "ytsr"] /\
           (o_type again, o_limit again, o_safeSearch again)
           = (o_type (search_opts options), o_limit (search_opts options),
              o_safeSearch (search_opts options)))).
Proof.
  split.
  { intros results st' Hsearch. rewrite search_step in Hsearch.
    destruct (search_invalid (search_opts options)) eqn:Hvalid; [discriminate|].
    unfold try_catch in Hsearch.
    destruct (search_try query (search_opts options) st) as [[first | e] st1] eqn:Hfirst.
    - injection Hsearch as <- <-. eapply search_try_not_empty, Hfirst.
    - destruct (retried options) eqn:Hfresh; [discriminate|].
      rewrite search_retried in Hsearch; [|now rewrite search_invalid_set_retried|reflexivity].
      eapply search_try_not_empty, Hsearch. }
  intros Hvalid.
  assert (forall e st1, search_try query (search_opts options) st = (Throw e, st1) ->
          retried options = false ->
          search query options st = search_try query (search_opts (set_retried options)) st1)
    as Hretry.
  { intros e st1 Hfirst Hfresh. rewrite search_step, Hvalid. unfold try_catch.
    rewrite Hfirst, Hfresh. apply search_retried; [|reflexivity].
    now rewrite search_invalid_set_retried. }
  assert (forall r st1, search_try query (search_opts options) st = (r, st1) ->
          trace st1 = trace st ++ [ECall "ytsr"]) as Hone.
  { intros r st1 Hfirst. pose proof (search_try_trace query (search_opts options) st) as H.
    now rewrite Hfirst in H. }
  split; [|split].
  - intros w Hzero. unfold search_try. run. now rewrite Hzero.
  - intros results st1 Hfirst. split; [|eapply Hone, Hfirst].
    rewrite search_step, Hvalid. unfold try_catch. now rewrite Hfirst.
  - intros e st1 Hfirst. destruct (retried options) eqn:Hfresh.
    + split; [|eapply Hone, Hfirst].
      rewrite search_retried by assumption. exact Hfirst.
    + cbv zeta. split; [now apply (Hretry e)|]. split; [|reflexivity].
      rewrite (Hretry e st1 Hfirst eq_refl), search_try_trace, (Hone _ _ Hfirst).
      now rewrite <- app_assoc.
Qed.

(** ** What [play] lets be seen *)

Section OnlyCalls.

Context {S : Type} (tr : S -> list Event).

Lemma only_calls_silent {A} (m : M S A) :
  (forall s, tr (snd (m s)) = tr s) -> only_calls tr m.
Proof. intros H s. exists []. now rewrite H, app_nil_r. Qed.

Lemma only_calls_ret {A} (a : A) : only_calls tr (ret a).
Proof. now apply only_calls_silent. Qed.

Lemma only_calls_throw {A} (e : Thrown) : only_calls tr (@throw S A e).
Proof. now apply only_calls_silent. Qed.

Lemma only_calls_bind {A B} (m : M S A) (k : A -> M S B) :
  only_calls tr m -> (forall a, only_calls tr (k a)) -> only_calls tr (bind m k).
Proof.
  intros Hm Hk s. unfold bind. destruct (Hm s) as (c1 & H1 & F1).
  destruct (m s) as [[a | e] s1]; cbn in *; [|now exists c1].
  destruct (Hk a s1) as (c2 & H2 & F2). exists (c1 ++ c2).
  rewrite H2, H1, app_assoc. split; [reflexivity|]. now apply Forall_app.
Qed.

Lemma only_calls_try_catch {A} (m : M S A) (h : Thrown -> M S A) :
  only_calls tr m -> (forall e, only_calls tr (h e)) -> only_calls tr (try_catch m h).
Proof.
  intros Hm Hh s. unfold try_catch. destruct (Hm s) as (c1 & H1 & F1).
  destruct (m s) as [[a | e] s1]; cbn in *; [now exists c1|].
  destruct (Hh e s1) as (c2 & H2 & F2). exists (c1 ++ c2).
  rewrite H2, H1, app_assoc. split; [reflexivity|]. now apply Forall_app.
Qed.

Lemma only_calls_ext {A} (m m' : M S A) :
  (forall s, m s = m' s) -> only_calls tr m' -> only_calls tr m.
Proof. intros Heq H s. rewrite Heq. apply H. Qed.

End OnlyCalls.

Lemma only_calls_call {A} (callee : string) (f : World Env -> Outcome A * World Env) :
  only_calls trace (call callee f).
Proof.
  intros st. exists [ECall callee]. unfold call. destruct (f (world st)).
  split; [reflexivity|]. now repeat constructor.
Qed.

Lemma only_calls_lift {A} (l : Type) (m : M State A) :
  only_calls trace m -> only_calls (fun s : State * l => trace (fst s)) (lift m).
Proof.
  intros H [st x]. destruct (H st) as (calls & Ht & Hc). exists calls.
  unfold lift. cbn. now destruct (m st).
Qed.

Lemma search_only_calls (query : string) (options : SearchOptions) :
  only_calls trace (search query options).
Proof.
  assert (forall opts, only_calls trace (search_try query opts)) as Htry.
  { intros opts. unfold search_try. apply only_calls_bind; [apply only_calls_call|].
    intros items. destruct (_ =? _)%nat; [apply only_calls_throw|apply only_calls_ret]. }
  assert (forall options, retried options = true -> only_calls trace (search query options))
    as Hretried.
  { intros o Ho. eapply only_calls_ext; [intros st; apply search_step|]. rewrite Ho.
    destruct (search_invalid _); [apply only_calls_throw|].
    apply only_calls_try_catch; [apply Htry|]. intros e. apply only_calls_throw. }
  eapply only_calls_ext; [intros st; apply search_step|].
  destruct (search_invalid _); [apply only_calls_throw|].
  apply only_calls_try_catch; [apply Htry|]. intros e.
  destruct (retried options); [apply only_calls_throw|]. now apply Hretried.
Qed.

Lemma play_plugins_only_calls (plugins : list (CustomPlugin Env))
    (voiceChannel : Value) (song : string) (options : OptionsArg) :
  only_calls trace (play_plugins plugins voiceChannel song options).
Proof.
  induction plugins as [|plugin rest IH]; cbn; [apply only_calls_ret|].
  apply only_calls_bind; [apply only_calls_call|]. intros [|]; [|exact IH].
  apply only_calls_bind; [apply only_calls_call|]. intros _. apply only_calls_ret.
Qed.

Lemma play_try_only_calls (voiceChannel : Value) (options : OptionsArg)
    (message member metadata textChannel skip : Value) (position : number) :
  only_calls (fun s : State * SongArg => trace (fst s))
    (play_try voiceChannel options message member metadata textChannel skip position).
Proof.
  pose proof (@only_calls_lift) as Hlift.
  assert (forall A (a : A), only_calls (fun s : State * SongArg => trace (fst s)) (ret a))
    as Hret by (intros; apply only_calls_ret).
  assert (forall l, only_calls (fun s : State * SongArg => trace (fst s)) (set_local l))
    as Hset by (intros; now apply only_calls_silent).
  assert (only_calls (fun s : State * SongArg => trace (fst s)) get_local)
    as Hget by now apply only_calls_silent.
  unfold play_try.
  apply only_calls_bind; [exact Hget|]. intros song.
  apply only_calls_bind.
  { destruct song; try apply Hret. apply Hlift, play_plugins_only_calls. }
  intros [|]; [apply Hret|].
  apply only_calls_bind.
  { destruct song; try apply Hret. destruct (negb (isURL _)); [|apply Hret].
    destruct (negb (truthy message)).
    - apply only_calls_bind; [apply Hlift, search_only_calls|]. intros results.
      apply only_calls_bind; [apply Hset|]. intros _. apply Hret.
    - apply only_calls_bind; [apply Hlift, only_calls_call|]. intros [r|]; [|apply Hret].
      apply only_calls_bind; [apply Hset|]. intros _. apply Hret. }
  intros [|]; [apply Hret|].
  apply only_calls_bind; [exact Hget|]. intros song'.
  apply only_calls_bind; [apply Hlift, only_calls_call|]. intros resolved.
  apply only_calls_bind; [apply Hset|]. intros _.
  destruct resolved; apply Hlift, only_calls_call.
Qed.

(** ** The lock of [play] *)

Lemma hasResolveTask_elem (tasks : TaskQueue.t) :
  TaskQueue.hasResolveTask tasks = true <-> true ∈ tasks.
Proof.
  unfold TaskQueue.hasResolveTask. rewrite existsb_exists, list_elem_of_In. split.
  - now intros ([|] & Hin & Hx).
  - intros Hin. now exists true.
Qed.

Lemma hasResolveTask_lookup (q : QueueRef) (Q : Queue) (st : State) :
  heap (world st) !! q = Some Q ->
  hasResolveTask q st = (Return (TaskQueue.hasResolveTask (q_taskQueue Q)), st).
Proof. intros HQ. unfold hasResolveTask, read_queue. now rewrite HQ. Qed.

(** Past its checks, with a queue registered, [play] is its guarded block, run
    after [queuing(true)] when no resolve-class task was there and run as it
    stands when one was. *)
Lemma play_accepted (voiceChannel : Value) (song : SongArg) (options : OptionsArg)
    (o : PlayOptions) (st : State) (q : QueueRef) (busy : bool) :
  play_accepts voiceChannel options o ->
  queues (world st) !! resolveGuildId voiceChannel = Some q ->
  hasResolveTask q st = (Return busy, st) ->
  play voiceChannel song options st =
    with_local song (play_guarded (Some q) (negb busy) (play_block voiceChannel o))
      (if busy then st else snd (TaskQueue_queuing (Some q) true st)).
Proof.
  intros (Hvc & Ho & Hmessage & Hchannel & Hmember) Hq Hbusy. unfold play.
  rewrite Hvc, Ho. cbn [negb].
  assert (forall v (guard : Value -> bool),
            (truthy v = true -> guard v = true) -> truthy v && negb (guard v) = false) as Hcheck.
  { intros v guard H. destruct (truthy v); [|reflexivity]. now rewrite H. }
  rewrite (Hcheck _ _ Hmessage), (Hcheck _ _ Hchannel), (Hcheck _ _ Hmember).
  unfold bind at 1. rewrite getQueue_lookup, Hq.
  unfold bind at 1. unfold bind at 1. rewrite Hbusy. unfold ret at 1.
  unfold bind. destruct busy; cbn [negb]; [reflexivity|].
  now rewrite TaskQueue_queuing_returns.
Qed.

(** The guarded block with the lock taken: the block's way out is the way out,
    but for the errors, which go through the [catch] clause, and [resolve()]
    is applied to the state that the block left. *)
Lemma play_guarded_locked (q : QueueRef) (body : M (State * SongArg) unit)
    (st : State) (song : SongArg) :
  with_local song (play_guarded (Some q) true body) st
  = (match fst (body (st, song)) with
     | Return _ => Return tt
     | Throw e => Throw (PlayError (snd (snd (body (st, song)))) e)
     end,
     snd (TaskQueue_resolve (Some q) (fst (snd (body (st, song)))))).
Proof.
  unfold with_local, play_guarded, try_finally, try_catch.
  now destruct (body (st, song)) as [[[] | e] [st1 song1]].
Qed.

(** The guarded block with the lock not taken: nothing but calls. *)
Lemma play_guarded_unlocked (queue : option QueueRef) (body : M (State * SongArg) unit)
    (st : State) (song : SongArg) :
  only_calls (fun s : State * SongArg => trace (fst s)) body ->
  exists calls,
    Forall (fun e => is_call e = true) calls /\
    trace (snd (with_local song (play_guarded queue false body) st)) = trace st ++ calls.
Proof.
  intros Hbody.
  assert (only_calls (fun s : State * SongArg => trace (fst s))
            (try_catch body (fun e => song <- get_local ;; throw (PlayError song e)))) as H.
  { apply only_calls_try_catch; [exact Hbody|]. intros e.
    apply only_calls_bind; [now apply only_calls_silent|]. intros x. apply only_calls_throw. }
  destruct (H (st, song)) as (calls & Htrace & Hcalls).
  unfold with_local, play_guarded, try_finally.
  destruct (try_catch _ _ (st, song)) as [r [st_body song']]. cbn in Htrace.
  exists calls. split; [exact Hcalls|]. now destruct r.
Qed.

(** *** Waiting in turn *)

Lemma tasks_kept_refl (q : QueueRef) (w : World Env) : tasks_kept q w w.
Proof. intros Q HQ. now exists Q. Qed.

Lemma tasks_kept_trans (q : QueueRef) (w1 w2 w3 : World Env) :
  tasks_kept q w1 w2 -> tasks_kept q w2 w3 -> tasks_kept q w1 w3.
Proof.
  intros H12 H23 Q1 HQ1. destruct (H12 Q1 HQ1) as (Q2 & HQ2 & Hp12).
  destruct (H23 Q2 HQ2) as (Q3 & HQ3 & Hp23). exists Q3. split; [exact HQ3|].
  now transitivity (q_taskQueue Q2).
Qed.

(** First in, first out: when the tasks ahead leave the queued tasks alone,
    the wait ends with the tasks ahead gone and the rest at the head, in their
    order, with whatever was enqueued meanwhile behind them. *)
Lemma await_head_fifo (q : QueueRef) :
  task_leaves_tasks q ->
  forall (ahead : nat) (st : State) (Q : Queue) (before rest : TaskQueue.t),
    heap (world st) !! q = Some Q ->
    q_taskQueue Q = before ++ rest ->
    length before = ahead ->
    exists Q' more,
      heap (world (snd (await_head q ahead st))) !! q = Some Q' /\
      q_taskQueue Q' = rest ++ more.
Proof.
  intros Hleaves. induction ahead as [|ahead IH]; intros st Q before rest HQ Htasks Hlen.
  - destruct before; [|discriminate]. exists Q, []. cbn. now rewrite app_nil_r.
  - destruct before as [|first before]; [discriminate|]. injection Hlen as Hlen.
    cbn [await_head]. unfold bind, update_queue, set_heap. cbn [fst snd world trace].
    destruct (Hleaves (world st) Q HQ) as (Q1 & HQ1 & [more1 Hmore1]).
    match goal with |- context [await_head q ahead ?s] =>
      destruct (IH s (with_taskQueue TaskQueue.resolve Q1) before (rest ++ more1))
        as (Q' & more & HQ' & Htasks') end.
    + cbn. now rewrite lookup_alter_eq, HQ1.
    + cbn. rewrite Hmore1, Htasks. cbn. now rewrite <- app_assoc.
    + exact Hlen.
    + exists Q', (more1 ++ more). split; [exact HQ'|]. now rewrite Htasks', <- app_assoc.
Qed.

(** So the caller is the head of the task queue when its wait ends. *)
Lemma TaskQueue_queuing_head (q : QueueRef) (isResolveTask : bool) (st : State) (Q : Queue) :
  heap (world st) !! q = Some Q ->
  task_leaves_tasks q ->
  exists Q_head waiting,
    heap (world (snd (TaskQueue_queuing (Some q) isResolveTask st))) !! q = Some Q_head /\
    q_taskQueue Q_head = isResolveTask :: waiting.
Proof.
  intros HQ Hleaves.
  unfold TaskQueue_queuing, bind, read_queue, update_queue, emit. cbn [fst snd].
  rewrite HQ. cbn [fmap option_fmap option_map default from_option id].
  match goal with |- context [await_head q _ ?s] =>
    destruct (await_head_fifo q Hleaves (length (q_taskQueue Q)) s
                (with_taskQueue (TaskQueue.queuing isResolveTask) Q) (q_taskQueue Q)
                [isResolveTask])
      as (Q_head & waiting & HQ_head & Htasks); [|reflexivity|reflexivity|] end.
  { cbn. now rewrite lookup_alter_eq, HQ. }
  now exists Q_head, waiting.
Qed.

(** *** What [play] leaves alone *)

Section Keeps.

Context {S : Type} (R : S -> S -> Prop).
Hypothesis R_refl : forall s, R s s.
Hypothesis R_trans : forall s1 s2 s3, R s1 s2 -> R s2 s3 -> R s1 s3.

Lemma keeps_silent {A} (m : M S A) : (forall s, snd (m s) = s) -> keeps R m.
Proof. intros H s. rewrite H. apply R_refl. Qed.

Lemma keeps_ret {A} (a : A) : keeps R (ret a).
Proof. now apply keeps_silent. Qed.

Lemma keeps_throw {A} (e : Thrown) : keeps R (@throw S A e).
Proof. now apply keeps_silent. Qed.

Lemma keeps_bind {A B} (m : M S A) (k : A -> M S B) :
  keeps R m -> (forall a, keeps R (k a)) -> keeps R (bind m k).
Proof.
  intros Hm Hk s. unfold bind. pose proof (Hm s) as H1.
  destruct (m s) as [[a | e] s1]; cbn in *; [|exact H1].
  eapply R_trans; [exact H1|apply Hk].
Qed.

Lemma keeps_try_catch {A} (m : M S A) (h : Thrown -> M S A) :
  keeps R m -> (forall e, keeps R (h e)) -> keeps R (try_catch m h).
Proof.
  intros Hm Hh s. unfold try_catch. pose proof (Hm s) as H1.
  destruct (m s) as [[a | e] s1]; cbn in *; [exact H1|].
  eapply R_trans; [exact H1|apply Hh].
Qed.

Lemma keeps_ext {A} (m m' : M S A) :
  (forall s, m s = m' s) -> keeps R m' -> keeps R m.
Proof. intros Heq H s. rewrite Heq. apply H. Qed.

End Keeps.

Lemma keeps_call (q : QueueRef) {A} (callee : string)
    (f : World Env -> Outcome A * World Env) :
  leaves_tasks q f -> keeps (tasks_kept_in q) (call callee f).
Proof.
  intros Hf st. unfold call, tasks_kept_in. pose proof (Hf (world st)) as H.
  now destruct (f (world st)).
Qed.

Lemma keeps_lift (q : QueueRef) {A} (l : Type) (m : M State A) :
  keeps (tasks_kept_in q) m ->
  keeps (fun s s' : State * l => tasks_kept_in q (fst s) (fst s')) (lift m).
Proof. intros H [st x]. unfold lift. pose proof (H st). cbn. now destruct (m st). Qed.

Lemma search_keeps (q : QueueRef) (query : string) (options : SearchOptions) :
  (forall opts, leaves_tasks q (ytsr query opts ytCookie)) ->
  keeps (tasks_kept_in q) (search query options).
Proof.
  intros Hytsr.
  pose proof (fun st => tasks_kept_refl q (world st)) as Hrefl.
  pose proof (fun st1 st2 st3 => tasks_kept_trans q (world st1) (world st2) (world st3))
    as Htrans.
  assert (forall opts, keeps (tasks_kept_in q) (search_try query opts)) as Htry.
  { intros opts. unfold search_try. apply keeps_bind; [exact Htrans|now apply keeps_call|].
    intros items. destruct (_ =? _)%nat; [now apply keeps_throw|now apply keeps_ret]. }
  assert (forall options, retried options = true ->
                          keeps (tasks_kept_in q) (search query options)) as Hretried.
  { intros o Ho. eapply keeps_ext; [intros st; apply search_step|]. rewrite Ho.
    destruct (search_invalid _); [now apply keeps_throw|].
    apply keeps_try_catch; [exact Htrans|apply Htry|]. intros e. now apply keeps_throw. }
  eapply keeps_ext; [intros st; apply search_step|].
  destruct (search_invalid _); [now apply keeps_throw|].
  apply keeps_try_catch; [exact Htrans|apply Htry|]. intros e.
  destruct (retried options); [now apply keeps_throw|]. now apply Hretried.
Qed.

Lemma play_plugins_keeps (q : QueueRef) (plugins : list (CustomPlugin Env))
    (voiceChannel : Value) (song : string) (options : OptionsArg) :
  (forall plugin, plugin ∈ plugins -> leaves_tasks q (plugin_validate plugin song)) ->
  (forall plugin, plugin ∈ plugins ->
     leaves_tasks q (plugin_play plugin voiceChannel song options)) ->
  keeps (tasks_kept_in q) (play_plugins plugins voiceChannel song options).
Proof.
  pose proof (fun st => tasks_kept_refl q (world st)) as Hrefl.
  pose proof (fun st1 st2 st3 => tasks_kept_trans q (world st1) (world st2) (world st3))
    as Htrans.
  induction plugins as [|plugin rest IH]; intros Hvalidate Hplay; cbn;
    [now apply keeps_ret|].
  apply keeps_bind; [exact Htrans| |].
  { apply keeps_call, Hvalidate, list_elem_of_here. }
  intros [|].
  - apply keeps_bind; [exact Htrans| |].
    + apply keeps_call, Hplay, list_elem_of_here.
    + intros _. now apply keeps_ret.
  - apply IH; intros p Hp; [apply Hvalidate|apply Hplay]; now apply list_elem_of_further.
Qed.

(** When all that [play] calls leaves the tasks of [q] alone, so does its
    block. *)
Lemma play_try_keeps (q : QueueRef) (voiceChannel : Value) (options : OptionsArg)
    (message member metadata textChannel skip : Value) (position : number) :
  play_leaves_tasks q ->
  keeps (fun s s' : State * SongArg => tasks_kept_in q (fst s) (fst s'))
    (play_try voiceChannel options message member metadata textChannel skip position).
Proof.
  intros (Hvalidate & Hplay & Hytsr & HsearchSong & Hresolve & HplayPlaylist & HplaySong).
  set (R := fun s s' : State * SongArg => tasks_kept_in q (fst s) (fst s')).
  assert (forall s, R s s) as Hrefl by (intros s; apply tasks_kept_refl).
  assert (forall s1 s2 s3, R s1 s2 -> R s2 s3 -> R s1 s3) as Htrans
    by (intros s1 s2 s3; apply tasks_kept_trans).
  assert (forall A (a : A), keeps R (ret a)) as Hret by (intros; now apply keeps_ret).
  assert (forall l, keeps R (set_local l)) as Hset.
  { intros l [st x]. apply tasks_kept_refl. }
  assert (keeps R get_local) as Hget by now apply keeps_silent.
  assert (forall A callee (f : World Env -> Outcome A * World Env),
            leaves_tasks q f -> keeps R (lift (call callee f))) as Hcall.
  { intros A callee f Hf. now apply keeps_lift, keeps_call. }
  unfold play_try.
  apply keeps_bind; [exact Htrans|exact Hget|]. intros song.
  apply keeps_bind; [exact Htrans| |].
  { destruct song; try apply Hret. apply keeps_lift, play_plugins_keeps; auto. }
  intros [|]; [apply Hret|].
  apply keeps_bind; [exact Htrans| |].
  { destruct song; try apply Hret. destruct (negb (isURL _)); [|apply Hret].
    destruct (negb (truthy message)).
    - apply keeps_bind; [exact Htrans|now apply keeps_lift, search_keeps|]. intros results.
      apply keeps_bind; [exact Htrans|apply Hset|]. intros _. apply Hret.
    - apply keeps_bind; [exact Htrans|now apply Hcall|]. intros [r|]; [|apply Hret].
      apply keeps_bind; [exact Htrans|apply Hset|]. intros _. apply Hret. }
  intros [|]; [apply Hret|].
  apply keeps_bind; [exact Htrans|exact Hget|]. intros song'.
  apply keeps_bind; [exact Htrans|now apply Hcall|]. intros resolved.
  apply keeps_bind; [exact Htrans|apply Hset|]. intros _.
  destruct resolved; now apply Hcall.
Qed.

(** C2: a [play] that takes the lock (its arguments pass the checks, a queue
    is registered and holds no resolve-class task, so [queuing(true)] is
    awaited) gives it back however its block ends.  Let the block start in the
    state [st_head] that the wait ends in, and let it end in any way, with a
    normal return, an early one or an error, in the state [st_body].  Then
    [play] ends in that way (an error having gone through the [catch] clause),
    and in the state that [resolve()] makes of [st_body]: the head of the task
    queue is taken off, and nothing else is changed.  All that [play] shows is
    [queuing(true)], calls, and at the end [resolve()].  So when what [play]
    calls and the tasks ahead of it leave the queued tasks alone, the task of
    this [play] is at the head when the block starts and is gone when [play]
    ends: what is left are the waiters behind it, in their order. *)
Theorem play_releases_the_lock (voiceChannel : Value) (song : SongArg)
    (options : OptionsArg) (o : PlayOptions) (st : State) (q : QueueRef) (Q : Queue) :
  play_accepts voiceChannel options o ->
  queues (world st) !! resolveGuildId voiceChannel = Some q ->
  heap (world st) !! q = Some Q ->
  true ∉ q_taskQueue Q ->
  let st_head := snd (TaskQueue_queuing (Some q) true st) in
  let ending := play_block voiceChannel o (st_head, song) in
  let st_body := fst (snd ending) in
  play voiceChannel song options st
  = (match fst ending with
     | Return _ => Return tt
     | Throw e => Throw (PlayError (snd (snd ending)) e)
     end,
     {| world :=
          {| queues := queues (world st_body);
             heap := alter (fun Q => {| q_taskQueue := tail (q_taskQueue Q);
                                        q_volume := q_volume Q;
                                        q_stream_volume := q_stream_volume Q;
                                        q_repeatMode := q_repeatMode Q;
                                        q_autoplay := q_autoplay Q |})
                       q (heap (world st_body));
             env := env (world st_body) |};
        trace := trace st_body ++ [EResolve q] |}) /\
  (exists calls,
     Forall (fun e => is_call e = true) calls /\
     trace st_body = trace st ++ EQueuing q true :: calls) /\
  (play_leaves_tasks q ->
   task_leaves_tasks q ->
   exists Q_head waiting Q' more,
     heap (world st_head) !! q = Some Q_head /\
     q_taskQueue Q_head = true :: waiting /\
     heap (world (snd (play voiceChannel song options st))) !! q = Some Q' /\
     q_taskQueue Q' = waiting ++ more).
Proof.
  intros Hok Hq HQ Hidle st_head ending st_body.
  assert (hasResolveTask q st = (Return false, st)) as Hfree.
  { rewrite (hasResolveTask_lookup q Q st HQ). f_equal. f_equal.
    destruct (TaskQueue.hasResolveTask (q_taskQueue Q)) eqn:H; [|reflexivity].
    now apply hasResolveTask_elem in H. }
  assert (play voiceChannel song options st
          = with_local song (play_guarded (Some q) true (play_block voiceChannel o)) st_head)
    as Hplay by apply (play_accepted _ _ _ _ _ _ _ Hok Hq Hfree).
  rewrite Hplay, play_guarded_locked. fold ending. fold st_body.
  split; [reflexivity|]. split.
  - destruct (play_try_only_calls voiceChannel (OptionsObject o) (get (opt_message o))
                (play_member voiceChannel o) (get (opt_metadata o)) (play_textChannel o)
                (play_skip o) (play_position o (play_skip o)) (st_head, song))
      as (calls & Htrace & Hcalls).
    exists calls. split; [exact Hcalls|].
    fold (play_block voiceChannel o) in Htrace. fold ending in Htrace. fold st_body in Htrace.
    rewrite Htrace. cbn [fst]. subst st_head.
    now rewrite TaskQueue_queuing_trace, <- app_assoc.
  - intros Hleaves Hahead.
    destruct (TaskQueue_queuing_head q true st Q HQ Hahead)
      as (Q_head & waiting & HQ_head & Hhead).
    fold st_head in HQ_head.
    pose proof (play_try_keeps q voiceChannel (OptionsObject o) (get (opt_message o))
                  (play_member voiceChannel o) (get (opt_metadata o)) (play_textChannel o)
                  (play_skip o) (play_position o (play_skip o)) Hleaves (st_head, song))
      as Hkept.
    fold (play_block voiceChannel o) in Hkept. fold ending in Hkept. fold st_body in Hkept.
    destruct (Hkept Q_head HQ_head) as (Q_body & HQ_body & [more Hmore]).
    exists Q_head, waiting, (with_taskQueue TaskQueue.resolve Q_body), more.
    split; [exact HQ_head|]. split; [exact Hhead|].
    cbn [snd].
    change (heap (world (snd (TaskQueue_resolve (Some q) st_body))))
      with (alter (with_taskQueue TaskQueue.resolve) q (heap (world st_body))).
    rewrite lookup_alter_eq. subst st_body. rewrite HQ_body. split; [reflexivity|].
    cbn. now rewrite Hmore, Hhead.
Qed.

(** C1, as amended: let the arguments pass the checks and a queue be
    registered for the guild.  If that queue holds no resolve-class task,
    [play] takes the lock.  The call of [queuing(true)] puts a resolve-class
    task at the tail of the task queue, behind the tasks that are there, and
    changes nothing else: the registry of queues is as it was ([enqueued]).
    Then [play] is suspended until the tasks ahead are complete ([st_head]); if
    there is none, it goes on at once.  Only then does it run its block, and it
    ends with [resolve()]: it shows [queuing(true)], calls, [resolve()].  When
    the tasks ahead leave the queued tasks alone, the block starts with the
    task of this [play] at the head of the task queue.  If the queue holds a
    resolve-class task, [play] enqueues nothing and does not wait: it is its
    block, run at once from the state it was called in; the state it ends in
    is the state its block ends in, and what it shows is calls only, with no
    operation on the task queue. *)
Theorem play_queues_unless_resolving (voiceChannel : Value) (song : SongArg)
    (options : OptionsArg) (o : PlayOptions) (st : State) (q : QueueRef) (Q : Queue) :
  play_accepts voiceChannel options o ->
  queues (world st) !! resolveGuildId voiceChannel = Some q ->
  heap (world st) !! q = Some Q ->
  (true ∉ q_taskQueue Q ->
   let enqueued :=
     {| world :=
          {| queues := queues (world st);
             heap := alter (fun Q => {| q_taskQueue := q_taskQueue Q ++ [true];
                                        q_volume := q_volume Q;
                                        q_stream_volume := q_stream_volume Q;
                                        q_repeatMode := q_repeatMode Q;
                                        q_autoplay := q_autoplay Q |})
                       q (heap (world st));
             env := env (world st) |};
        trace := trace st ++ [EQueuing q true] |} in
   let st_head := snd (await_head q (length (q_taskQueue Q)) enqueued) in
   play voiceChannel song options st
   = with_local song (play_guarded (Some q) true (play_block voiceChannel o)) st_head /\
   trace st_head = trace st ++ [EQueuing q true] /\
   (q_taskQueue Q = [] -> st_head = enqueued) /\
   (task_leaves_tasks q ->
    exists Q_head waiting,
      heap (world st_head) !! q = Some Q_head /\ q_taskQueue Q_head = true :: waiting) /\
   exists calls,
     Forall (fun e => is_call e = true) calls /\
     trace (snd (play voiceChannel song options st))
     = trace st ++ EQueuing q true :: calls ++ [EResolve q]) /\
  (true ∈ q_taskQueue Q ->
   play voiceChannel song options st
   = with_local song (play_guarded (Some q) false (play_block voiceChannel o)) st /\
   snd (play voiceChannel song options st)
   = fst (snd (play_block voiceChannel o (st, song))) /\
   exists calls,
     Forall (fun e => is_call e = true) calls /\
     trace (snd (play voiceChannel song options st)) = trace st ++ calls).
Proof.
  intros Hok Hq HQ. split.
  - intros Hidle enqueued st_head.
    assert (hasResolveTask q st = (Return false, st)) as Hfree.
    { rewrite (hasResolveTask_lookup q Q st HQ). f_equal. f_equal.
      destruct (TaskQueue.hasResolveTask (q_taskQueue Q)) eqn:H; [|reflexivity].
      now apply hasResolveTask_elem in H. }
    assert (snd (TaskQueue_queuing (Some q) true st) = st_head) as Hhead.
    { unfold TaskQueue_queuing, bind, read_queue, update_queue, emit. cbn [fst snd].
      now rewrite HQ. }
    assert (trace st_head = trace st ++ [EQueuing q true]) as Htrace.
    { subst st_head. now destruct (await_head_returns q (length (q_taskQueue Q)) enqueued). }
    assert (play voiceChannel song options st
            = with_local song (play_guarded (Some q) true (play_block voiceChannel o)) st_head)
      as Hplay.
    { rewrite <- Hhead. apply (play_accepted _ _ _ _ _ _ _ Hok Hq Hfree). }
    split; [exact Hplay|]. split; [exact Htrace|]. split; [|split].
    + intros Hnone. subst st_head. now rewrite Hnone.
    + intros Hleaves. rewrite <- Hhead. now apply (TaskQueue_queuing_head q true st Q).
    + rewrite Hplay, play_guarded_locked.
      destruct (play_try_only_calls voiceChannel (OptionsObject o) (get (opt_message o))
                  (play_member voiceChannel o) (get (opt_metadata o)) (play_textChannel o)
                  (play_skip o) (play_position o (play_skip o)) (st_head, song))
        as (calls & Hblock & Hcalls).
      exists calls. split; [exact Hcalls|].
      fold (play_block voiceChannel o) in Hblock. cbn [fst snd] in Hblock |- *.
      rewrite TaskQueue_resolve_trace, Hblock, Htrace. now rewrite <- !app_assoc.
  - intros Hbusy.
    assert (hasResolveTask q st = (Return true, st)) as Hheld.
    { rewrite (hasResolveTask_lookup q Q st HQ). f_equal. f_equal.
      now apply hasResolveTask_elem. }
    rewrite (play_accepted _ _ _ _ _ _ _ Hok Hq Hheld). cbn [negb]. split; [reflexivity|].
    split; [|apply play_guarded_unlocked, play_try_only_calls].
    unfold with_local, play_guarded, try_finally, try_catch.
    now destruct (play_block voiceChannel o (st, song)) as [[[] | e] [st1 song1]].
Qed.

(** ** The two branches of [createCustomPlaylist] *)

Section Deterministic.

(** A deterministic resolver: what a call gives back depends on its arguments
    and on nothing else. *)
Variable resolve : SongArg -> ResolveOptions -> Outcome Resolved.
Hypothesis deterministic : forall song o w, fst (handler_resolve song o w) = resolve song o.

Variable o : ResolveOptions.

Lemma catch_undefined_settles (song : PlaylistItem) (st : State) :
  fst (catch_undefined (settles (handler_resolve (item_arg song) o)) st)
  = Return (resolved_or_nothing resolve o song).
Proof.
  unfold catch_undefined, resolved_or_nothing. run.
  rewrite <- (deterministic (item_arg song) o (world st)).
  now destruct (handler_resolve (item_arg song) o (world st)) as [[r | e] w].
Qed.

Lemma resolve_each_in_order (songs : list PlaylistItem) :
  forall (resolved : list (option Resolved)) (st : State),
    fst (resolve_each o songs resolved st)
    = Return (resolved ++ map (resolved_or_nothing resolve o) songs).
Proof.
  induction songs as [|song rest IH]; intros resolved st; cbn [resolve_each map].
  - now rewrite app_nil_r.
  - unfold bind at 1. unfold invoke, emit. unfold bind at 1.
    pose proof (catch_undefined_settles song
                  {| world := world st; trace := trace st ++ [ECall "handler.resolve"] |}) as H.
    destruct (catch_undefined _ _) as [r st1]. cbn in H. subst r.
    rewrite IH. now rewrite <- app_assoc.
Qed.

Lemma fill_insert (pending : list (nat * PlaylistItem)) (i : nat) (x : option Resolved) :
  forall results,
    i ∉ pending.*1 ->
    fill resolve o pending (<[i := x]> results) = <[i := x]> (fill resolve o pending results).
Proof.
  induction pending as [|[j song] rest IH]; intros results Hi; [reflexivity|].
  cbn [fill fst snd]. cbn in Hi. rewrite not_elem_of_cons in Hi. destruct Hi as [Hne Hi].
  rewrite IH by exact Hi. apply list_insert_insert_ne. congruence.
Qed.

(** Which pending promise settles first makes no difference to the array of
    results. *)
Lemma fill_delete (pending : list (nat * PlaylistItem)) :
  forall (k i : nat) (song : PlaylistItem) (results : list (option Resolved)),
    NoDup pending.*1 ->
    pending !! k = Some (i, song) ->
    fill resolve o (delete k pending) (<[i := resolved_or_nothing resolve o song]> results)
    = fill resolve o pending results.
Proof.
  induction pending as [|[j s] rest IH]; intros k i song results Hdup Hk; [discriminate|].
  cbn in Hdup. apply NoDup_cons in Hdup as [Hj Hdup].
  destruct k as [|k]; cbn [delete list_delete fill fst snd lookup list_lookup] in *.
  - injection Hk as -> ->. now apply fill_insert.
  - f_equal. now apply IH.
Qed.

Lemma Promise_all_fills (n : nat) :
  forall (picks : list nat) (pending : list (nat * PlaylistItem))
         (results : list (option Resolved)) (st : State),
    length pending = n ->
    NoDup pending.*1 ->
    fst (Promise_all o picks pending results st) = Return (fill resolve o pending results).
Proof.
  induction n as [|n IH]; intros picks pending results st Hlen Hdup.
  - destruct pending; [|discriminate]. now rewrite Promise_all_equation_1.
  - destruct pending as [|p rest]; [discriminate|]. rewrite Promise_all_equation_2. cbv zeta.
    set (k := (hd 0 picks `mod` length (p :: rest))%nat).
    assert (k < length (p :: rest))%nat as Hk by (apply Nat.mod_upper_bound; discriminate).
    destruct (lookup_lt_is_Some_2 _ _ Hk) as [[i song] Hnext].
    rewrite (nth_lookup_Some _ _ p _ Hnext). cbn [fst snd].
    unfold bind. pose proof (catch_undefined_settles song st) as H.
    destruct (catch_undefined _ st) as [r st1]. cbn in H. subst r.
    rewrite IH.
    + now rewrite fill_delete.
    + rewrite length_delete by eauto. cbn [length] in *. lia.
    + rewrite list_fmap_delete. eapply sublist_NoDup; [exact Hdup|apply sublist_delete].
Qed.

Lemma fill_all (songs : list PlaylistItem) :
  forall settled : list (option Resolved),
    fill resolve o (imap (fun j song => (length settled + j, song)%nat) songs)
      (settled ++ replicate (length songs) None)
    = settled ++ map (resolved_or_nothing resolve o) songs.
Proof.
  induction songs as [|song rest IH]; intros settled; [reflexivity|].
  cbn [imap fill fst snd length replicate map].
  rewrite (imap_ext _ (fun j s => (length (settled ++ [None]) + j, s)%nat));
    [|intros; cbn; rewrite length_app; cbn; f_equal; lia].
  replace (settled ++ None :: replicate (length rest) None)
    with ((settled ++ [None]) ++ replicate (length rest) None)
    by now rewrite <- app_assoc.
  rewrite IH, <- app_assoc. cbn [app]. now rewrite insert_app_r.
Qed.

Lemma invoke_each_returns (songs : list PlaylistItem) (st : State) :
  fst (invoke_each songs st) = Return tt.
Proof.
  revert st. induction songs as [|song rest IH]; intros st; [reflexivity|].
  cbn. unfold bind, invoke, emit. apply IH.
Qed.

End Deterministic.

Lemma bind_returns {S A B} (m : M S A) (k : A -> M S B) (s : S) (a : A) :
  fst (m s) = Return a -> bind m k s = k a (snd (m s)).
Proof. unfold bind. destruct (m s) as [[a' | e] s']; cbn; congruence. Qed.

Lemma filter_Boolean_map {A} (g : A -> option Resolved) (l : list A) :
  filter_Boolean (map g l) = omap g l.
Proof.
  unfold filter_Boolean. induction l as [|x l IH]; [reflexivity|].
  cbn. rewrite IH. now destruct (g x).
Qed.

Lemma NoDup_indices {A} (l : list A) : NoDup (imap pair l).*1.
Proof.
  rewrite fmap_imap.
  rewrite (imap_ext _ (fun j _ => j)) by reflexivity.
  rewrite (imap_seq_0 l (fun j => j)), list_fmap_id. apply NoDup_seq.
Qed.

(** On accepted arguments and with a deterministic resolver, either branch
    builds the playlist from the filtered songs resolved in input order, less
    the failures. *)
Lemma createCustomPlaylist_resolved
    (resolve : SongArg -> ResolveOptions -> Outcome Resolved)
    (songs : list PlaylistItem) (options : CustomPlaylistOptions) (st : State) :
  (forall song o w, fst (handler_resolve song o w) = resolve song o) ->
  List.filter valid_song songs <> [] ->
  truthy (get (c_member options)) && negb (isMemberInstance (get (c_member options))) = false ->
  fst (createCustomPlaylist (SongsArray songs) options st)
  = Playlist_new
      (resolved_in_order resolve
         {| r_member := get (c_member options); r_metadata := get (c_metadata options) |} songs)
      (get (c_member options)) (get (c_properties options)) (get (c_metadata options)).
Proof.
  intros Hdet Hvalid Hmember. unfold createCustomPlaylist, resolved_in_order.
  destruct songs as [|song songs]; [now destruct Hvalid|]. cbn [length Nat.eqb].
  destruct (List.filter valid_song (song :: songs)) as [|x filtered] eqn:Hfiltered;
    [now destruct Hvalid|].
  cbn [length Nat.eqb]. rewrite Hmember.
  set (o := {| r_member := _; r_metadata := _ |}).
  set (l := x :: filtered) in *. change (S (length filtered)) with (length l).
  destruct (truthy (spread_over (VBool true) (c_parallel options))).
  - erewrite bind_returns; cycle 1.
    { erewrite bind_returns by apply invoke_each_returns.
      erewrite bind_returns; [reflexivity|].
      eapply (Promise_all_fills resolve Hdet); [reflexivity|apply NoDup_indices]. }
    cbn [fst].
    pose proof (fill_all resolve o l []) as Hfill. cbn [length app Nat.add] in Hfill.
    rewrite (imap_ext _ pair) in Hfill by reflexivity.
    now rewrite Hfill, filter_Boolean_map.
  - erewrite bind_returns; cycle 1.
    { erewrite bind_returns by apply (resolve_each_in_order resolve Hdet). reflexivity. }
    cbn [fst app]. now rewrite filter_Boolean_map.
Qed.

(** C10: with a deterministic resolver, the parallel and the sequential
    branch of [createCustomPlaylist] end alike, for every array and every
    order in which the parallel promises settle; when the arguments are
    accepted, both build the playlist from the filtered songs resolved in
    input order, failures dropped and not thrown. *)
Theorem parallel_and_sequential_agree
    (resolve : SongArg -> ResolveOptions -> Outcome Resolved)
    (songs : SongsArg) (options : CustomPlaylistOptions) (st : State) :
  (forall song o w, fst (handler_resolve song o w) = resolve song o) ->
  fst (createCustomPlaylist songs (with_parallel (VBool true) options) st)
  = fst (createCustomPlaylist songs (with_parallel (VBool false) options) st) /\
  (forall array parallel,
     songs = SongsArray array ->
     List.filter valid_song array <> [] ->
     truthy (get (c_member options)) && negb (isMemberInstance (get (c_member options))) = false ->
     fst (createCustomPlaylist songs (with_parallel parallel options) st)
     = Playlist_new
         (resolved_in_order resolve
            {| r_member := get (c_member options); r_metadata := get (c_metadata options) |}
            array)
         (get (c_member options)) (get (c_properties options)) (get (c_metadata options))).
Proof.
  intros Hdet.
  assert (forall array parallel,
     songs = SongsArray array ->
     List.filter valid_song array <> [] ->
     truthy (get (c_member options)) && negb (isMemberInstance (get (c_member options))) = false ->
     fst (createCustomPlaylist songs (with_parallel parallel options) st)
     = Playlist_new
         (resolved_in_order resolve
            {| r_member := get (c_member options); r_metadata := get (c_metadata options) |}
            array)
         (get (c_member options)) (get (c_properties options)) (get (c_metadata options)))
    as Hboth.
  { intros array parallel -> Hvalid Hmember.
    now rewrite (createCustomPlaylist_resolved resolve array _ st Hdet Hvalid). }
  split; [|exact Hboth].
  destruct songs as [array | v]; [|reflexivity].
  destruct (List.filter valid_song array) as [|x filtered] eqn:Hfiltered.
  - unfold createCustomPlaylist. rewrite Hfiltered. now destruct (length array =? 0)%nat.
  - destruct (truthy (get (c_member options))
              && negb (isMemberInstance (get (c_member options)))) eqn:Hmember.
    + unfold createCustomPlaylist. rewrite Hfiltered. cbn [with_parallel c_member].
      rewrite Hmember. now destruct (length array =? 0)%nat.
    + rewrite !(Hboth array) by (try rewrite Hfiltered; easy). reflexivity.
Qed.

End Properties.

(** * The properties at work on the small installation *)

(** The three ways out of the block of [play], each with the lock given back:
    a normal return, the early return after a search that the user cancelled,
    and an error (the search library stays offline). *)
Example play_ways_out :
  let run options song failures :=
    let '(r, st) := play (collaborators := Sample.collaborators) Sample.voiceChannel song
                      options (Sample.registered [] failures) in
    (r, trace st, q_taskQueue <$> heap (world st) !! Sample.queue) in
  run (OptionsOther VUndefined) Sample.a_song 0%nat
  = (Return tt,
     [EQueuing Sample.queue true; ECall "handler.resolve"; ECall "handler.playSong"; EResolve Sample.queue],
     Some []) /\
  run (OptionsObject Sample.with_message) (SString "hello") 0%nat
  = (Return tt, [EQueuing Sample.queue true; ECall "handler.searchSong"; EResolve Sample.queue], Some []) /\
  run (OptionsOther VUndefined) (SString "hello") 2%nat
  = (Throw (JSError "PlayError" ("hello" +:+ newline +:+ "offline")),
     [EQueuing Sample.queue true; ECall "ytsr"; ECall "ytsr"; EResolve Sample.queue], Some []).
Proof. repeat split; vm_compute; reflexivity. Qed.

(** Determinism is needed: with the rationed resolver and a budget of one,
    the sequential branch resolves the first song and the parallel one the
    song whose promise settles first. *)
Example rationed_branches_differ :
  fst (createCustomPlaylist (collaborators := Sample.rationed) Sample.three_songs
         (with_parallel (VBool false) Sample.no_options) (Sample.unregistered 1))
  = Return {| playlist_url := ""; playlist_songs := [{| song_url := "https://a/1" |}] |} /\
  fst (createCustomPlaylist (collaborators := Sample.rationed) Sample.three_songs
         (with_parallel (VBool true) Sample.no_options) (Sample.unregistered 1))
  = Return {| playlist_url := ""; playlist_songs := [{| song_url := "https://a/3" |}] |}.
Proof. split; vm_compute; reflexivity. Qed.

(** [play] accepts the sample voice channel with no options. *)
Lemma sample_accepted :
  play_accepts (collaborators := Sample.collaborators) Sample.voiceChannel
    (OptionsOther VUndefined) empty_PlayOptions.
Proof. repeat split; try reflexivity; intros H; discriminate H. Defined.

(** C1, the claim as it stands, fails: a resolve-class task is queued or
    running on the registered queue ([hasResolveTask] is [true]), and a [play]
    whose arguments pass the checks goes straight to the handler; it enqueues
    nothing and the task queue keeps its one task. *)
Lemma play_behind_a_resolve_task_does_not_queue :
  queues (world (Sample.registered [true] 0)) !! "guild" = Some Sample.queue /\
  hasResolveTask Sample.queue (Sample.registered [true] 0)
  = (Return true, Sample.registered [true] 0) /\
  trace (snd (play (collaborators := Sample.collaborators) Sample.voiceChannel Sample.a_song
                (OptionsOther VUndefined) (Sample.registered [true] 0)))
  = [ECall "handler.resolve"; ECall "handler.playSong"] /\
  q_taskQueue <$> heap (world (snd (play (collaborators := Sample.collaborators)
                                      Sample.voiceChannel Sample.a_song
                                      (OptionsOther VUndefined)
                                      (Sample.registered [true] 0)))) !! Sample.queue
  = Some [true].
Proof. repeat split; vm_compute; reflexivity. Qed.

(** On the small installation all that [play] calls, and the task that sets
    the volume, leave the task queues alone. *)
Lemma sample_heap_kept (q : QueueRef) (w w' : World nat) :
  heap w' = heap w -> tasks_kept q w w'.
Proof. intros Hheap Q HQ. exists Q. now rewrite Hheap. Qed.

Lemma sample_play_leaves_tasks (q : QueueRef) :
  play_leaves_tasks (collaborators := Sample.collaborators) q.
Proof.
  repeat split.
  - intros plugin Hin. now apply elem_of_nil in Hin.
  - intros plugin Hin. now apply elem_of_nil in Hin.
  - intros query opts w. apply sample_heap_kept. cbn. unfold Sample.search_library.
    now destruct (env w).
  - intros message song w. now apply sample_heap_kept.
  - intros song o w. apply sample_heap_kept. destruct song as [s | | | |]; cbn;
      try reflexivity. now destruct (String.eqb s _).
  - intros voiceChannel playlist o w. now apply sample_heap_kept.
  - intros voiceChannel song o w. now apply sample_heap_kept.
Qed.

Lemma sample_task_leaves_tasks (q : QueueRef) :
  task_leaves_tasks (collaborators := Sample.collaborators) q.
Proof.
  intros w Q HQ. cbn. unfold Sample.halve_volume. cbn. rewrite lookup_alter_eq, HQ.
  eexists. split; [reflexivity|]. reflexivity.
Qed.

Lemma sample_idle : true ∉ [false].
Proof. intros H. apply list_elem_of_singleton in H. discriminate H. Qed.

(** A [play] that finds a task ahead of it waits its turn: the task ahead
    runs (it sets the volume to 50) and is taken off, then [play] runs as the
    head of the task queue, and it takes its own task off at the end. *)
Example play_waits_its_turn :
  let '(r, st) := play (collaborators := Sample.collaborators) Sample.voiceChannel
                    Sample.a_song (OptionsOther VUndefined) (Sample.registered [false] 0) in
  (r, trace st,
   (fun Q => (q_taskQueue Q, q_volume Q)) <$> heap (world st) !! Sample.queue)
  = (Return tt,
     [EQueuing Sample.queue true; ECall "handler.resolve"; ECall "handler.playSong";
      EResolve Sample.queue],
     Some ([], num 50)).
Proof. vm_compute. reflexivity. Qed.

Lemma play_queues_unless_resolving_witness :
  (exists Q_head waiting,
     heap (world (snd (TaskQueue_queuing (collaborators := Sample.collaborators)
                         (Some Sample.queue) true (Sample.registered [false] 0))))
     !! Sample.queue = Some Q_head /\
     q_taskQueue Q_head = true :: waiting) /\
  (exists calls,
     Forall (fun e => is_call e = true) calls /\
     trace (snd (play (collaborators := Sample.collaborators) Sample.voiceChannel
                   Sample.a_song (OptionsOther VUndefined) (Sample.registered [false] 0)))
     = [] ++ EQueuing Sample.queue true :: calls ++ [EResolve Sample.queue]) /\
  (exists calls,
     Forall (fun e => is_call e = true) calls /\
     trace (snd (play (collaborators := Sample.collaborators) Sample.voiceChannel
                   Sample.a_song (OptionsOther VUndefined) (Sample.registered [true] 0)))
     = [] ++ calls).
Proof.
  split; [|split].
  - destruct (play_queues_unless_resolving (collaborators := Sample.collaborators)
                Sample.voiceChannel Sample.a_song (OptionsOther VUndefined) empty_PlayOptions
                (Sample.registered [false] 0) Sample.queue (Sample.a_queue [false])
                sample_accepted eq_refl eq_refl)
      as [Hidle _].
    destruct (Hidle sample_idle) as (_ & _ & _ & Hfifo & _).
    exact (Hfifo (sample_task_leaves_tasks Sample.queue)).
  - destruct (play_queues_unless_resolving (collaborators := Sample.collaborators)
                Sample.voiceChannel Sample.a_song (OptionsOther VUndefined) empty_PlayOptions
                (Sample.registered [false] 0) Sample.queue (Sample.a_queue [false])
                sample_accepted eq_refl eq_refl)
      as [Hidle _].
    destruct (Hidle sample_idle) as (_ & _ & _ & _ & Htrace). exact Htrace.
  - destruct (play_queues_unless_resolving (collaborators := Sample.collaborators)
                Sample.voiceChannel Sample.a_song (OptionsOther VUndefined) empty_PlayOptions
                (Sample.registered [true] 0) Sample.queue (Sample.a_queue [true])
                sample_accepted eq_refl eq_refl)
      as [_ Hbusy].
    destruct (Hbusy (list_elem_of_here _ _)) as (_ & _ & Htrace). exact Htrace.
Defined.

Lemma play_releases_the_lock_witness :
  play (collaborators := Sample.collaborators) Sample.voiceChannel (SString "hello")
    (OptionsOther VUndefined) (Sample.registered [false] 2)
  = (Throw (JSError "PlayError" ("hello" +:+ newline +:+ "offline")),
     {| world :=
          {| queues := {[ "guild" := Sample.queue ]};
             heap := {[ Sample.queue :=
                          {| q_taskQueue := []; q_volume := num 50;
                             q_stream_volume := num 50; q_repeatMode := DISABLED;
                             q_autoplay := false |} ]};
             env := 0%nat |};
        trace := [EQueuing Sample.queue true; ECall "ytsr"; ECall "ytsr";
                  EResolve Sample.queue] |}) /\
  exists Q_head waiting Q' more,
    heap (world (snd (TaskQueue_queuing (collaborators := Sample.collaborators)
                        (Some Sample.queue) true (Sample.registered [false] 2))))
    !! Sample.queue = Some Q_head /\
    q_taskQueue Q_head = true :: waiting /\
    heap (world (snd (play (collaborators := Sample.collaborators) Sample.voiceChannel
                        (SString "hello") (OptionsOther VUndefined)
                        (Sample.registered [false] 2))))
    !! Sample.queue = Some Q' /\
    q_taskQueue Q' = waiting ++ more.
Proof.
  destruct (play_releases_the_lock (collaborators := Sample.collaborators) Sample.voiceChannel
              (SString "hello") (OptionsOther VUndefined) empty_PlayOptions
              (Sample.registered [false] 2) Sample.queue (Sample.a_queue [false])
              sample_accepted eq_refl eq_refl sample_idle)
    as (Hplay & _ & Hgone).
  split.
  - rewrite Hplay. vm_compute. reflexivity.
  - exact (Hgone (sample_play_leaves_tasks Sample.queue)
             (sample_task_leaves_tasks Sample.queue)).
Defined.

Lemma play_checks_arguments_first_witness :
  exists name,
    play (collaborators := Sample.collaborators) VNull Sample.a_song
      (OptionsOther VUndefined) (Sample.registered [] 0)
    = (Throw (DisTubeError INVALID_TYPE name), Sample.registered [] 0) /\
    is_invalid_argument (DisTubeError INVALID_TYPE name) = true.
Proof.
  apply (play_checks_arguments_first (collaborators := Sample.collaborators)).
  left. reflexivity.
Defined.

(** C4, the claim as it stands, fails: the caller has set [options.retried],
    the first request fails, and [search] throws after that one request, with
    no retry, though a second request would have been answered. *)
Lemma search_marked_retried_does_not_retry :
  search_invalid (search_opts (set_retried Sample.no_search_options)) = None /\
  fst (search_try (collaborators := Sample.collaborators) "q"
         (search_opts (set_retried Sample.no_search_options)) (Sample.unregistered 1))
  = Throw Sample.offline /\
  fst (search (collaborators := Sample.collaborators) "q"
         (set_retried Sample.no_search_options) (Sample.unregistered 1))
  = Throw Sample.offline /\
  trace (snd (search (collaborators := Sample.collaborators) "q"
                (set_retried Sample.no_search_options) (Sample.unregistered 1)))
  = [ECall "ytsr"] /\
  fst (search_try (collaborators := Sample.collaborators) "q"
         (search_opts (set_retried Sample.no_search_options)) (Sample.unregistered 0))
  = Return [{| result_type := VIDEO; result_url := "https://a/q" |}].
Proof. repeat split; vm_compute; reflexivity. Qed.

Lemma search_retries_once_witness :
  search (collaborators := Sample.collaborators) "q" Sample.no_search_options
    (Sample.unregistered 1)
  = search_try (collaborators := Sample.collaborators) "q"
      (search_opts (set_retried Sample.no_search_options))
      (snd (search_try (collaborators := Sample.collaborators) "q"
              (search_opts Sample.no_search_options) (Sample.unregistered 1))) /\
  trace (snd (search (collaborators := Sample.collaborators) "q" Sample.no_search_options
                (Sample.unregistered 1)))
  = [] ++ [ECall "ytsr"; ECall "ytsr"].
Proof.
  destruct (search_retries_once (collaborators := Sample.collaborators) "q"
              Sample.no_search_options (Sample.unregistered 1)) as (_ & Hchecked).
  destruct (Hchecked eq_refl) as (_ & _ & Hfails).
  specialize (Hfails Sample.offline
                (snd (search_try (collaborators := Sample.collaborators) "q"
                        (search_opts Sample.no_search_options) (Sample.unregistered 1)))
                eq_refl).
  destruct Hfails as (Hagain & Htrace & _). split; [exact Hagain|exact Htrace].
Defined.

Lemma createCustomPlaylist_turns_down_witness :
  createCustomPlaylist (collaborators := Sample.collaborators) (SongsArray [])
    Sample.no_options (Sample.unregistered 0)
  = (Throw (DisTubeError EMPTY_ARRAY "songs"), Sample.unregistered 0) /\
  createCustomPlaylist (collaborators := Sample.collaborators)
    (SongsArray [IString "a tune"; IResult {| result_type := PLAYLIST; result_url := "p" |}])
    Sample.no_options (Sample.unregistered 0)
  = (Throw (DisTubeError NO_VALID_SONG ""), Sample.unregistered 0).
Proof.
  split.
  - apply (createCustomPlaylist_turns_down (collaborators := Sample.collaborators)).
    reflexivity.
  - apply (createCustomPlaylist_turns_down (collaborators := Sample.collaborators)).
    + discriminate.
    + repeat constructor.
Defined.

Lemma setVolume_validates_percent_witness :
  (exists e,
     setVolume (collaborators := Sample.collaborators) Sample.voiceChannel (num 0)
       (Sample.registered [] 0)
     = (Throw e, Sample.registered [] 0) /\ is_invalid_argument e = true) /\
  (exists e,
     setVolume (collaborators := Sample.collaborators) Sample.voiceChannel (num (-20))
       (Sample.registered [] 0)
     = (Throw e, Sample.registered [] 0) /\ is_invalid_argument e = true) /\
  (exists st',
     setVolume (collaborators := Sample.collaborators) Sample.voiceChannel (num 150)
       (Sample.registered [] 0)
     = (Return Sample.queue, st') /\
     q_volume <$> heap (world st') !! Sample.queue = Some (num 150) /\
     q_stream_volume <$> heap (world st') !! Sample.queue = Some (num 150)).
Proof.
  destruct (setVolume_validates_percent (collaborators := Sample.collaborators)
              Sample.voiceChannel (Sample.registered [] 0) Sample.queue (Sample.a_queue [])
              eq_refl eq_refl) as [Hfails (st' & Hsets & Hheap & _)].
  split; [apply Hfails; left; reflexivity|].
  split; [apply Hfails; right; reflexivity|].
  exists st'. split; [exact Hsets|]. rewrite Hheap. split; reflexivity.
Defined.

Lemma setRepeatMode_cycles_witness :
  (exists st',
     setRepeatMode (collaborators := Sample.collaborators) Sample.voiceChannel None
       (Sample.registered [] 0)
     = (Return (num 1), st') /\
     q_repeatMode <$> heap (world st') !! Sample.queue = Some SONG) /\
  (setRepeatMode (collaborators := Sample.collaborators) Sample.voiceChannel None ;;
   setRepeatMode (collaborators := Sample.collaborators) Sample.voiceChannel None ;;
   setRepeatMode (collaborators := Sample.collaborators) Sample.voiceChannel None)
    (Sample.registered [] 0)
  = (Return (num 0), Sample.registered [] 0).
Proof.
  apply (setRepeatMode_cycles (collaborators := Sample.collaborators) Sample.voiceChannel
           (Sample.registered [] 0) Sample.queue (Sample.a_queue []));
    reflexivity.
Defined.

Lemma no_queue_is_not_found_witness :
  getQueue (collaborators := Sample.collaborators) Sample.voiceChannel (Sample.unregistered 0)
  = (Return None, Sample.unregistered 0) /\
  pause (collaborators := Sample.collaborators) Sample.voiceChannel (Sample.unregistered 0)
  = (Throw (DisTubeError NO_QUEUE ""), Sample.unregistered 0) /\
  toggleAutoplay (collaborators := Sample.collaborators) Sample.voiceChannel
    (Sample.unregistered 0)
  = (Throw (DisTubeError NO_QUEUE ""), Sample.unregistered 0).
Proof.
  destruct (no_queue_is_not_found (collaborators := Sample.collaborators) Sample.voiceChannel
              (Sample.unregistered 0) eq_refl)
    as (Hget & Hpause & _ & _ & _ & _ & _ & _ & _ & _ & Htoggle & _).
  split; [exact Hget|]. split; [exact Hpause|exact Htoggle].
Defined.

Lemma sample_resolver_deterministic (song : SongArg) (o : ResolveOptions) (w : World nat) :
  fst (handler_resolve (Collaborators := Sample.collaborators) song o w)
  = fst (Sample.resolver song o (world (Sample.unregistered 0))).
Proof. destruct song as [s | | | |]; cbn; try reflexivity. now destruct (String.eqb s _). Defined.

Lemma parallel_and_sequential_agree_witness :
  fst (createCustomPlaylist (collaborators := Sample.collaborators) Sample.three_songs
         (with_parallel (VBool true) Sample.no_options) (Sample.unregistered 0))
  = fst (createCustomPlaylist (collaborators := Sample.collaborators) Sample.three_songs
           (with_parallel (VBool false) Sample.no_options) (Sample.unregistered 0)).
Proof.
  apply (parallel_and_sequential_agree (collaborators := Sample.collaborators)
           (fun song o => fst (Sample.resolver song o (world (Sample.unregistered 0))))
           Sample.three_songs Sample.no_options (Sample.unregistered 0)
           sample_resolver_deterministic).
Defined.

(** * More properties of the command layer *)

Section MoreProperties.

Context {Env : Type} {collaborators : Collaborators Env}.

Abbreviation State' := (St Env).

(** ** What a run shows *)

Section Shows.

Context {S : Type} (P : Event -> Prop) (tr : S -> list Event).

Lemma shows_silent {A} (m : M S A) :
  (forall s, tr (snd (m s)) = tr s) -> shows P tr m.
Proof. intros H s. exists []. now rewrite H, app_nil_r. Qed.

Lemma shows_ret {A} (a : A) : shows P tr (ret a).
Proof. now apply shows_silent. Qed.

Lemma shows_throw {A} (e : Thrown) : shows P tr (@throw S A e).
Proof. now apply shows_silent. Qed.

Lemma shows_bind {A B} (m : M S A) (k : A -> M S B) :
  shows P tr m -> (forall a, shows P tr (k a)) -> shows P tr (bind m k).
Proof.
  intros Hm Hk s. unfold bind. destruct (Hm s) as (c1 & H1 & F1).
  destruct (m s) as [[a | e] s1]; cbn in *; [|now exists c1].
  destruct (Hk a s1) as (c2 & H2 & F2). exists (c1 ++ c2).
  rewrite H2, H1, app_assoc. split; [reflexivity|]. now apply Forall_app.
Qed.

Lemma shows_try_catch {A} (m : M S A) (h : Thrown -> M S A) :
  shows P tr m -> (forall e, shows P tr (h e)) -> shows P tr (try_catch m h).
Proof.
  intros Hm Hh s. unfold try_catch. destruct (Hm s) as (c1 & H1 & F1).
  destruct (m s) as [[a | e] s1]; cbn in *; [now exists c1|].
  destruct (Hh e s1) as (c2 & H2 & F2). exists (c1 ++ c2).
  rewrite H2, H1, app_assoc. split; [reflexivity|]. now apply Forall_app.
Qed.

Lemma shows_try_finally {A} (m : M S A) (f : M S unit) :
  shows P tr m -> shows P tr f -> shows P tr (try_finally m f).
Proof.
  intros Hm Hf s. unfold try_finally. destruct (Hm s) as (c1 & H1 & F1).
  destruct (m s) as [r s1]. cbn in *. destruct (Hf s1) as (c2 & H2 & F2).
  exists (c1 ++ c2). split; [|now apply Forall_app].
  destruct (f s1) as [[[] | e] s2]; cbn in *; now rewrite H2, H1, app_assoc.
Qed.

Lemma shows_ext {A} (m m' : M S A) :
  (forall s, m s = m' s) -> shows P tr m' -> shows P tr m.
Proof. intros Heq H s. rewrite Heq. apply H. Qed.

End Shows.

Lemma shows_call (P : Event -> Prop) {A} (callee : string)
    (f : World Env -> Outcome A * World Env) :
  P (ECall callee) -> shows P trace (call callee f).
Proof.
  intros HP st. exists [ECall callee]. unfold call. destruct (f (world st)).
  split; [reflexivity|]. now repeat constructor.
Qed.

Lemma shows_lift (P : Event -> Prop) {A} (l : Type) (m : M State' A) :
  shows P trace m -> shows P (fun s : State' * l => trace (fst s)) (lift m).
Proof.
  intros H [st x]. destruct (H st) as (events & Ht & Hc). exists events.
  unfold lift. cbn. now destruct (m st).
Qed.

Lemma shows_with_local (P : Event -> Prop) {A} (l : Type) (x : l) (m : M (State' * l) A) :
  shows P (fun s : State' * l => trace (fst s)) m -> shows P trace (with_local x m).
Proof.
  intros H st. destruct (H (st, x)) as (events & Ht & Hc). exists events.
  unfold with_local. now destruct (m (st, x)).
Qed.

Lemma search_shows (P : Event -> Prop) (query : string) (options : SearchOptions) :
  P (ECall "ytsr") -> shows P trace (search query options).
Proof.
  intros HP.
  assert (forall opts, shows P trace (search_try query opts)) as Htry.
  { intros opts. unfold search_try. apply shows_bind; [now apply shows_call|].
    intros items. destruct (_ =? _)%nat; [apply shows_throw|apply shows_ret]. }
  assert (forall options, retried options = true -> shows P trace (search query options))
    as Hretried.
  { intros o Ho. eapply shows_ext; [intros st; apply search_step|]. rewrite Ho.
    destruct (search_invalid _); [apply shows_throw|].
    apply shows_try_catch; [apply Htry|]. intros e. apply shows_throw. }
  eapply shows_ext; [intros st; apply search_step|].
  destruct (search_invalid _); [apply shows_throw|].
  apply shows_try_catch; [apply Htry|]. intros e.
  destruct (retried options); [apply shows_throw|]. now apply Hretried.
Qed.

Lemma play_plugins_shows (P : Event -> Prop) (plugins : list (CustomPlugin Env))
    (voiceChannel : Value) (song : string) (options : OptionsArg) :
  P (ECall "plugin.validate") -> P (ECall "plugin.play") ->
  shows P trace (play_plugins plugins voiceChannel song options).
Proof.
  intros Hvalidate Hplay.
  induction plugins as [|plugin rest IH]; cbn; [apply shows_ret|].
  apply shows_bind; [now apply shows_call|]. intros [|]; [|exact IH].
  apply shows_bind; [now apply shows_call|]. intros _. apply shows_ret.
Qed.

(** The block of [play], started with [song]: which calls it can make depends
    on what [song] is and on whether there is a message. *)
Lemma play_try_shows (P : Event -> Prop) (voiceChannel : Value) (options : OptionsArg)
    (message member metadata textChannel skip : Value) (position : number)
    (st : State') (song : SongArg) :
  (forall s, song = SString s -> P (ECall "plugin.validate") /\ P (ECall "plugin.play")) ->
  (forall s, song = SString s -> isURL song = false -> truthy message = false ->
     P (ECall "ytsr")) ->
  (forall s, song = SString s -> isURL song = false -> truthy message = true ->
     P (ECall "handler.searchSong")) ->
  P (ECall "handler.resolve") ->
  P (ECall "handler.playPlaylist") ->
  P (ECall "handler.playSong") ->
  exists events,
    trace (fst (snd (play_try voiceChannel options message member metadata textChannel
                       skip position (st, song))))
    = trace st ++ events /\ Forall P events.
Proof.
  intros Hplugins Hytsr HsearchSong Hresolve HplayPlaylist HplaySong.
  set (tr := fun s : State' * SongArg => trace (fst s)).
  assert (forall A (a : A), shows P tr (ret a)) as Hret by (intros; apply shows_ret).
  assert (forall l, shows P tr (set_local l)) as Hset by (intros; now apply shows_silent).
  assert (shows P tr get_local) as Hget by now apply shows_silent.
  unfold play_try. unfold bind at 1. cbn [get_local snd].
  refine ((_ : shows P tr _) (st, song)).
  apply shows_bind.
  { destruct song; try apply Hret. apply shows_lift.
    destruct (Hplugins _ eq_refl). now apply play_plugins_shows. }
  intros [|]; [apply Hret|].
  apply shows_bind.
  { destruct song as [s | | | |]; try apply Hret.
    destruct (isURL (SString s)) eqn:Hurl; cbn [negb]; [apply Hret|].
    destruct (truthy message) eqn:Hmessage; cbn [negb].
    - apply shows_bind; [apply shows_lift, shows_call; eauto|]. intros [r|]; [|apply Hret].
      apply shows_bind; [apply Hset|]. intros _. apply Hret.
    - apply shows_bind; [apply shows_lift, search_shows; eauto|]. intros results.
      apply shows_bind; [apply Hset|]. intros _. apply Hret. }
  intros [|]; [apply Hret|].
  apply shows_bind; [exact Hget|]. intros song'.
  apply shows_bind; [now apply shows_lift, shows_call|]. intros resolved.
  apply shows_bind; [apply Hset|]. intros _.
  destruct resolved; now apply shows_lift, shows_call.
Qed.

(** [play] either fails a check, or is its guarded block, run with the lock
    or without. *)
Lemma play_cases (voiceChannel : Value) (song : SongArg) (options : OptionsArg)
    (st : State') :
  (exists name,
     play voiceChannel song options st = (Throw (DisTubeError INVALID_TYPE name), st)) \/
  (exists o queue queuing st_q,
     default_options options = OptionsObject o /\
     queue = queues (world st) !! resolveGuildId voiceChannel /\
     play voiceChannel song options st
     = with_local song (play_guarded queue queuing (play_block voiceChannel o)) st_q /\
     ((queuing = false /\ st_q = st) \/
      (exists q, queue = Some q /\ queuing = true /\
                 st_q = snd (TaskQueue_queuing (Some q) true st)))).
Proof.
  unfold play.
  destruct (isSupportedVoiceChannel voiceChannel); cbn [negb]; [|left; now eexists].
  destruct (default_options options) as [o | v]; [|left; now eexists].
  destruct (truthy _ && negb (isMessageInstance _)); [left; now eexists|].
  destruct (truthy _ && negb (isTextChannelInstance _)); [left; now eexists|].
  destruct (truthy _ && negb (isMemberInstance _)); [left; now eexists|].
  right. exists o, (queues (world st) !! resolveGuildId voiceChannel).
  unfold bind at 1. rewrite getQueue_lookup.
  destruct (queues (world st) !! resolveGuildId voiceChannel) as [q|].
  - unfold bind at 1. unfold bind at 1. unfold hasResolveTask, read_queue, ret at 1.
    destruct (default false _).
    + exists false, st. do 3 (split; [reflexivity|]). now left.
    + exists true, (snd (TaskQueue_queuing (Some q) true st)).
      do 2 (split; [reflexivity|]).
      split; [cbn [negb]; unfold bind; now rewrite TaskQueue_queuing_returns|].
      right. now exists q.
  - exists false, st. do 3 (split; [reflexivity|]). now left.
Qed.

Lemma play_guarded_shows (P : Event -> Prop) (queue : option QueueRef) (queuing : bool)
    (body : M (State' * SongArg) unit) (song : SongArg) (st : State') :
  (forall q, P (EResolve q)) ->
  (exists events,
     trace (fst (snd (body (st, song)))) = trace st ++ events /\ Forall P events) ->
  exists events,
    trace (snd (with_local song (play_guarded queue queuing body) st)) = trace st ++ events /\
    Forall P events.
Proof.
  intros Hresolve (events & Htrace & Hevents).
  unfold with_local, play_guarded, try_finally, try_catch.
  destruct (body (st, song)) as [[[] | e] [st1 song1]]; cbn in Htrace.
  - destruct queuing, queue as [q|]; cbn.
    + exists (events ++ [EResolve q]). rewrite Htrace, app_assoc. split; [reflexivity|].
      apply Forall_app. split; [exact Hevents|]. now repeat constructor.
    + now exists events.
    + now exists events.
    + now exists events.
  - destruct queuing, queue as [q|]; cbn.
    + exists (events ++ [EResolve q]). rewrite Htrace, app_assoc. split; [reflexivity|].
      apply Forall_app. split; [exact Hevents|]. now repeat constructor.
    + now exists events.
    + now exists events.
    + now exists events.
Qed.

(** What [play] shows, by what its song and its options are. *)
Lemma play_shows (P : Event -> Prop) (voiceChannel : Value) (song : SongArg)
    (options : OptionsArg) (st : State') :
  (forall q, P (EQueuing q true)) ->
  (forall q, P (EResolve q)) ->
  (forall s, song = SString s -> P (ECall "plugin.validate") /\ P (ECall "plugin.play")) ->
  (forall s o, song = SString s -> isURL song = false ->
     default_options options = OptionsObject o -> truthy (get (opt_message o)) = false ->
     P (ECall "ytsr")) ->
  (forall s o, song = SString s -> isURL song = false ->
     default_options options = OptionsObject o -> truthy (get (opt_message o)) = true ->
     P (ECall "handler.searchSong")) ->
  P (ECall "handler.resolve") ->
  P (ECall "handler.playPlaylist") ->
  P (ECall "handler.playSong") ->
  exists events,
    trace (snd (play voiceChannel song options st)) = trace st ++ events /\ Forall P events.
Proof.
  intros Hqueuing Hresolve Hplugins Hytsr HsearchSong Hr Hpl Hps.
  destruct (play_cases voiceChannel song options st)
    as [[name ->] | (o & queue & queuing & st_q & Ho & _ & -> & Hlock)].
  { exists []. now rewrite app_nil_r. }
  assert (exists events,
            trace (snd (with_local song
                          (play_guarded queue queuing (play_block voiceChannel o)) st_q))
            = trace st_q ++ events /\ Forall P events) as (events & Htrace & Hevents).
  { apply play_guarded_shows; [exact Hresolve|]. apply play_try_shows; eauto. }
  destruct Hlock as [[_ ->] | (q & _ & _ & ->)]; [now exists events|].
  exists (EQueuing q true :: events). rewrite Htrace, TaskQueue_queuing_trace, <- app_assoc.
  split; [reflexivity|]. now constructor.
Qed.

(** A closed question about names of callees. *)
Ltac other_callee :=
  cbn; intros Hin; repeat (apply elem_of_cons in Hin as [Hin | Hin]; [discriminate Hin|]);
  now apply elem_of_nil in Hin.

(** X1: a song that is no string (a [Song], a search result, a playlist) is
    never shown to the plugins and never searched for: [play] calls neither
    [plugin.validate] nor [plugin.play], neither [ytsr] nor
    [handler.searchSong], whatever else happens. *)
Theorem play_of_an_object_asks_nobody (voiceChannel : Value) (song : SongArg)
    (options : OptionsArg) (st : State') :
  (forall s, song <> SString s) ->
  exists events,
    trace (snd (play voiceChannel song options st)) = trace st ++ events /\
    Forall (calls_none_of ["plugin.validate"; "plugin.play"; "ytsr"; "handler.searchSong"])
      events.
Proof.
  intros Hsong. apply play_shows; try (intros; exact I); try other_callee;
    intros s; intros; now destruct (Hsong s).
Qed.

(** X2: a string that [isURL] accepts is never searched for: [play] calls
    neither [ytsr] nor [handler.searchSong]. *)
Theorem play_of_a_url_never_searches (voiceChannel : Value) (url : string)
    (options : OptionsArg) (st : State') :
  isURL (SString url) = true ->
  exists events,
    trace (snd (play voiceChannel (SString url) options st)) = trace st ++ events /\
    Forall (calls_none_of ["ytsr"; "handler.searchSong"]) events.
Proof.
  intros Hurl. apply play_shows; try (intros; exact I); try other_callee.
  - intros s. split; other_callee.
  - intros s o [= <-] Hno. congruence.
  - intros s o [= <-] Hno. congruence.
Qed.

(** X3: which search [play] uses is decided by [options.message] alone: with
    a message (a truthy one) the search library is never asked directly, and
    without one the interactive search of the handler is never started. *)
Theorem play_searches_by_message (voiceChannel : Value) (song : SongArg)
    (o : PlayOptions) (st : State') :
  exists events,
    trace (snd (play voiceChannel song (OptionsObject o) st)) = trace st ++ events /\
    Forall (calls_none_of [if truthy (get (opt_message o)) then "ytsr"
                           else "handler.searchSong"]) events.
Proof.
  apply play_shows; try (intros; exact I);
    try (destruct (truthy (get (opt_message o))); other_callee).
  - intros s _. split; destruct (truthy (get (opt_message o))); other_callee.
  - intros s o' _ _ [= <-] ->. other_callee.
  - intros s o' _ _ [= <-] ->. other_callee.
Qed.

(** ** How [play] ends *)

Lemma PlayError_name (song : SongArg) (e : Thrown) (name message : string) :
  PlayError song e = JSError name message -> name = "PlayError".
Proof.
  destruct e as [code blamed | n m | v]; cbn; try discriminate.
  destruct (song_label song); now intros [= <- _].
Qed.

(** The guarded block ends as its block does, but for the errors, which go
    through the [catch] clause. *)
Lemma play_guarded_ends (queue : option QueueRef) (queuing : bool)
    (body : M (State' * SongArg) unit) (song : SongArg) (st : State') :
  fst (with_local song (play_guarded queue queuing body) st)
  = match body (st, song) with
    | (Return tt, _) => Return tt
    | (Throw e, (_, song')) => Throw (PlayError song' e)
    end.
Proof.
  unfold with_local, play_guarded, try_finally, try_catch.
  destruct (body (st, song)) as [[[] | e] [st1 song1]];
    destruct queuing, queue; reflexivity.
Qed.

(** X4: an [Error] that leaves [play] is a [PlayError]: whatever error
    object a plugin, the search or the handler throws, its name is "PlayError"
    when [play] rejects with it, unless it is a [DisTubeError], which passes
    as it is. *)
Theorem play_throws_PlayError (voiceChannel : Value) (song : SongArg)
    (options : OptionsArg) (st : State') (name message : string) :
  fst (play voiceChannel song options st) = Throw (JSError name message) ->
  name = "PlayError".
Proof.
  destruct (play_cases voiceChannel song options st)
    as [[blamed ->] | (o & queue & queuing & st_q & _ & _ & -> & _)]; [discriminate|].
  rewrite play_guarded_ends.
  destruct (play_block voiceChannel o (st_q, song)) as [[[] | e] [st1 song1]];
    [discriminate|].
  intros [= H]. eapply PlayError_name, H.
Qed.

(** X5: for a guild with no queue, [play] takes no lock: past its checks it
    performs no operation on any task queue, neither [queuing] nor [resolve];
    what it shows is calls only. *)
Theorem play_unregistered_takes_no_lock (voiceChannel : Value) (song : SongArg)
    (options : OptionsArg) (st : State') :
  queues (world st) !! resolveGuildId voiceChannel = None ->
  exists calls,
    trace (snd (play voiceChannel song options st)) = trace st ++ calls /\
    Forall (fun e => is_call e = true) calls.
Proof.
  intros Hnone.
  destruct (play_cases voiceChannel song options st)
    as [[blamed ->] | (o & queue & queuing & st_q & _ & Hqueue & Hplay & Hlock)].
  { exists []. split; [now rewrite app_nil_r|constructor]. }
  assert (queuing = false /\ st_q = st) as [-> ->].
  { destruct Hlock as [H | (q & Hq & _ & _)]; [exact H|]. congruence. }
  rewrite Hplay.
  destruct (play_guarded_unlocked queue (play_block voiceChannel o) st song)
    as (calls & Hcalls & Htrace); [apply play_try_only_calls|].
  now exists calls.
Qed.

(** ** The plugins of [play] *)



(** ** The handler of [play] *)

Lemma before_resolve_bind {S A B} (tr : S -> list Event) (m : M S A) (k : A -> M S B) :
  shows (calls_none_of handler_calls) tr m ->
  (forall a s, exists pre post,
     tr (snd (k a s)) = tr s ++ pre ++ post /\
     Forall (calls_none_of handler_calls) pre /\ resolve_then_play post) ->
  forall s, exists pre post,
    tr (snd (bind m k s)) = tr s ++ pre ++ post /\
    Forall (calls_none_of handler_calls) pre /\ resolve_then_play post.
Proof.
  intros Hm Hk s. unfold bind. destruct (Hm s) as (c1 & H1 & F1).
  destruct (m s) as [[a | e] s1]; cbn in *.
  - destruct (Hk a s1) as (pre & post & H2 & F2 & Hpost). exists (c1 ++ pre), post.
    rewrite H2, H1, <- !app_assoc. split; [reflexivity|]. split; [|exact Hpost].
    now apply Forall_app.
  - exists c1, []. rewrite app_nil_r. split; [exact H1|]. split; [exact F1|]. now left.
Qed.

Lemma play_try_plays_once (voiceChannel : Value) (options : OptionsArg)
    (message member metadata textChannel skip : Value) (position : number)
    (s : State' * SongArg) :
  exists pre post,
    trace (fst (snd (play_try voiceChannel options message member metadata textChannel
                       skip position s)))
    = trace (fst s) ++ pre ++ post /\
    Forall (calls_none_of handler_calls) pre /\ resolve_then_play post.
Proof.
  set (tr := fun s : State' * SongArg => trace (fst s)).
  set (P := calls_none_of handler_calls).
  assert (forall A (a : A), shows P tr (ret a)) as Hret by (intros; apply shows_ret).
  assert (forall l, shows P tr (set_local l)) as Hset by (intros; now apply shows_silent).
  assert (shows P tr get_local) as Hget by now apply shows_silent.
  assert (forall s' : State' * SongArg, exists pre post,
            tr (snd (@ret _ unit tt s')) = tr s' ++ pre ++ post /\
            Forall P pre /\ resolve_then_play post) as Hdone.
  { intros s'. exists [], []. cbn. rewrite app_nil_r. repeat split; [constructor|now left]. }
  revert s. unfold play_try.
  apply (before_resolve_bind tr); [exact Hget|]. intros song.
  apply (before_resolve_bind tr).
  { destruct song; try apply Hret. apply shows_lift, play_plugins_shows; other_callee. }
  intros [|]; [exact Hdone|].
  apply (before_resolve_bind tr).
  { destruct song as [x | | | |]; try apply Hret.
    destruct (negb (isURL _)); [|apply Hret]. destruct (negb (truthy message)).
    - apply shows_bind; [apply shows_lift, search_shows; other_callee|]. intros results.
      apply shows_bind; [apply Hset|]. intros _. apply Hret.
    - apply shows_bind; [apply shows_lift, shows_call; other_callee|].
      intros [r|]; [|apply Hret].
      apply shows_bind; [apply Hset|]. intros _. apply Hret. }
  intros [|]; [exact Hdone|].
  apply (before_resolve_bind tr); [exact Hget|]. intros song' [st x].
  exists []. unfold bind, lift, call, set_local. cbn.
  destruct (handler_resolve song' _ (world st)) as [[[track | list] | e] w]; cbn.
  - destruct (handler_playSong _ _ _ w); cbn. eexists. rewrite <- app_assoc.
    split; [reflexivity|]. split; [constructor|]. right. right. now left.
  - destruct (handler_playPlaylist _ _ _ w); cbn. eexists. rewrite <- app_assoc.
    split; [reflexivity|]. split; [constructor|]. right. right. now right.
  - eexists. split; [reflexivity|]. split; [constructor|]. right. now left.
Qed.

(** X7: [play] resolves at most once and plays at most once, and it plays
    only what it has just resolved: among all it does, the calls to the
    handler's [resolve], [playSong] and [playPlaylist] are none, or one
    [resolve], or one [resolve] followed at once by one of the other two. *)
Theorem play_resolves_then_plays_once (voiceChannel : Value) (song : SongArg)
    (options : OptionsArg) (st : State') :
  exists pre post rest,
    trace (snd (play voiceChannel song options st)) = trace st ++ pre ++ post ++ rest /\
    Forall (calls_none_of handler_calls) pre /\
    resolve_then_play post /\
    Forall (calls_none_of handler_calls) rest.
Proof.
  destruct (play_cases voiceChannel song options st)
    as [[blamed ->] | (o & queue & queuing & st_q & _ & _ & -> & Hlock)].
  { exists [], [], []. cbn. rewrite app_nil_r.
    split; [reflexivity|]. split; [constructor|]. split; [now left|constructor]. }
  destruct (play_try_plays_once voiceChannel (OptionsObject o) (get (opt_message o))
              (play_member voiceChannel o) (get (opt_metadata o)) (play_textChannel o)
              (play_skip o) (play_position o (play_skip o)) (st_q, song))
    as (pre & post & Htrace & Hpre & Hpost).
  fold (play_block voiceChannel o) in Htrace. cbn [fst] in Htrace.
  assert (exists rest,
            trace (snd (with_local song
                          (play_guarded queue queuing (play_block voiceChannel o)) st_q))
            = trace st_q ++ pre ++ post ++ rest /\
            Forall (calls_none_of handler_calls) rest) as (rest & Hall & Hrest).
  { unfold with_local, play_guarded, try_finally, try_catch.
    destruct (play_block voiceChannel o (st_q, song)) as [[[] | e] [st1 song1]];
      cbn in Htrace; destruct queuing, queue as [q|]; cbn; rewrite Htrace;
      first [ exists [EResolve q]; rewrite <- !app_assoc; split; [reflexivity|];
              now repeat constructor
            | exists []; rewrite app_nil_r; split; [reflexivity|constructor] ]. }
  destruct Hlock as [[_ ->] | (q & _ & _ & ->)]; [now exists pre, post, rest|].
  exists (EQueuing q true :: pre), post, rest.
  rewrite Hall, TaskQueue_queuing_trace, <- app_assoc.
  split; [reflexivity|]. split; [now constructor|]. now split.
Qed.

(** ** A search that is called off *)

Lemma play_past_checks (voiceChannel : Value) (song : SongArg) (options : OptionsArg)
    (o : PlayOptions) (st : State') :
  play_accepts voiceChannel options o ->
  exists queue queuing st_q,
    play voiceChannel song options st
    = with_local song (play_guarded queue queuing (play_block voiceChannel o)) st_q /\
    ((queuing = false /\ st_q = st) \/
     (exists q, queue = Some q /\ queuing = true /\
                st_q = snd (TaskQueue_queuing (Some q) true st))).
Proof.
  intros (Hvc & Ho & Hmessage & Hchannel & Hmember). unfold play.
  rewrite Hvc, Ho. cbn [negb].
  assert (forall v (guard : Value -> bool),
            (truthy v = true -> guard v = true) -> truthy v && negb (guard v) = false)
    as Hcheck.
  { intros v guard H. destruct (truthy v); [|reflexivity]. now rewrite H. }
  rewrite (Hcheck _ _ Hmessage), (Hcheck _ _ Hchannel), (Hcheck _ _ Hmember).
  exists (queues (world st) !! resolveGuildId voiceChannel).
  unfold bind at 1. rewrite getQueue_lookup.
  destruct (queues (world st) !! resolveGuildId voiceChannel) as [q|].
  - unfold bind at 1. unfold bind at 1. unfold hasResolveTask, read_queue, ret at 1.
    destruct (default false _).
    + exists false, st. split; [reflexivity|]. now left.
    + exists true, (snd (TaskQueue_queuing (Some q) true st)).
      split; [cbn [negb]; unfold bind; now rewrite TaskQueue_queuing_returns|].
      right. now exists q.
  - exists false, st. split; [reflexivity|]. now left.
Qed.

(** ** The position of [play] *)

Lemma calls_none_of_plays (e : Event) :
  calls_none_of handler_calls e ->
  calls_none_of ["handler.playSong"; "handler.playPlaylist"] e.
Proof.
  destruct e as [| |callee]; cbn; try easy.
  intros Hnone Hin. apply Hnone. now apply list_elem_of_further.
Qed.

Lemma ends_playing_bind {A} (voiceChannel member metadata : Value)
    (handed : PlayHandlerOptions) (m : M (State' * SongArg) A)
    (k : A -> M (State' * SongArg) unit) :
  shows (calls_none_of handler_calls) (fun s : State' * SongArg => trace (fst s)) m ->
  (forall a s, ends_playing voiceChannel member metadata handed s (k a s)) ->
  forall s, ends_playing voiceChannel member metadata handed s (bind m k s).
Proof.
  intros Hm Hk s. unfold bind. destruct (Hm s) as (c1 & H1 & F1).
  destruct (m s) as [[a | e] s1]; cbn in H1.
  - destruct (Hk a s1)
      as [(events & Ht & Hf) | (song & w & resolved & w' & Hr & Hp & events & Ht & Hf)].
    + left. exists (c1 ++ events). rewrite Ht, H1, app_assoc. split; [reflexivity|].
      apply Forall_app. split; [|exact Hf].
      eapply Forall_impl; [exact F1|]. apply calls_none_of_plays.
    + right. exists song, w, resolved, w'. split; [exact Hr|]. split; [exact Hp|].
      exists (c1 ++ events). rewrite Ht, H1, <- !app_assoc. split; [reflexivity|].
      now apply Forall_app.
  - left. exists c1. split; [exact H1|].
    eapply Forall_impl; [exact F1|]. apply calls_none_of_plays.
Qed.

(** The block ends before it plays, or it plays what it has just resolved,
    with the options it was given. *)
Lemma play_try_ends_playing (voiceChannel : Value) (options : OptionsArg)
    (message member metadata textChannel skip : Value) (position : number)
    (s : State' * SongArg) :
  ends_playing voiceChannel member metadata
    {| h_textChannel := textChannel; h_skip := skip; h_position := position |} s
    (play_try voiceChannel options message member metadata textChannel skip position s).
Proof.
  set (tr := fun s : State' * SongArg => trace (fst s)).
  set (P := calls_none_of handler_calls).
  set (handed := {| h_textChannel := textChannel; h_skip := skip; h_position := position |}).
  assert (forall A (a : A), shows P tr (ret a)) as Hret by (intros; apply shows_ret).
  assert (forall l, shows P tr (set_local l)) as Hset by (intros; now apply shows_silent).
  assert (shows P tr get_local) as Hget by now apply shows_silent.
  assert (forall s' : State' * SongArg,
            ends_playing voiceChannel member metadata handed s' (@ret _ unit tt s')) as Hdone.
  { intros s'. left. exists []. cbn. rewrite app_nil_r. split; [reflexivity|constructor]. }
  revert s. unfold play_try.
  apply ends_playing_bind; [exact Hget|]. intros song.
  apply ends_playing_bind.
  { destruct song; try apply Hret. apply shows_lift, play_plugins_shows; other_callee. }
  intros [|]; [exact Hdone|].
  apply ends_playing_bind.
  { destruct song as [x | | | |]; try apply Hret.
    destruct (negb (isURL _)); [|apply Hret]. destruct (negb (truthy message)).
    - apply shows_bind; [apply shows_lift, search_shows; other_callee|]. intros results.
      apply shows_bind; [apply Hset|]. intros _. apply Hret.
    - apply shows_bind; [apply shows_lift, shows_call; other_callee|].
      intros [r|]; [|apply Hret].
      apply shows_bind; [apply Hset|]. intros _. apply Hret. }
  intros [|]; [exact Hdone|].
  apply ends_playing_bind; [exact Hget|]. intros song' [st x].
  unfold bind at 1. unfold lift at 1, call at 1. cbn [fst snd].
  destruct (handler_resolve song' {| r_member := member; r_metadata := metadata |} (world st))
    as [[resolved | e] w'] eqn:Hresolve.
  - right. exists song', (world st), resolved, w'. split; [exact Hresolve|].
    unfold bind, set_local, lift, call. subst handed. cbn.
    destruct resolved as [track | list].
    + cbn. destruct (handler_playSong voiceChannel track _ w') as [r w'']. cbn.
      split; [reflexivity|]. exists []. rewrite <- app_assoc. split; [reflexivity|constructor].
    + cbn. destruct (handler_playPlaylist voiceChannel list _ w') as [r w'']. cbn.
      split; [reflexivity|]. exists []. rewrite <- app_assoc. split; [reflexivity|constructor].
  - left. exists [ECall "handler.resolve"]. cbn. split; [reflexivity|].
    repeat constructor. other_callee.
Qed.

(** C9: the position that [play] hands to the handler.  Let the arguments
    pass the checks, and let [position] be [Number(options.position)] when that
    is a number other than [0], [-0] and [NaN], and otherwise [1] when
    [options.skip] holds and [0] when it does not (nor is given).  So it is [1]
    for a position of [0], and for one that is no number, when [options.skip]
    is [true].  Then [play] is its guarded block, and whenever that block gets
    to play, a song or a playlist, the call of the handler that plays it is
    handed this [position], together with [options.skip] ([false] when not
    given) and the text channel. *)
Theorem play_position_default (voiceChannel : Value) (song : SongArg)
    (options : OptionsArg) (o : PlayOptions) (st : State') :
  play_accepts voiceChannel options o ->
  let n := Number (get (opt_position o)) in
  let position :=
    match n with
    | S754_zero _ | S754_nan => if truthy (get (opt_skip o)) then num 1 else num 0
    | _ => n
    end in
  let handed :=
    {| h_textChannel := play_textChannel o;
       h_skip := match opt_skip o with Some skip => skip | None => VBool false end;
       h_position := position |} in
  (forall sign, get (opt_position o) = VNumber (S754_zero sign) ->
                get (opt_skip o) = VBool true -> position = num 1) /\
  (n = NaN -> get (opt_skip o) = VBool true -> position = num 1) /\
  exists queue queuing st_q,
    play voiceChannel song options st
    = with_local song (play_guarded queue queuing (play_block voiceChannel o)) st_q /\
    ((queuing = false /\ st_q = st) \/
     (exists q, queue = Some q /\ queuing = true /\
                st_q = snd (TaskQueue_queuing (Some q) true st))) /\
    ends_playing voiceChannel (play_member voiceChannel o) (get (opt_metadata o)) handed
      (st_q, song) (play_block voiceChannel o (st_q, song)).
Proof.
  intros Hok n position handed.
  split; [intros sign Hzero Hskip; subst position n; now rewrite Hzero, Hskip|].
  split; [intros Hnan Hskip; subst position; now rewrite Hnan, Hskip|].
  destruct (play_past_checks voiceChannel song options o st Hok)
    as (queue & queuing & st_q & Hplay & Hlock).
  exists queue, queuing, st_q. split; [exact Hplay|]. split; [exact Hlock|].
  assert (handed = {| h_textChannel := play_textChannel o; h_skip := play_skip o;
                      h_position := play_position o (play_skip o) |}) as ->.
  { subst handed position n. unfold play_position, play_skip, spread_over, get.
    destruct (opt_skip o) as [skip|]; cbn [default from_option id];
      now destruct (Number _). }
  apply play_try_ends_playing.
Qed.

Lemma play_plugins_all_decline (plugins : list (CustomPlugin Env))
    (voiceChannel : Value) (song : string) (options : OptionsArg) :
  (forall plugin, plugin ∈ plugins ->
     forall w, fst (plugin_validate plugin song w) = Return false) ->
  forall st, exists st',
    play_plugins plugins voiceChannel song options st = (Return false, st') /\
    trace st' = trace st ++ replicate (length plugins) (ECall "plugin.validate").
Proof.
  induction plugins as [|plugin rest IH]; intros Hdecline st.
  - exists st. cbn. now rewrite app_nil_r.
  - cbn [play_plugins]. unfold bind at 1. unfold call at 1.
    pose proof (Hdecline plugin (list_elem_of_here _ _) (world st)) as Hno.
    destruct (plugin_validate plugin song (world st)) as [r w]. cbn in Hno. subst r.
    destruct (IH (fun p Hp => Hdecline p (list_elem_of_further _ _ _ Hp))
                {| world := w; trace := trace st ++ [ECall "plugin.validate"] |})
      as (st' & Hrun & Htrace).
    exists st'. split; [exact Hrun|]. rewrite Htrace. cbn. now rewrite <- app_assoc.
Qed.

(** X8: a search that the user calls off ends [play] quietly.  Let the
    arguments pass the checks, with a message; let the song be a string that is
    no URL and that no plugin validates; let the interactive search of the
    handler give back nothing.  Then [play] returns normally, and it has neither
    resolved nor played anything. *)
Theorem play_search_called_off (voiceChannel : Value) (song : string)
    (options : OptionsArg) (o : PlayOptions) (st : State') :
  play_accepts voiceChannel options o ->
  truthy (get (opt_message o)) = true ->
  isURL (SString song) = false ->
  (forall plugin, plugin ∈ customPlugins ->
     forall w, fst (plugin_validate plugin song w) = Return false) ->
  (forall w, fst (handler_searchSong (get (opt_message o)) song w) = Return None) ->
  fst (play voiceChannel (SString song) options st) = Return tt /\
  exists events,
    trace (snd (play voiceChannel (SString song) options st)) = trace st ++ events /\
    Forall (calls_none_of handler_calls) events.
Proof.
  intros Hok Hmessage Hurl Hdecline Hnull.
  destruct (play_past_checks voiceChannel (SString song) options o st Hok)
    as (queue & queuing & st_q & Hplay & Hlock).
  assert (forall st0, exists st1,
            play_block voiceChannel o (st0, SString song) = (Return tt, (st1, SString song)) /\
            trace st1 = trace st0 ++ replicate (length customPlugins) (ECall "plugin.validate")
                                  ++ [ECall "handler.searchSong"]) as Hblock.
  { intros st0. unfold play_block, play_try. unfold bind at 1. cbn [get_local snd].
    unfold bind at 1. unfold lift at 1. cbn [fst snd].
    destruct (play_plugins_all_decline customPlugins voiceChannel song (OptionsObject o)
                Hdecline st0) as (st1 & -> & Htrace).
    rewrite Hurl, Hmessage. cbn [negb]. unfold bind at 1. unfold bind at 1.
    unfold lift at 1, call at 1. cbn [fst snd].
    pose proof (Hnull (world st1)) as Hnone.
    destruct (handler_searchSong (get (opt_message o)) song (world st1)) as [r w].
    cbn in Hnone. subst r. eexists. split; [reflexivity|]. cbn. now rewrite Htrace, <- app_assoc. }
  rewrite Hplay. split.
  - rewrite play_guarded_ends. destruct (Hblock st_q) as (st1 & -> & _). reflexivity.
  - assert (exists events,
              trace (snd (with_local (SString song)
                            (play_guarded queue queuing (play_block voiceChannel o)) st_q))
              = trace st_q ++ events /\ Forall (calls_none_of handler_calls) events)
      as (events & Htrace & Hevents).
    { apply play_guarded_shows; [intros; exact I|].
      destruct (Hblock st_q) as (st1 & -> & Htrace). cbn. eexists. split; [exact Htrace|].
      apply Forall_app. split; [apply Forall_replicate|repeat constructor]; other_callee. }
    destruct Hlock as [[_ ->] | (q & _ & _ & ->)]; [now exists events|].
    exists (EQueuing q true :: events). rewrite Htrace, TaskQueue_queuing_trace, <- app_assoc.
    split; [reflexivity|]. now constructor.
Qed.

(** ** [toggleAutoplay] *)

Lemma toggleAutoplay_step (guild : Value) (st : State') (q : QueueRef) (Q : Queue) :
  queues (world st) !! resolveGuildId guild = Some q ->
  heap (world st) !! q = Some Q ->
  toggleAutoplay guild st =
    (Return (negb (q_autoplay Q)),
     set_heap (<[q := with_autoplay (negb (q_autoplay Q)) Q]> (heap (world st))) st).
Proof.
  intros Hq HQ. unfold toggleAutoplay. unfold bind at 1.
  rewrite (getQueue'_registered _ _ _ Hq).
  unfold bind, read_queue, update_queue, set_heap. cbn. rewrite HQ. cbn.
  rewrite lookup_alter_eq, HQ. cbn. do 3 f_equal.
  apply map_eq. intros i. destruct (decide (q = i)) as [<- | Hne].
  - now rewrite lookup_alter_eq, lookup_insert_eq, HQ.
  - now rewrite lookup_alter_ne, lookup_insert_ne.
Qed.

(** X9: with a queue registered for the guild, [toggleAutoplay] returns the
    negation of the queue's autoplay flag and stores it; the other attributes of
    the queue, the other queues, the registry and the trace stay as they are:
    it takes no lock and calls nothing. *)
Theorem toggleAutoplay_flips (guild : Value) (st : State') (q : QueueRef) (Q : Queue) :
  queues (world st) !! resolveGuildId guild = Some q ->
  heap (world st) !! q = Some Q ->
  exists st' Q',
    toggleAutoplay guild st = (Return (negb (q_autoplay Q)), st') /\
    heap (world st') !! q = Some Q' /\
    q_autoplay Q' = negb (q_autoplay Q) /\
    (q_taskQueue Q', q_volume Q', q_stream_volume Q', q_repeatMode Q')
    = (q_taskQueue Q, q_volume Q, q_stream_volume Q, q_repeatMode Q) /\
    (forall q', q' <> q -> heap (world st') !! q' = heap (world st) !! q') /\
    queues (world st') = queues (world st) /\
    env (world st') = env (world st) /\
    trace st' = trace st.
Proof.
  intros Hq HQ. eexists _, (with_autoplay (negb (q_autoplay Q)) Q).
  split; [apply (toggleAutoplay_step _ _ _ _ Hq HQ)|]. cbn.
  split; [apply lookup_insert_eq|]. do 2 (split; [reflexivity|]).
  split; [|now repeat split]. intros q' Hne. now apply lookup_insert_ne.
Qed.

(** X10: toggling twice is doing nothing: the second call returns the flag
    the queue started with, and the state is the one before the first. *)
Theorem toggleAutoplay_twice (guild : Value) (st : State') (q : QueueRef) (Q : Queue) :
  queues (world st) !! resolveGuildId guild = Some q ->
  heap (world st) !! q = Some Q ->
  (toggleAutoplay guild ;; toggleAutoplay guild) st = (Return (q_autoplay Q), st).
Proof.
  intros Hq HQ. unfold bind. rewrite (toggleAutoplay_step _ _ _ _ Hq HQ).
  erewrite toggleAutoplay_step; [|exact Hq|cbn; apply lookup_insert_eq].
  cbn. rewrite negb_involutive, insert_insert_eq. f_equal.
  destruct st as [[qs h e] tr]. cbn in *. unfold set_heap. cbn. do 2 f_equal.
  apply insert_id. rewrite HQ. now destruct Q.
Qed.

(** ** The checks of [search] *)

Lemma search_type_accepted (type : prop) :
  negb (match spread_over (VString (SearchResultType_value VIDEO)) type with
        | VString s => bool_decide (s ∈ ["video"; "playlist"])
        | _ => false
        end) = false <->
  type = None \/ type = Some (VString "video") \/ type = Some (VString "playlist").
Proof.
  rewrite negb_false_iff.
  destruct type as [[| | b | x | s | h]|]; cbn [spread_over default id];
    try (split; [discriminate|intros [H | [H | H]]; discriminate H]).
  - rewrite bool_decide_eq_true, !elem_of_cons, elem_of_nil. split.
    + intros [-> | [-> | []]]; auto.
    + intros [H | [[= ->] | [= ->]]]; [discriminate|auto..].
  - split; [now left|reflexivity].
Qed.

(** X11: [search] accepts its options exactly when [type], if the key is
    there, is the string "video" or "playlist", [limit], if there, is a number
    that is not below 1 ([NaN] passes), and [safeSearch], if there, is a
    boolean.  Otherwise it throws an invalid-argument error without a request
    to the search library, and without a retry. *)
Theorem search_checks_options (query : string) (options : SearchOptions) (st : State') :
  (search_invalid (search_opts options) = None <->
   (s_type options = None \/ s_type options = Some (VString "video")
    \/ s_type options = Some (VString "playlist")) /\
   (s_limit options = None \/
    exists limit, s_limit options = Some (VNumber limit) /\ num_lt limit (num 1) = false) /\
   (s_safeSearch options = None \/ exists b, s_safeSearch options = Some (VBool b))) /\
  (forall e, search_invalid (search_opts options) = Some e ->
     search query options st = (Throw e, st) /\ is_invalid_argument e = true).
Proof.
  split.
  - unfold search_invalid, search_opts. cbn [o_type o_limit o_safeSearch]. split.
    + intros H. destruct (negb _) eqn:Htype in H; [discriminate|].
      apply search_type_accepted in Htype.
      destruct (spread_over (VNumber (num 10)) (s_limit options)) as [| | | limit | |]
        eqn:Hlimit; try discriminate.
      destruct (num_lt limit (num 1)) eqn:Hlt; [discriminate|].
      destruct (spread_over (VBool false) (s_safeSearch options)) as [| | b | | |]
        eqn:Hsafe; try discriminate.
      split; [exact Htype|]. split.
      * destruct (s_limit options) as [v|]; [right|now left]. cbn in Hlimit. subst v. eauto.
      * destruct (s_safeSearch options) as [v|]; [right|now left]. cbn in Hsafe. subst v. eauto.
    + intros (Htype & Hlimit & Hsafe). apply search_type_accepted in Htype. rewrite Htype.
      destruct Hlimit as [-> | (limit & -> & Hlt)], Hsafe as [-> | (b & ->)];
        cbn [spread_over default from_option id]; try rewrite Hlt; reflexivity.
  - intros e He. rewrite search_step, He. split; [reflexivity|].
    revert He. unfold search_invalid.
    repeat (match goal with |- context [match ?x with _ => _ end] => destruct x end;
            try discriminate); now intros [= <-].
Qed.

(** ** [createCustomPlaylist] and songs that do not resolve *)

Lemma catch_undefined_returns (f : World Env -> Outcome Resolved * World Env) (st : State') :
  exists r st', catch_undefined (settles f) st = (Return r, st') /\ trace st' = trace st.
Proof.
  unfold catch_undefined, try_catch, bind, settles, ret.
  destruct (f (world st)) as [[r | e] w]; now eexists _, _.
Qed.

Lemma invoke_each_trace (songs : list PlaylistItem) (st : State') :
  invoke_each songs st
  = (Return tt,
     {| world := world st;
        trace := trace st ++ replicate (length songs) (ECall "handler.resolve") |}).
Proof.
  revert st. induction songs as [|song rest IH]; intros st.
  - cbn. rewrite app_nil_r. now destruct st.
  - cbn [invoke_each]. unfold bind, invoke, emit. rewrite IH. cbn.
    now rewrite <- app_assoc.
Qed.

Lemma resolve_each_returns (o : ResolveOptions) (songs : list PlaylistItem) :
  forall (resolved : list (option Resolved)) (st : State'),
  exists out st',
    resolve_each o songs resolved st = (Return out, st') /\
    length out = (length resolved + length songs)%nat /\
    trace st' = trace st ++ replicate (length songs) (ECall "handler.resolve").
Proof.
  induction songs as [|song rest IH]; intros resolved st; cbn [resolve_each].
  - exists resolved, st. cbn. rewrite app_nil_r. repeat split. lia.
  - unfold bind at 1. unfold invoke, emit. unfold bind at 1.
    destruct (catch_undefined_returns (handler_resolve (item_arg song) o)
                {| world := world st; trace := trace st ++ [ECall "handler.resolve"] |})
      as (r & st1 & -> & Htrace1).
    destruct (IH (resolved ++ [r]) st1) as (out & st' & -> & Hlen & Htrace).
    exists out, st'. split; [reflexivity|]. split.
    + rewrite Hlen, length_app. cbn. lia.
    + rewrite Htrace, Htrace1. cbn. now rewrite <- app_assoc.
Qed.

Lemma Promise_all_returns (o : ResolveOptions) (n : nat) :
  forall (picks : list nat) (pending : list (nat * PlaylistItem))
         (results : list (option Resolved)) (st : State'),
    length pending = n ->
    exists out st',
      Promise_all o picks pending results st = (Return out, st') /\
      length out = length results /\ trace st' = trace st.
Proof.
  induction n as [|n IH]; intros picks pending results st Hlen.
  - destruct pending; [|discriminate]. rewrite Promise_all_equation_1. now exists results, st.
  - destruct pending as [|p rest]; [discriminate|]. rewrite Promise_all_equation_2. cbv zeta.
    set (k := (hd 0 picks `mod` length (p :: rest))%nat).
    assert (k < length (p :: rest))%nat as Hk by (apply Nat.mod_upper_bound; discriminate).
    unfold bind.
    destruct (catch_undefined_returns
                (handler_resolve (item_arg (snd (nth k (p :: rest) p))) o) st)
      as (r & st1 & -> & Htrace1).
    destruct (IH (tail picks) (delete k (p :: rest))
                (<[fst (nth k (p :: rest) p) := r]> results) st1)
      as (out & st' & -> & Hout & Htrace).
    { rewrite length_delete by now apply lookup_lt_is_Some_2. cbn [length] in *. lia. }
    exists out, st'. split; [reflexivity|]. rewrite Hout, length_insert, Htrace. now split.
Qed.

Lemma filter_Boolean_length (resolved : list (option Resolved)) :
  (length (filter_Boolean resolved) <= length resolved)%nat.
Proof.
  unfold filter_Boolean. induction resolved as [|[r|] rest IH]; cbn in *; lia.
Qed.

(** Past the checks, either branch calls the resolver once for each valid
    song and hands the constructor what resolved. *)
Lemma createCustomPlaylist_past_checks (songs : list PlaylistItem)
    (options : CustomPlaylistOptions) (st : State') :
  List.filter valid_song songs <> [] ->
  truthy (get (c_member options)) && negb (isMemberInstance (get (c_member options))) = false ->
  exists resolved st',
    createCustomPlaylist (SongsArray songs) options st
    = (Playlist_new resolved (get (c_member options)) (get (c_properties options))
         (get (c_metadata options)), st') /\
    (length resolved <= length (List.filter valid_song songs))%nat /\
    trace st' = trace st ++ replicate (length (List.filter valid_song songs))
                              (ECall "handler.resolve").
Proof.
  intros Hvalid Hmember. unfold createCustomPlaylist.
  destruct songs as [|song songs]; [now destruct Hvalid|]. cbn [length Nat.eqb].
  destruct (List.filter valid_song (song :: songs)) as [|x filtered] eqn:Hfiltered;
    [now destruct Hvalid|].
  cbn [length Nat.eqb]. rewrite Hmember.
  set (o := {| r_member := _; r_metadata := _ |}).
  set (l := x :: filtered) in *. change (S (length filtered)) with (length l).
  destruct (truthy (spread_over (VBool true) (c_parallel options))).
  - unfold bind at 1. unfold bind at 1. rewrite invoke_each_trace. unfold bind at 1.
    destruct (Promise_all_returns o (length l) scheduler (imap pair l)
                (replicate (length l) None)
                {| world := world st;
                   trace := trace st ++ replicate (length l) (ECall "handler.resolve") |})
      as (out & st' & -> & Hout & Htrace); [apply length_imap|].
    exists (filter_Boolean out), st'. cbn. split; [reflexivity|]. split; [|exact Htrace].
    etransitivity; [apply filter_Boolean_length|]. now rewrite Hout, length_replicate.
  - unfold bind at 1. unfold bind at 1.
    destruct (resolve_each_returns o l [] st) as (out & st' & -> & Hout & Htrace).
    exists (filter_Boolean out), st'. cbn. split; [reflexivity|]. split; [|exact Htrace].
    etransitivity; [apply filter_Boolean_length|]. now rewrite Hout.
Qed.

(** *** Which songs are resolved *)

Lemma resolve_in_turn_length (o : ResolveOptions) (songs : list PlaylistItem) :
  forall w : World Env, length (fst (resolve_in_turn o songs w)) = length songs.
Proof.
  induction songs as [|song rest IH]; intros w; [reflexivity|].
  cbn [resolve_in_turn]. destruct (handler_resolve _ o w) as [r w1].
  specialize (IH w1). destruct (resolve_in_turn o rest w1) as [results w2].
  cbn in *. now rewrite IH.
Qed.

(** The sequential branch is the resolver called for the songs in turn. *)
Lemma resolve_each_in_turn (o : ResolveOptions) (songs : list PlaylistItem) :
  forall (resolved : list (option Resolved)) (st : State'),
    resolve_each o songs resolved st
    = (Return (resolved ++ fst (resolve_in_turn o songs (world st))),
       {| world := snd (resolve_in_turn o songs (world st));
          trace := trace st ++ replicate (length songs) (ECall "handler.resolve") |}).
Proof.
  induction songs as [|song rest IH]; intros resolved st; cbn [resolve_each resolve_in_turn].
  - cbn. rewrite !app_nil_r. now destruct st.
  - unfold bind at 1. unfold invoke, emit. unfold bind at 1.
    unfold catch_undefined, try_catch, bind, settles, ret. cbn [world trace].
    destruct (handler_resolve (item_arg song) o (world st)) as [[r | e] w1];
      rewrite IH; cbn [world trace]; destruct (resolve_in_turn o rest w1) as [results w2];
      cbn; now rewrite <- !app_assoc.
Qed.

(** The parallel branch is the resolver called for the pending songs in turn,
    in some order; what each call settles to is put at the place of its
    song. *)
Lemma Promise_all_in_turn (o : ResolveOptions) (n : nat) :
  forall (picks : list nat) (pending : list (nat * PlaylistItem))
         (results : list (option Resolved)) (st : State'),
    length pending = n ->
    NoDup pending.*1 ->
    (forall p, p ∈ pending -> (p.1 < length results)%nat) ->
    exists (order : list (nat * PlaylistItem)) (out : list (option Resolved)),
      order ≡ₚ pending /\
      Promise_all o picks pending results st
      = (Return out,
         {| world := snd (resolve_in_turn o order.*2 (world st)); trace := trace st |}) /\
      length out = length results /\
      Forall2 (fun p r => out !! p.1 = Some r) order
        (fst (resolve_in_turn o order.*2 (world st))) /\
      (forall i, i ∉ pending.*1 -> out !! i = results !! i).
Proof.
  induction n as [|n IH]; intros picks pending results st Hlen Hdup Hlt.
  - destruct pending; [|discriminate]. rewrite Promise_all_equation_1.
    exists [], results. cbn. split; [reflexivity|]. split; [now destruct st|].
    split; [reflexivity|]. split; [constructor|reflexivity].
  - destruct pending as [|p rest]; [discriminate|]. rewrite Promise_all_equation_2. cbv zeta.
    set (k := (hd 0 picks `mod` length (p :: rest))%nat).
    assert (k < length (p :: rest))%nat as Hk by (apply Nat.mod_upper_bound; discriminate).
    destruct (lookup_lt_is_Some_2 _ _ Hk) as [[i song] Hnext].
    rewrite (nth_lookup_Some _ _ p _ Hnext). cbn [fst snd].
    pose proof (delete_Permutation _ _ _ Hnext) as Hperm.
    assert ((i ∉ (delete k (p :: rest)).*1) /\ NoDup (delete k (p :: rest)).*1)
      as [Hfresh Hdup'].
    { rewrite Hperm in Hdup. cbn in Hdup. now apply NoDup_cons in Hdup. }
    assert (i < length results)%nat as Hi.
    { apply (Hlt (i, song)). eapply list_elem_of_lookup_2, Hnext. }
    unfold bind at 1. unfold catch_undefined, try_catch, bind, settles, ret.
    destruct (handler_resolve (item_arg song) o (world st)) as [r w1] eqn:Hr.
    destruct (IH (tail picks) (delete k (p :: rest)) (<[i := settled r]> results)
                {| world := w1; trace := trace st |})
      as (order & out & Horder & Hrun & Hout & Hplaces & Hother).
    { rewrite length_delete by eauto. cbn [length] in *. lia. }
    { exact Hdup'. }
    { intros x Hx. rewrite length_insert. apply Hlt. rewrite Hperm.
      now apply list_elem_of_further. }
    exists ((i, song) :: order), out. cbn [fmap list_fmap snd resolve_in_turn].
    change (list_fmap _ _ snd order) with (order.*2). rewrite Hr.
    cbn [world trace] in Hrun, Hplaces.
    destruct (resolve_in_turn o order.*2 w1) as [settled_rest w2]. cbn [fst snd] in *.
    split; [now rewrite Hperm, Horder|].
    split; [destruct r; exact Hrun|].
    split; [now rewrite Hout, length_insert|]. split.
    + constructor; [|exact Hplaces]. cbn [fst].
      rewrite (Hother i Hfresh). now apply list_lookup_insert_eq.
    + intros j Hj. rewrite Hother.
      * apply list_lookup_insert_ne. intros Heq. subst j. apply Hj.
        change (i ∈ (p :: rest).*1).
        apply (list_elem_of_fmap_2 fst _ (i, song)). eapply list_elem_of_lookup_2, Hnext.
      * intros Hin. apply Hj. change (j ∈ (p :: rest).*1).
        rewrite Hperm. cbn. now apply list_elem_of_further.
Qed.

Lemma imap_pair_songs {A} (l : list A) : (imap pair l).*2 = l.
Proof.
  change (imap pair l) with (imap (fun j x => (id j, x)) l). generalize (@id nat).
  induction l as [|x l IH]; intros f; [reflexivity|].
  cbn. f_equal. apply (IH (f ∘ S)).
Qed.

(** X12: past its checks, [createCustomPlaylist] calls the resolver once for
    each song that passes the filter, and for nothing else, in either branch
    and whatever the resolver does.  The songs that pass the filter are listed
    with their places ([imap pair]); [order] is this list in the order in which
    their resolutions take effect: the order of the array in the sequential
    branch, some rearrangement of it in the parallel one.  The world after
    [createCustomPlaylist] is the world after the resolver has been called for
    the songs of [order], in turn, with the member and the metadata of the
    options; what the call for a song settles to, the result or nothing, is put
    at the place of that song ([results]), and the playlist is built from
    what there is at these places, in the order of the array. *)
Theorem createCustomPlaylist_resolves_each_valid_song (songs : list PlaylistItem)
    (options : CustomPlaylistOptions) (st : State') :
  List.filter valid_song songs <> [] ->
  truthy (get (c_member options)) && negb (isMemberInstance (get (c_member options))) = false ->
  let filteredSongs := List.filter valid_song songs in
  let o := {| r_member := get (c_member options); r_metadata := get (c_metadata options) |} in
  exists (order : list (nat * PlaylistItem)) (results : list (option Resolved)),
    order ≡ₚ imap pair filteredSongs /\
    (truthy (spread_over (VBool true) (c_parallel options)) = false ->
     order = imap pair filteredSongs) /\
    length results = length filteredSongs /\
    Forall2 (fun p r => results !! p.1 = Some r) order
      (fst (resolve_in_turn o order.*2 (world st))) /\
    createCustomPlaylist (SongsArray songs) options st
    = (Playlist_new (filter_Boolean results) (get (c_member options))
         (get (c_properties options)) (get (c_metadata options)),
       {| world := snd (resolve_in_turn o order.*2 (world st));
          trace := trace st ++ replicate (length filteredSongs) (ECall "handler.resolve") |}).
Proof.
  intros Hvalid Hmember. cbv zeta.
  set (o := {| r_member := _; r_metadata := _ |}). unfold createCustomPlaylist. fold o.
  destruct songs as [|song songs]; [now destruct Hvalid|]. cbn [length Nat.eqb].
  destruct (List.filter valid_song (song :: songs)) as [|x filtered] eqn:Hfiltered;
    [now destruct Hvalid|].
  cbn [length Nat.eqb]. rewrite Hmember.
  set (l := x :: filtered) in *. change (S (length filtered)) with (length l).
  destruct (truthy (spread_over (VBool true) (c_parallel options))).
  - unfold bind at 1. unfold bind at 1. rewrite invoke_each_trace. unfold bind at 1.
    destruct (Promise_all_in_turn o (length l) scheduler (imap pair l)
                (replicate (length l) None)
                {| world := world st;
                   trace := trace st ++ replicate (length l) (ECall "handler.resolve") |})
      as (order & out & Horder & Hrun & Hout & Hplaces & _).
    { apply length_imap. }
    { apply NoDup_indices. }
    { intros p Hp. apply elem_of_lookup_imap_1 in Hp as (i & y & -> & Hi).
      rewrite length_replicate. cbn [fst]. eapply lookup_lt_Some, Hi. }
    exists order, out. rewrite Hrun. cbn [world trace] in *.
    split; [exact Horder|]. split; [discriminate|].
    split; [now rewrite Hout, length_replicate|]. split; [exact Hplaces|reflexivity].
  - unfold bind at 1. unfold bind at 1. rewrite resolve_each_in_turn. cbn [app].
    exists (imap pair l), (fst (resolve_in_turn o l (world st))).
    rewrite imap_pair_songs.
    split; [reflexivity|]. split; [reflexivity|].
    split; [apply resolve_in_turn_length|]. split; [|reflexivity].
    apply Forall2_same_length_lookup_2.
    + now rewrite length_imap, resolve_in_turn_length.
    + intros i p r Hp Hr. rewrite list_lookup_imap in Hp.
      destruct (l !! i); [|discriminate]. injection Hp as <-. exact Hr.
Qed.

(** X13: [createCustomPlaylist] never fails because a song does not resolve.
    An error it ends with is one of its own four checks, thrown with nothing
    done, or it is the error of the [Playlist] constructor. *)
Theorem createCustomPlaylist_fails_on_checks_only (songs : SongsArg)
    (options : CustomPlaylistOptions) (st : State') (e : Thrown) :
  fst (createCustomPlaylist songs options st) = Throw e ->
  (e ∈ [DisTubeError INVALID_TYPE "songs"; DisTubeError EMPTY_ARRAY "songs";
        DisTubeError NO_VALID_SONG ""; DisTubeError INVALID_TYPE "options.member"] /\
   snd (createCustomPlaylist songs options st) = st) \/
  (exists resolved,
     Playlist_new resolved (get (c_member options)) (get (c_properties options))
       (get (c_metadata options)) = Throw e).
Proof.
  destruct songs as [array | v].
  - destruct (List.filter valid_song array) as [|x filtered] eqn:Hfiltered.
    { unfold createCustomPlaylist. rewrite Hfiltered.
      destruct (length array =? 0)%nat; cbn; intros [= <-]; left;
        (split; [|reflexivity]); set_solver. }
    destruct (truthy (get (c_member options))
              && negb (isMemberInstance (get (c_member options)))) eqn:Hmember.
    { unfold createCustomPlaylist. rewrite Hfiltered, Hmember.
      destruct (length array =? 0)%nat; cbn; intros [= <-]; left;
        (split; [|reflexivity]); set_solver. }
    destruct (createCustomPlaylist_past_checks array options st) as (resolved & st' & -> & _);
      [now rewrite Hfiltered|exact Hmember|].
    cbn. intros H. right. now exists resolved.
  - cbn. intros [= <-]. left. split; [set_solver|reflexivity].
Qed.

End MoreProperties.

(** * Properties of the constructor *)

Section ConstructorProperties.

Context {Env : Type} {construction : Construction Env}.

Lemma init_each_returns (plugins : list (Plugin Env)) :
  forall (st st' : St Env),
    init_each plugins st = (Return tt, st') ->
    trace st' = trace st ++ replicate (length plugins) (ECall "plugin.init").
Proof.
  induction plugins as [|p rest IH]; intros st st'; cbn [init_each].
  - intros [= <-]. now rewrite app_nil_r.
  - unfold bind, call. destruct (plugin_init p (world st)) as [[[] | e] w]; [|discriminate].
    intros H. apply IH in H. rewrite H. cbn. now rewrite <- app_assoc.
Qed.

(** A construction that succeeds: what the instance holds, and what was done
    on the way. *)
Lemma constructor_returns (client otp : Value) (st st' : St Env) (this : DisTube Env) :
  constructor client otp st = (Return this, st') ->
  exists options,
    d_options this = push_directLink options /\
    d_client this = client /\
    d_filters this = merge_filters (options_customFilters options) /\
    d_extractorPlugins this
    = List.filter (has_type EXTRACTOR) (options_plugins (d_options this)) /\
    d_customPlugins this
    = List.filter (has_type CUSTOM) (options_plugins (d_options this)) /\
    trace st' = trace st ++ [ECall "checkIntents"; ECall "new Options";
                             ECall "new DisTubeVoiceManager"; ECall "new DisTubeHandler";
                             ECall "new QueueManager"]
                         ++ replicate (length (options_plugins (d_options this)))
                              (ECall "plugin.init").
Proof.
  unfold constructor. destruct (isClientInstance client); cbn [negb]; [|discriminate].
  unfold bind at 1. unfold call at 1.
  destruct (checkIntents _ (world st)) as [[[] | e] w1]; [|discriminate].
  unfold bind at 1. unfold call at 1. cbn [world trace].
  destruct (Options_new _ w1) as [[options | e] w2]; [|discriminate].
  unfold bind at 1. unfold call at 1. cbn [world trace].
  destruct (DisTubeVoiceManager_new w2) as [[[] | e] w3]; [|discriminate].
  unfold bind at 1. unfold call at 1. cbn [world trace].
  destruct (DisTubeHandler_new w3) as [[[] | e] w4]; [|discriminate].
  unfold bind at 1. unfold call at 1. cbn [world trace].
  destruct (QueueManager_new w4) as [[[] | e] w5]; [|discriminate].
  cbv zeta. unfold bind at 1.
  destruct (init_each _ _) as [[[] | e] st1] eqn:Hinit; [|discriminate].
  unfold ret. intros [= <- <-]. exists options. cbn.
  repeat (split; [reflexivity|]).
  apply init_each_returns in Hinit. rewrite Hinit. cbn. now rewrite <- !app_assoc.
Qed.

(** A run of [forEach] that returns has initialised the plugins in turn. *)
Lemma init_each_in_turn (plugins : list (Plugin Env)) :
  forall (st st' : St Env),
    init_each plugins st = (Return tt, st') ->
    init_in_turn plugins (world st) = (Return tt, world st').
Proof.
  induction plugins as [|p rest IH]; intros st st'; cbn [init_each init_in_turn].
  - now intros [= <-].
  - unfold bind, call. destruct (plugin_init p (world st)) as [[[] | e] w]; [|discriminate].
    intros H. now apply IH in H.
Qed.

(** X14: when the construction succeeds, its five steps have succeeded one
    after the other, each in the world the one before it has left: the check
    of the intents, the options ([given] is what [new Options] returns), the
    voice manager, the handler and the queue manager.  The plugins of the
    instance are the plugins of [given], in their order, with the direct-link
    plugin put behind them when [directLink] is set.  After the five steps
    these plugins have been initialised one after the other, in this order and
    each once, the direct-link plugin last: the world the constructor ends in is
    the world the last of them has left. *)
Theorem constructor_initialises_plugins (client otp : Value) (st st' : St Env)
    (this : DisTube Env) :
  constructor client otp st = (Return this, st') ->
  exists (w1 w2 w3 w4 w5 : World Env) (given : Options Env),
    checkIntents (client_options client) (world st) = (Return tt, w1) /\
    Options_new (match otp with VUndefined => None | _ => Some otp end) w1
    = (Return given, w2) /\
    DisTubeVoiceManager_new w2 = (Return tt, w3) /\
    DisTubeHandler_new w3 = (Return tt, w4) /\
    QueueManager_new w4 = (Return tt, w5) /\
    let plugins :=
      options_plugins given
      ++ (if truthy (options_directLink given) then [DirectLinkPlugin_new] else []) in
    options_plugins (d_options this) = plugins /\
    init_in_turn plugins w5 = (Return tt, world st') /\
    trace st' = trace st ++ [ECall "checkIntents"; ECall "new Options";
                             ECall "new DisTubeVoiceManager"; ECall "new DisTubeHandler";
                             ECall "new QueueManager"]
                         ++ replicate (length plugins) (ECall "plugin.init").
Proof.
  intros H. unfold constructor in H.
  destruct (isClientInstance client); cbn [negb] in H; [|discriminate].
  unfold bind at 1 in H. unfold call at 1 in H.
  destruct (checkIntents _ (world st)) as [[[] | e] w1] eqn:H1; [|discriminate].
  unfold bind at 1 in H. unfold call at 1 in H. cbn [world trace] in H.
  destruct (Options_new _ w1) as [[given | e] w2] eqn:H2; [|discriminate].
  unfold bind at 1 in H. unfold call at 1 in H. cbn [world trace] in H.
  destruct (DisTubeVoiceManager_new w2) as [[[] | e] w3] eqn:H3; [|discriminate].
  unfold bind at 1 in H. unfold call at 1 in H. cbn [world trace] in H.
  destruct (DisTubeHandler_new w3) as [[[] | e] w4] eqn:H4; [|discriminate].
  unfold bind at 1 in H. unfold call at 1 in H. cbn [world trace] in H.
  destruct (QueueManager_new w4) as [[[] | e] w5] eqn:H5; [|discriminate].
  cbv zeta in H. unfold bind at 1 in H.
  destruct (init_each _ _) as [[[] | e] st1] eqn:Hinit; [|discriminate].
  unfold ret in H. injection H as <- <-. exists w1, w2, w3, w4, w5, given.
  do 5 (split; [first [assumption | reflexivity]|]). cbv zeta.
  assert (options_plugins (push_directLink given)
          = options_plugins given
            ++ (if truthy (options_directLink given) then [DirectLinkPlugin_new] else []))
    as Hplugins.
  { unfold push_directLink. cbn. destruct (truthy _); [reflexivity|now rewrite app_nil_r]. }
  cbn [d_options]. rewrite <- Hplugins. split; [reflexivity|]. split.
  - apply init_each_in_turn in Hinit. exact Hinit.
  - apply init_each_returns in Hinit. rewrite Hinit. cbn. now rewrite <- !app_assoc.
Qed.

(** X15: the constructor sorts the plugins by their type, keeping their
    order: [customPlugins] holds exactly the plugins of type "custom" and
    [extractorPlugins] exactly those of type "extractor"; no plugin is in both,
    and a plugin of any other type is in neither, though it was initialised. *)
Theorem constructor_sorts_plugins (client otp : Value) (st st' : St Env)
    (this : DisTube Env) :
  constructor client otp st = (Return this, st') ->
  (forall p, p ∈ d_customPlugins this <->
             p ∈ options_plugins (d_options this) /\ plugin_type p = "custom") /\
  (forall p, p ∈ d_extractorPlugins this <->
             p ∈ options_plugins (d_options this) /\ plugin_type p = "extractor") /\
  d_customPlugins this `sublist_of` options_plugins (d_options this) /\
  d_extractorPlugins this `sublist_of` options_plugins (d_options this) /\
  (forall p, p ∈ d_customPlugins this -> p ∉ d_extractorPlugins this).
Proof.
  intros H. destruct (constructor_returns _ _ _ _ _ H) as (options & _ & _ & _ & He & Hc & _).
  rewrite He, Hc.
  assert (forall t (p : Plugin Env) l, p ∈ List.filter (has_type t) l <->
                        p ∈ l /\ plugin_type p = PluginType_value t) as Hfilter.
  { intros t p l. rewrite !list_elem_of_In, filter_In. unfold has_type.
    now rewrite String.eqb_eq. }
  assert (forall t (l : list (Plugin Env)), List.filter (has_type t) l `sublist_of` l)
    as Hsub.
  { intros t l. induction l as [|x l IH]; cbn; [constructor|].
    destruct (has_type t x); now constructor. }
  split; [intros p; apply (Hfilter CUSTOM)|].
  split; [intros p; apply (Hfilter EXTRACTOR)|].
  split; [apply Hsub|]. split; [apply Hsub|].
  intros p Hin Hin'. apply (Hfilter CUSTOM) in Hin as [_ Hcustom].
  apply (Hfilter EXTRACTOR) in Hin' as [_ Hextractor]. cbn in *. congruence.
Qed.

(** X16: the filters of the instance are the default filters overridden by
    the custom ones: a name that the custom filters define has their value,
    any other name has its default value, if any. *)
Theorem constructor_merges_filters (client otp : Value) (st st' : St Env)
    (this : DisTube Env) (name : string) :
  constructor client otp st = (Return this, st') ->
  d_filters this !! name
  = match default ∅ (options_customFilters (d_options this)) !! name with
    | Some value => Some value
    | None => defaultFilters !! name
    end.
Proof.
  intros H. destruct (constructor_returns _ _ _ _ _ H) as (options & Ho & _ & Hf & _).
  rewrite Hf, Ho. unfold merge_filters. cbn. rewrite lookup_union.
  destruct (default ∅ (options_customFilters options) !! name) as [value|];
    [|now destruct (defaultFilters !! name)].
  now destruct (defaultFilters !! name).
Qed.

End ConstructorProperties.

(** * The further properties at work on the small installation *)

(** Of three plugins the second takes the string: the first and the second
    are asked, the second plays and leaves its mark, and the third, which would
    take any string, is not asked. *)
Example play_plugins_second_takes_it :
  play_plugins Sample.three_plugins Sample.voiceChannel "file:tune" (OptionsOther VUndefined)
    (Sample.unregistered 0)
  = (Return true,
     {| world := {| queues := ∅; heap := ∅; env := 2%nat |};
        trace := [ECall "plugin.validate"; ECall "plugin.validate"; ECall "plugin.play"] |}).
Proof. vm_compute. reflexivity. Qed.

(** [play] accepts the sample voice channel with [{ skip: true, position: 0 }]. *)
Lemma sample_skip_accepted :
  play_accepts (collaborators := Sample.noting) Sample.voiceChannel
    (OptionsObject Sample.skip_at_0) Sample.skip_at_0.
Proof. repeat split; try reflexivity; intros H; discriminate H. Defined.

(** The example of C9 at work: with [{ skip: true, position: 0 }], and with
    [{ skip: true, position: "first" }], the handler is handed the position 1,
    and it notes [1]; with [{ position: 0 }] it is handed 0. *)
Example play_skip_at_position_0 :
  let noted o :=
    env (world (snd (play (collaborators := Sample.noting) Sample.voiceChannel Sample.a_song
                       (OptionsObject o) (Sample.unregistered 7)))) in
  noted Sample.skip_at_0 = 1%nat /\
  noted {| opt_member := None; opt_textChannel := None; opt_skip := Some (VBool true);
           opt_position := Some (VString "first"); opt_message := None;
           opt_metadata := None |} = 1%nat /\
  noted {| opt_member := None; opt_textChannel := None; opt_skip := None;
           opt_position := Some (VNumber (num 0)); opt_message := None;
           opt_metadata := None |} = 0%nat.
Proof. repeat split; vm_compute; reflexivity. Qed.

Lemma play_position_default_witness :
  let o := Sample.skip_at_0 in
  let st := Sample.unregistered 7 in
  let n := Number (collaborators := Sample.noting) (get (opt_position o)) in
  let position :=
    match n with
    | S754_zero _ | S754_nan => if truthy (get (opt_skip o)) then num 1 else num 0
    | _ => n
    end in
  let handed :=
    {| h_textChannel := play_textChannel (collaborators := Sample.noting) o;
       h_skip := match opt_skip o with Some skip => skip | None => VBool false end;
       h_position := position |} in
  (forall sign, get (opt_position o) = VNumber (S754_zero sign) ->
                get (opt_skip o) = VBool true -> position = num 1) /\
  (n = NaN -> get (opt_skip o) = VBool true -> position = num 1) /\
  exists queue queuing st_q,
    play (collaborators := Sample.noting) Sample.voiceChannel Sample.a_song
      (OptionsObject o) st
    = with_local Sample.a_song
        (play_guarded queue queuing
           (play_block (collaborators := Sample.noting) Sample.voiceChannel o)) st_q /\
    ((queuing = false /\ st_q = st) \/
     (exists q, queue = Some q /\ queuing = true /\
                st_q = snd (TaskQueue_queuing (collaborators := Sample.noting)
                              (Some q) true st))) /\
    ends_playing (collaborators := Sample.noting) Sample.voiceChannel
      (play_member (collaborators := Sample.noting) Sample.voiceChannel o)
      (get (opt_metadata o)) handed (st_q, Sample.a_song)
      (play_block (collaborators := Sample.noting) Sample.voiceChannel o
         (st_q, Sample.a_song)).
Proof.
  apply (play_position_default (collaborators := Sample.noting) Sample.voiceChannel
           Sample.a_song (OptionsObject Sample.skip_at_0) Sample.skip_at_0
           (Sample.unregistered 7) sample_skip_accepted).
Defined.

Lemma play_of_an_object_asks_nobody_witness :
  exists events,
    trace (snd (play (collaborators := Sample.collaborators) Sample.voiceChannel Sample.a_song
                  (OptionsOther VUndefined) (Sample.registered [] 0)))
    = [] ++ events /\
    Forall (calls_none_of ["plugin.validate"; "plugin.play"; "ytsr"; "handler.searchSong"])
      events.
Proof.
  apply (play_of_an_object_asks_nobody (collaborators := Sample.collaborators)
           Sample.voiceChannel Sample.a_song (OptionsOther VUndefined)
           (Sample.registered [] 0)).
  intros s. discriminate.
Defined.

Lemma play_of_a_url_never_searches_witness :
  exists events,
    trace (snd (play (collaborators := Sample.collaborators) Sample.voiceChannel
                  (SString "https://a/1") (OptionsOther VUndefined) (Sample.registered [] 3)))
    = [] ++ events /\
    Forall (calls_none_of ["ytsr"; "handler.searchSong"]) events.
Proof.
  apply (play_of_a_url_never_searches (collaborators := Sample.collaborators)
           Sample.voiceChannel "https://a/1" (OptionsOther VUndefined)
           (Sample.registered [] 3)).
  reflexivity.
Defined.

Lemma play_throws_PlayError_witness :
  fst (play (collaborators := Sample.collaborators) Sample.voiceChannel (SString "hello")
         (OptionsOther VUndefined) (Sample.unregistered 2))
  = Throw (JSError "PlayError" ("hello" +:+ newline +:+ "offline")) /\
  "PlayError" = "PlayError".
Proof.
  split; [reflexivity|].
  apply (play_throws_PlayError (collaborators := Sample.collaborators) Sample.voiceChannel
           (SString "hello") (OptionsOther VUndefined) (Sample.unregistered 2)
           "PlayError" ("hello" +:+ newline +:+ "offline")).
  reflexivity.
Defined.

Lemma play_unregistered_takes_no_lock_witness :
  exists calls,
    trace (snd (play (collaborators := Sample.collaborators) Sample.voiceChannel Sample.a_song
                  (OptionsOther VUndefined) (Sample.unregistered 0)))
    = [] ++ calls /\
    Forall (fun e => is_call e = true) calls.
Proof.
  apply (play_unregistered_takes_no_lock (collaborators := Sample.collaborators)
           Sample.voiceChannel Sample.a_song (OptionsOther VUndefined)
           (Sample.unregistered 0)).
  reflexivity.
Defined.

(** [play] accepts the sample voice channel with a message. *)
Lemma sample_with_message_accepted :
  play_accepts (collaborators := Sample.collaborators) Sample.voiceChannel
    (OptionsObject Sample.with_message) Sample.with_message.
Proof. repeat split; reflexivity. Defined.

Lemma play_search_called_off_witness :
  fst (play (collaborators := Sample.collaborators) Sample.voiceChannel (SString "hello")
         (OptionsObject Sample.with_message) (Sample.registered [] 0))
  = Return tt /\
  exists events,
    trace (snd (play (collaborators := Sample.collaborators) Sample.voiceChannel
                  (SString "hello") (OptionsObject Sample.with_message)
                  (Sample.registered [] 0)))
    = [] ++ events /\
    Forall (calls_none_of handler_calls) events.
Proof.
  apply (play_search_called_off (collaborators := Sample.collaborators) Sample.voiceChannel
           "hello" (OptionsObject Sample.with_message) Sample.with_message
           (Sample.registered [] 0) sample_with_message_accepted).
  - reflexivity.
  - reflexivity.
  - intros plugin Hin. now apply elem_of_nil in Hin.
  - reflexivity.
Defined.

Lemma toggleAutoplay_flips_witness :
  exists st' Q',
    toggleAutoplay (collaborators := Sample.collaborators) Sample.voiceChannel
      (Sample.registered [false] 0)
    = (Return true, st') /\
    heap (world st') !! Sample.queue = Some Q' /\
    q_autoplay Q' = true /\
    (q_taskQueue Q', q_volume Q', q_stream_volume Q', q_repeatMode Q')
    = ([false], num 100, num 100, DISABLED) /\
    (forall q', q' <> Sample.queue ->
                heap (world st') !! q' = heap (world (Sample.registered [false] 0)) !! q') /\
    queues (world st') = queues (world (Sample.registered [false] 0)) /\
    env (world st') = 0%nat /\
    trace st' = [].
Proof.
  apply (toggleAutoplay_flips (collaborators := Sample.collaborators) Sample.voiceChannel
           (Sample.registered [false] 0) Sample.queue (Sample.a_queue [false]));
    reflexivity.
Defined.

Lemma toggleAutoplay_twice_witness :
  (toggleAutoplay (collaborators := Sample.collaborators) Sample.voiceChannel ;;
   toggleAutoplay (collaborators := Sample.collaborators) Sample.voiceChannel)
    (Sample.registered [] 0)
  = (Return false, Sample.registered [] 0).
Proof.
  apply (toggleAutoplay_twice (collaborators := Sample.collaborators) Sample.voiceChannel
           (Sample.registered [] 0) Sample.queue (Sample.a_queue []));
    reflexivity.
Defined.

Lemma createCustomPlaylist_resolves_each_valid_song_witness :
  let songs := [IString "https://a/1"; IString "a tune"; IString "https://a/3"] in
  let st := Sample.unregistered 1 in
  let filteredSongs := List.filter (valid_song (collaborators := Sample.rationed)) songs in
  let o := {| r_member := VUndefined; r_metadata := VUndefined |} in
  exists (order : list (nat * PlaylistItem)) (results : list (option Resolved)),
    order ≡ₚ imap pair filteredSongs /\
    (truthy (spread_over (VBool true) (c_parallel Sample.no_options)) = false ->
     order = imap pair filteredSongs) /\
    length results = length filteredSongs /\
    Forall2 (fun p r => results !! p.1 = Some r) order
      (fst (resolve_in_turn (collaborators := Sample.rationed) o order.*2 (world st))) /\
    createCustomPlaylist (collaborators := Sample.rationed) (SongsArray songs)
      Sample.no_options st
    = (Playlist_new (Collaborators := Sample.rationed) (filter_Boolean results)
         VUndefined VUndefined VUndefined,
       {| world := snd (resolve_in_turn (collaborators := Sample.rationed) o order.*2
                          (world st));
          trace := trace st ++ replicate (length filteredSongs) (ECall "handler.resolve") |}).
Proof.
  apply (createCustomPlaylist_resolves_each_valid_song (collaborators := Sample.rationed)
           [IString "https://a/1"; IString "a tune"; IString "https://a/3"]
           Sample.no_options (Sample.unregistered 1)).
  - discriminate.
  - reflexivity.
Defined.

Lemma createCustomPlaylist_fails_on_checks_only_witness :
  (DisTubeError NO_VALID_SONG ""
   ∈ [DisTubeError INVALID_TYPE "songs"; DisTubeError EMPTY_ARRAY "songs";
      DisTubeError NO_VALID_SONG ""; DisTubeError INVALID_TYPE "options.member"] /\
   snd (createCustomPlaylist (collaborators := Sample.collaborators)
          (SongsArray [IString "a tune"]) Sample.no_options (Sample.unregistered 0))
   = Sample.unregistered 0) \/
  (exists resolved,
     Playlist_new (Collaborators := Sample.collaborators) resolved VUndefined VUndefined
       VUndefined
     = Throw (DisTubeError NO_VALID_SONG "")).
Proof.
  apply (createCustomPlaylist_fails_on_checks_only (collaborators := Sample.collaborators)
           (SongsArray [IString "a tune"]) Sample.no_options (Sample.unregistered 0)).
  reflexivity.
Defined.

(** The sample construction succeeds. *)
Lemma sample_constructed :
  constructor (construction := SampleSetup.construction) SampleSetup.client VUndefined
    (Sample.unregistered 0)
  = (Return SampleSetup.built,
     snd (constructor (construction := SampleSetup.construction) SampleSetup.client VUndefined
            (Sample.unregistered 0))).
Proof. vm_compute. reflexivity. Defined.

Lemma constructor_initialises_plugins_witness :
  exists (w1 w2 w3 w4 w5 : World nat) (given : Options nat),
    checkIntents (Construction := SampleSetup.construction)
      (client_options (Construction := SampleSetup.construction) SampleSetup.client)
      (world (Sample.unregistered 0)) = (Return tt, w1) /\
    Options_new (Construction := SampleSetup.construction) None w1 = (Return given, w2) /\
    DisTubeVoiceManager_new (Construction := SampleSetup.construction) w2 = (Return tt, w3) /\
    DisTubeHandler_new (Construction := SampleSetup.construction) w3 = (Return tt, w4) /\
    QueueManager_new (Construction := SampleSetup.construction) w4 = (Return tt, w5) /\
    let plugins :=
      options_plugins given
      ++ (if truthy (options_directLink given)
          then [DirectLinkPlugin_new (Construction := SampleSetup.construction)] else []) in
    options_plugins (d_options SampleSetup.built) = plugins /\
    init_in_turn plugins w5
    = (Return tt,
       world (snd (constructor (construction := SampleSetup.construction) SampleSetup.client
                     VUndefined (Sample.unregistered 0)))) /\
    trace (snd (constructor (construction := SampleSetup.construction) SampleSetup.client
                  VUndefined (Sample.unregistered 0)))
    = [] ++ [ECall "checkIntents"; ECall "new Options"; ECall "new DisTubeVoiceManager";
             ECall "new DisTubeHandler"; ECall "new QueueManager"]
         ++ replicate (length plugins) (ECall "plugin.init").
Proof.
  apply (constructor_initialises_plugins (construction := SampleSetup.construction)
           SampleSetup.client VUndefined (Sample.unregistered 0) _ SampleSetup.built
           sample_constructed).
Defined.

Lemma constructor_sorts_plugins_witness :
  (SampleSetup.plugin "custom" ∈ d_customPlugins SampleSetup.built) /\
  (SampleSetup.plugin "other" ∉ d_customPlugins SampleSetup.built) /\
  (SampleSetup.plugin "other" ∉ d_extractorPlugins SampleSetup.built).
Proof.
  destruct (constructor_sorts_plugins (construction := SampleSetup.construction)
              SampleSetup.client VUndefined (Sample.unregistered 0) _ SampleSetup.built
              sample_constructed) as (Hcustom & Hextractor & _).
  split; [|split].
  - apply Hcustom. split; [|reflexivity]. apply list_elem_of_here.
  - intros Hin. apply Hcustom in Hin as [_ Htype]. discriminate Htype.
  - intros Hin. apply Hextractor in Hin as [_ Htype]. discriminate Htype.
Defined.

Lemma constructor_merges_filters_witness :
  d_filters SampleSetup.built !! "bassboost" = Some "bass=g=20" /\
  d_filters SampleSetup.built !! "nightcore" = Some "asetrate=48000*1.25".
Proof.
  split.
  - rewrite (constructor_merges_filters (construction := SampleSetup.construction)
               SampleSetup.client VUndefined (Sample.unregistered 0) _ SampleSetup.built
               "bassboost" sample_constructed).
    reflexivity.
  - rewrite (constructor_merges_filters (construction := SampleSetup.construction)
               SampleSetup.client VUndefined (Sample.unregistered 0) _ SampleSetup.built
               "nightcore" sample_constructed).
    reflexivity.
Defined.
